(** * PromptDj: prompt synchronisation and audio scheduling core of [index.tsx]

    A shallow embedding of the [PromptDj] component: the [throttle] helper,
    the prompt payload sent to the music session, the sequencer prompt, the
    message handler that schedules audio buffers, and the play/pause/stop
    handlers.

    Conventions of the embedding:
    - JavaScript numbers that carry seconds or weights are exact rationals
      ([Q]); [Date.now()] is an integer number of milliseconds ([Z]).
    - [Map<string, Prompt>] is an association list in insertion order,
      [Set<string>] is a [gset string].
    - Calls on collaborators (session, audio graph, toast, timers) are
      appended to the [effects] log of the component state.
    - Every handler runs to completion in one step; the value read from
      [audioContext.currentTime] during a handler is an argument of the
      handler. *)

From Stdlib Require Import ZArith QArith Qround Qminmax Lqa List.
From Stdlib Require Import SpecFloat.
From stdpp Require Import base gmap strings list pretty.
Import ListNotations.

(** ** Data model *)

Inductive PlaybackState := stopped | playing | loading | paused.

#[global] Instance PlaybackState_eq_dec : EqDecision PlaybackState.
Proof. solve_decision. Defined.

Record Prompt := mkPrompt {
  promptId : string;
  color : string;
  text : string;
  weight : Q
}.

(** What [decodeAudioData] resolves to: only the duration is read here. *)
Record AudioBuffer := mkAudioBuffer {
  pcm : string;
  duration : Q
}.

Record AudioChunk := mkAudioChunk { data : string }.

(** The [text] field is named [fp_text] to keep it apart from [Prompt]'s. *)
Record FilteredPrompt := mkFilteredPrompt {
  fp_text : string;
  filteredReason : string
}.

Record ServerContent := mkServerContent {
  audioChunks : option (list AudioChunk)
}.

Record LiveMusicServerMessage := mkMessage {
  setupComplete : bool;
  filteredPrompt : option FilteredPrompt;
  serverContent : option ServerContent
}.

(** [e.serverContent?.audioChunks] *)
Definition message_audioChunks (e : LiveMusicServerMessage)
  : option (list AudioChunk) :=
  match serverContent e with
  | Some sc => audioChunks sc
  | None => None
  end.

(** Calls made on the collaborators of the component. *)
Inductive Effect :=
| Connect (sid : nat)
| SessionPlay (sid : nat)
| SessionPause (sid : nat)
| SessionStop (sid : nat)
| SetWeightedPrompts (sid : nat) (weightedPrompts : list Prompt)
| SetMusicGenerationConfig (sid : nat)
| ContextResume
| CreateGain (node : nat)
| GainSetValueAtTime (node : nat) (value time : Q)
| GainLinearRampToValueAtTime (node : nat) (value time : Q)
| DecodeAudioData (bytes : string)
| SourceConnect (buffer : AudioBuffer) (node : nat)
| SourceStart (buffer : AudioBuffer) (when : Q)
| SetTimeout (ms : Q)
| ToastShow (message : string)
| DispatchPromptsChanged (detail : list (string * Prompt)).

(** ** Numbers *)

Definition Qltb (x y : Q) : bool := negb (Qle_bool y x).

#[global] Arguments Qltb : simpl never.

(** ** [throttle]

    The closure variable [lastCall] is passed explicitly next to the world
    [func] acts on. *)

Section throttle.
Context {Args World : Type}.
Variable func : Args → World → World.
Variable delay : Z.

Definition throttle (now : Z) (args : Args) (st : Z * World) : Z * World :=
  let '(lastCall, w) := st in
  let timeSinceLastCall := (now - lastCall)%Z in
  if (delay <=? timeSinceLastCall)%Z
  then (now, func args w)
  else (lastCall, w).

(** A series of invocations, each with the value of [Date.now()] it sees. *)
Definition throttle_calls (calls : list (Z * Args)) (st : Z * World)
  : Z * World :=
  fold_left (λ st c, throttle (fst c) (snd c) st) calls st.
End throttle.

(** ** [Map<string, Prompt>], in insertion order *)

Definition PromptMap := list (string * Prompt).

Fixpoint map_get (k : string) (m : PromptMap) : option Prompt :=
  match m with
  | [] => None
  | (k', v) :: m' => if String.eqb k k' then Some v else map_get k m'
  end.

Definition map_has (k : string) (m : PromptMap) : bool :=
  match map_get k m with Some _ => true | None => false end.

Fixpoint map_set (k : string) (v : Prompt) (m : PromptMap) : PromptMap :=
  match m with
  | [] => [(k, v)]
  | (k', v') :: m' =>
      if String.eqb k k' then (k', v) :: m' else (k', v') :: map_set k v m'
  end.

Fixpoint map_delete (k : string) (m : PromptMap) : PromptMap :=
  match m with
  | [] => []
  | (k', v') :: m' =>
      if String.eqb k k' then m' else (k', v') :: map_delete k m'
  end.

Definition map_values (m : PromptMap) : list Prompt := map snd m.

(** ** Sequencer prompt and payload *)

Definition instruments : list string :=
  ["kick drum"; "snare drum"; "clap"; "closed hi-hat"; "open hi-hat"; "toms"].

Definition preamble : string := "A brutal heavy bass and percussion track. ".

(** [instruments[i]] inside a template literal. *)
Definition instrument (i : nat) : string := nth i instruments "undefined".

Definition clause (i : nat) : string :=
  "It features a prominent " +:+ instrument i +:+ ". ".

(** [track.some((step) => step === 1)] *)
Definition hasNotes (track : list Z) : bool := existsb (Z.eqb 1) track.

(** The body of the [forEach] callback, on the pair of accumulators
    [(description, activeInstruments)]. *)
Definition sequencer_visit (acc : string * nat) (track : list Z) (i : nat)
  : string * nat :=
  if hasNotes track then (fst acc +:+ clause i, S (snd acc)) else acc.

Fixpoint sequencer_forEach (grid : list (list Z)) (i : nat)
  (acc : string * nat) : string * nat :=
  match grid with
  | [] => acc
  | track :: grid' =>
      sequencer_forEach grid' (S i) (sequencer_visit acc track i)
  end.

Definition generateSequencerPrompt (sequencerGrid : list (list Z))
  (sequencerWeight : Q) : string :=
  if Qeq_bool sequencerWeight 0 then ""
  else
    let '(description, activeInstruments) :=
      sequencer_forEach sequencerGrid 0 (preamble, 0%nat) in
    if Nat.eqb activeInstruments 0 then "" else description.

(** Truthiness of a string. *)
Definition truthy (s : string) : bool :=
  match s with EmptyString => false | _ => true end.

Definition sequencerPrompt (sequencerPromptText : string) (w : Q) : Prompt :=
  {| promptId := "prompt-sequencer";
     text := sequencerPromptText;
     weight := w;
     color := "#ff0044" |}.

(** The array passed to [session.setWeightedPrompts]. *)
Definition promptsToSend (prompts : PromptMap) (filtered : gset string)
  (sequencerGrid : list (list Z)) (sequencerWeight : Q) : list Prompt :=
  let toSend :=
    List.filter
      (λ p, negb (bool_decide (text p ∈ filtered))
            && negb (Qeq_bool (weight p) 0))
      (map_values prompts) in
  let sequencerPromptText :=
    generateSequencerPrompt sequencerGrid sequencerWeight in
  if truthy sequencerPromptText && Qltb 0 sequencerWeight
  then toSend ++ [sequencerPrompt sequencerPromptText sequencerWeight]
  else toSend.

(** ** Component state *)

Record PromptDj := mkPromptDj {
  prompts : PromptMap;
  nextPromptId : nat;
  session : nat;
  outputNode : nat;
  nextStartTime : Q;
  playbackState : PlaybackState;
  filteredPrompts : gset string;
  connectionError : bool;
  sequencerGrid : list (list Z);
  sequencerWeight : Q;
  currentBpm : Q;
  (** closure variable of the throttled [setSessionPrompts] *)
  lastCall : Z;
  (** [setTimeout] callbacks scheduled and not yet run *)
  pendingTimers : nat;
  (** [setWeightedPrompts] promises not yet settled *)
  pendingSends : nat;
  effects : list Effect
}.

Definition set_prompts v s := mkPromptDj v (nextPromptId s) (session s)
  (outputNode s) (nextStartTime s) (playbackState s) (filteredPrompts s)
  (connectionError s) (sequencerGrid s) (sequencerWeight s) (currentBpm s)
  (lastCall s) (pendingTimers s) (pendingSends s) (effects s).
Definition set_nextPromptId v s := mkPromptDj (prompts s) v (session s)
  (outputNode s) (nextStartTime s) (playbackState s) (filteredPrompts s)
  (connectionError s) (sequencerGrid s) (sequencerWeight s) (currentBpm s)
  (lastCall s) (pendingTimers s) (pendingSends s) (effects s).
Definition set_session v s := mkPromptDj (prompts s) (nextPromptId s) v
  (outputNode s) (nextStartTime s) (playbackState s) (filteredPrompts s)
  (connectionError s) (sequencerGrid s) (sequencerWeight s) (currentBpm s)
  (lastCall s) (pendingTimers s) (pendingSends s) (effects s).
Definition set_outputNode v s := mkPromptDj (prompts s) (nextPromptId s)
  (session s) v (nextStartTime s) (playbackState s) (filteredPrompts s)
  (connectionError s) (sequencerGrid s) (sequencerWeight s) (currentBpm s)
  (lastCall s) (pendingTimers s) (pendingSends s) (effects s).
Definition set_nextStartTime v s := mkPromptDj (prompts s) (nextPromptId s)
  (session s) (outputNode s) v (playbackState s) (filteredPrompts s)
  (connectionError s) (sequencerGrid s) (sequencerWeight s) (currentBpm s)
  (lastCall s) (pendingTimers s) (pendingSends s) (effects s).
Definition set_playbackState v s := mkPromptDj (prompts s) (nextPromptId s)
  (session s) (outputNode s) (nextStartTime s) v (filteredPrompts s)
  (connectionError s) (sequencerGrid s) (sequencerWeight s) (currentBpm s)
  (lastCall s) (pendingTimers s) (pendingSends s) (effects s).
Definition set_filteredPrompts v s := mkPromptDj (prompts s) (nextPromptId s)
  (session s) (outputNode s) (nextStartTime s) (playbackState s) v
  (connectionError s) (sequencerGrid s) (sequencerWeight s) (currentBpm s)
  (lastCall s) (pendingTimers s) (pendingSends s) (effects s).
Definition set_connectionError v s := mkPromptDj (prompts s) (nextPromptId s)
  (session s) (outputNode s) (nextStartTime s) (playbackState s)
  (filteredPrompts s) v (sequencerGrid s) (sequencerWeight s) (currentBpm s)
  (lastCall s) (pendingTimers s) (pendingSends s) (effects s).
Definition set_sequencerGrid v s := mkPromptDj (prompts s) (nextPromptId s)
  (session s) (outputNode s) (nextStartTime s) (playbackState s)
  (filteredPrompts s) (connectionError s) v (sequencerWeight s) (currentBpm s)
  (lastCall s) (pendingTimers s) (pendingSends s) (effects s).
Definition set_sequencerWeight v s := mkPromptDj (prompts s) (nextPromptId s)
  (session s) (outputNode s) (nextStartTime s) (playbackState s)
  (filteredPrompts s) (connectionError s) (sequencerGrid s) v (currentBpm s)
  (lastCall s) (pendingTimers s) (pendingSends s) (effects s).
Definition set_currentBpm v s := mkPromptDj (prompts s) (nextPromptId s)
  (session s) (outputNode s) (nextStartTime s) (playbackState s)
  (filteredPrompts s) (connectionError s) (sequencerGrid s)
  (sequencerWeight s) v (lastCall s) (pendingTimers s) (pendingSends s)
  (effects s).
Definition set_lastCall v s := mkPromptDj (prompts s) (nextPromptId s)
  (session s) (outputNode s) (nextStartTime s) (playbackState s)
  (filteredPrompts s) (connectionError s) (sequencerGrid s)
  (sequencerWeight s) (currentBpm s) v (pendingTimers s) (pendingSends s)
  (effects s).
Definition set_pendingTimers v s := mkPromptDj (prompts s) (nextPromptId s)
  (session s) (outputNode s) (nextStartTime s) (playbackState s)
  (filteredPrompts s) (connectionError s) (sequencerGrid s)
  (sequencerWeight s) (currentBpm s) (lastCall s) v (pendingSends s)
  (effects s).
Definition set_pendingSends v s := mkPromptDj (prompts s) (nextPromptId s)
  (session s) (outputNode s) (nextStartTime s) (playbackState s)
  (filteredPrompts s) (connectionError s) (sequencerGrid s)
  (sequencerWeight s) (currentBpm s) (lastCall s) (pendingTimers s) v
  (effects s).
Definition set_effects v s := mkPromptDj (prompts s) (nextPromptId s)
  (session s) (outputNode s) (nextStartTime s) (playbackState s)
  (filteredPrompts s) (connectionError s) (sequencerGrid s)
  (sequencerWeight s) (currentBpm s) (lastCall s) (pendingTimers s)
  (pendingSends s) v.

(** ** Handlers as state transformers

    A handler either runs to its end ([Some]) or stops early ([None]: a
    [return] in the middle of the handler, or a thrown exception); the
    assignments made before it stopped are kept either way. *)

Definition M (A : Type) : Type := PromptDj → option A * PromptDj.

#[global] Instance M_ret : MRet M := λ A a s, (Some a, s).
#[global] Instance M_bind : MBind M := λ A B f m s,
  match m s with
  | (Some a, s') => f a s'
  | (None, s') => (None, s')
  end.

Definition stop {A} : M A := λ s, (None, s).
Definition gets {A} (f : PromptDj → A) : M A := λ s, (Some (f s), s).
Definition modify (f : PromptDj → PromptDj) : M unit := λ s, (Some tt, f s).
Definition emit (e : Effect) : M unit :=
  modify (λ s, set_effects (effects s ++ [e]) s).
Definition when (b : bool) (m : M unit) : M unit := if b then m else mret tt.

(** The state a handler leaves behind. *)
Definition exec {A} (m : M A) (s : PromptDj) : PromptDj := snd (m s).

(** ** The throttled prompt push *)

(** [e.message] of the [TypeError] thrown by [this.session.name(...)]
    while [this.session] is [undefined]; the wording is the engine's, here
    that of V8. *)
Definition undefinedSessionMessage (name : string) : string :=
  "Cannot read properties of undefined (reading '" +:+ name +:+ "')".

(** The function wrapped by [throttle]: computes the payload and calls
    [session.setWeightedPrompts]; the promise it awaits settles later
    ([handleSendSettled]). Session 0 is [undefined]: the call throws inside
    the [try], the [catch] shows the message and calls [pauseAudio], which
    throws in turn on [this.session.pause()] before it changes anything;
    the function is [async], so its caller goes on. *)
Definition sendPrompts : M unit :=
  s ← gets (λ s, s);
  match session s with
  | O => emit (ToastShow (undefinedSessionMessage "setWeightedPrompts"))
  | S _ =>
      emit (SetWeightedPrompts (session s)
              (promptsToSend (prompts s) (filteredPrompts s)
                 (sequencerGrid s) (sequencerWeight s)));;
      modify (λ s, set_pendingSends (S (pendingSends s)) s)
  end.

(** [setSessionPrompts = throttle(async () => {...}, 200)], called when
    [Date.now()] is [nowMs]. *)
Definition setSessionPrompts (nowMs : Z) : M unit := λ s,
  let '(lc, s') :=
    throttle (λ _ : unit, exec sendPrompts) 200 nowMs tt (lastCall s, s) in
  (Some tt, set_lastCall lc s').

(** ** Audio control *)

Definition bufferTime : Q := 2.

(** [this.session.name(...)]: with session 0, which is [undefined], the
    call throws and the handler stops there. *)
Definition sessionCall (e : nat → Effect) : M unit :=
  sid ← gets session;
  match sid with
  | O => stop
  | S _ => emit (e sid)
  end.

Definition pauseAudio (now : Q) : M unit :=
  sessionCall SessionPause;;
  modify (set_playbackState paused);;
  node ← gets outputNode;
  emit (GainSetValueAtTime node 1 now);;
  emit (GainLinearRampToValueAtTime node 0 (now + 0.1));;
  modify (set_nextStartTime 0);;
  modify (set_outputNode (S node));;
  emit (CreateGain (S node)).

Definition loadAudio (now : Q) : M unit :=
  emit ContextResume;;
  sessionCall SessionPlay;;
  modify (set_playbackState loading);;
  node ← gets outputNode;
  emit (GainSetValueAtTime node 0 now);;
  emit (GainLinearRampToValueAtTime node 1 (now + 0.1)).

Definition stopAudio (now : Q) : M unit :=
  sessionCall SessionStop;;
  modify (set_playbackState stopped);;
  node ← gets outputNode;
  emit (GainSetValueAtTime node 0 now);;
  emit (GainLinearRampToValueAtTime node 1 (now + 0.1));;
  modify (set_nextStartTime 0).

(** [this.session = await ai.live.music.connect(...)], for a connect that
    resolves; a connect that rejects, or that is still pending when other
    handlers run, is not an event of this model. *)
Definition connectToSession : M unit :=
  sid ← gets session;
  modify (set_session (S sid));;
  emit (Connect (S sid)).

Definition onerror (now : Q) : M unit :=
  modify (set_connectionError true);;
  stopAudio now;;
  emit (ToastShow "Connection error, please restart audio.").

Definition onclose (now : Q) : M unit :=
  modify (set_connectionError true);;
  stopAudio now;;
  emit (ToastShow "Connection error, please restart audio.").

(** The callback given to [setTimeout] by [onmessage]. *)
Definition playbackTimer : M unit :=
  n ← gets pendingTimers;
  match n with
  | O => stop
  | S n' =>
      modify (set_pendingTimers n');;
      modify (set_playbackState playing)
  end.

(** The promise awaited in the throttled function settles: [None] when it
    resolves, [Some message] when it rejects with [e.message = message]. *)
Definition handleSendSettled (rejected : option string) (now : Q) : M unit :=
  n ← gets pendingSends;
  match n with
  | O => stop
  | S n' =>
      modify (set_pendingSends n');;
      match rejected with
      | None => mret tt
      | Some message => emit (ToastShow message);; pauseAudio now
      end
  end.

(** The statements of [onmessage] after [await decodeAudioData(...)], run
    with the buffer the promise resolved to; the playback state is not
    read again. In [onAudioChunks] below they run in the same step as the
    guard; run on their own they are the continuation of a decode during
    which other handlers ran. *)
Definition afterDecode (audioBuffer : AudioBuffer) (now : Q) : M unit :=
  node ← gets outputNode;
  emit (SourceConnect audioBuffer node);;
  t0 ← gets nextStartTime;
  when (Qeq_bool t0 0)
    (modify (set_nextStartTime (now + bufferTime));;
     emit (SetTimeout (bufferTime * 1000));;
     modify (λ s, set_pendingTimers (S (pendingTimers s)) s));;
  t ← gets nextStartTime;
  if Qltb t now then
    modify (set_playbackState loading);;
    modify (set_nextStartTime 0);;
    stop
  else
    emit (SourceStart audioBuffer t);;
    modify (set_nextStartTime (t + duration audioBuffer)).

Section handlers.
(** [decodeAudioData(decode(data), audioContext, 48000, 2)] is defined in
    [./utils], outside this file; [None] stands for a rejected promise. *)
Variable decodeAudioData : string → option AudioBuffer.

(** The part of [onmessage] guarded by
    [e.serverContent?.audioChunks !== undefined]. The statements after
    [await decodeAudioData(...)] run in the same step as those before it. *)
Definition onAudioChunks (chunks : list AudioChunk) (now : Q) : M unit :=
  st ← gets playbackState;
  match st with
  | paused | stopped => stop
  | _ =>
    match chunks with
    | [] => stop
    | chunk :: _ =>
      emit (DecodeAudioData (data chunk));;
      match decodeAudioData (data chunk) with
      | None => stop
      | Some audioBuffer =>
        node ← gets outputNode;
        emit (SourceConnect audioBuffer node);;
        t0 ← gets nextStartTime;
        when (Qeq_bool t0 0)
          (modify (set_nextStartTime (now + bufferTime));;
           emit (SetTimeout (bufferTime * 1000));;
           modify (λ s, set_pendingTimers (S (pendingTimers s)) s));;
        t ← gets nextStartTime;
        if Qltb t now then
          modify (set_playbackState loading);;
          modify (set_nextStartTime 0);;
          stop
        else
          emit (SourceStart audioBuffer t);;
          modify (set_nextStartTime (t + duration audioBuffer))
      end
    end
  end.

Definition onmessage (e : LiveMusicServerMessage) (now : Q) : M unit :=
  when (setupComplete e) (modify (set_connectionError false));;
  match filteredPrompt e with
  | Some fp =>
      modify (λ s, set_filteredPrompts (filteredPrompts s ∪ {[fp_text fp]}) s);;
      emit (ToastShow (filteredReason fp))
  | None => mret tt
  end;;
  match message_audioChunks e with
  | Some chunks => onAudioChunks chunks now
  | None => mret tt
  end.

(** ** User interface handlers *)

Definition firstUpdated (nowMs : Z) : M unit :=
  modify (λ s, set_nextPromptId (length (prompts s)) s);;
  connectToSession;;
  setSessionPrompts nowMs.

(** The statements after [await this.connectToSession()] run in the same
    step as the click. *)
Definition handlePlayPause (now : Q) (nowMs : Z) : M unit :=
  st ← gets playbackState;
  match st with
  | playing => pauseAudio now
  | paused | stopped =>
      ce ← gets connectionError;
      when ce (connectToSession;; setSessionPrompts nowMs);;
      loadAudio now
  | loading => stopAudio now
  end.

Definition dispatchPromptsChange : M unit :=
  ps ← gets prompts;
  emit (DispatchPromptsChanged ps).

Definition handlePromptChanged (id newText : string) (newWeight : Q)
  (nowMs : Z) : M unit :=
  ps ← gets prompts;
  match map_get id ps with
  | None => stop
  | Some prompt =>
      let prompt' :=
        {| promptId := promptId prompt; color := color prompt;
           text := newText; weight := newWeight |} in
      modify (set_prompts (map_set id prompt' ps));;
      setSessionPrompts nowMs;;
      dispatchPromptsChange
  end.

(** [newColor] is the result of [getUnusedRandomColor]. *)
Definition handleAddPrompt (newColor : string) (nowMs : Z) : M unit :=
  n ← gets nextPromptId;
  modify (set_nextPromptId (S n));;
  let newPromptId := "prompt-" +:+ pretty n in
  let newPrompt :=
    {| promptId := newPromptId; text := "New Prompt"; weight := 0;
       color := newColor |} in
  modify (λ s, set_prompts (map_set newPromptId newPrompt (prompts s)) s);;
  setSessionPrompts nowMs.

Definition handlePromptRemoved (promptIdToRemove : string) (nowMs : Z)
  : M unit :=
  ps ← gets prompts;
  if map_has promptIdToRemove ps then
    modify (set_prompts (map_delete promptIdToRemove ps));;
    setSessionPrompts nowMs;;
    dispatchPromptsChange
  else mret tt.

Definition handleSequencerChange (grid : list (list Z)) (newWeight : Q)
  (nowMs : Z) : M unit :=
  modify (set_sequencerGrid grid);;
  modify (set_sequencerWeight newWeight);;
  setSessionPrompts nowMs.

(** Only the [bpm] field of the configuration is read here. *)
Definition handleSettingsChange (bpm : option Q) : M unit :=
  sessionCall SetMusicGenerationConfig;;
  match bpm with
  | Some b => when (negb (Qeq_bool b 0)) (modify (set_currentBpm b))
  | None => mret tt
  end.

(** A handler run as the listener of a dispatched event: what it throws
    does not reach the code that dispatched the event. *)
Definition listener (m : M unit) : M unit := λ s, (Some tt, exec m s).

(** [settingsController.resetToDefaults()] dispatches [settings-changed]
    with the default configuration, which has no [bpm]. *)
Definition handleReset : M unit :=
  listener (handleSettingsChange None);;
  emit (ToastShow "Settings reset to default").

(** ** The event loop *)

Inductive Event :=
| FirstUpdated (nowMs : Z)
| ServerMessage (e : LiveMusicServerMessage) (now : Q)
| SessionError (now : Q)
| SessionClose (now : Q)
| PlaybackTimer
| SendSettled (rejected : option string) (now : Q)
| PlayPauseClick (now : Q) (nowMs : Z)
| PromptChanged (id newText : string) (newWeight : Q) (nowMs : Z)
| AddPromptClick (newColor : string) (nowMs : Z)
| PromptRemoved (id : string) (nowMs : Z)
| SequencerChanged (grid : list (list Z)) (newWeight : Q) (nowMs : Z)
| SettingsChanged (bpm : option Q)
| ResetClick.

Definition handle (ev : Event) : M unit :=
  match ev with
  | FirstUpdated nowMs => firstUpdated nowMs
  | ServerMessage e now => onmessage e now
  | SessionError now => onerror now
  | SessionClose now => onclose now
  | PlaybackTimer => playbackTimer
  | SendSettled rejected now => handleSendSettled rejected now
  | PlayPauseClick now nowMs => handlePlayPause now nowMs
  | PromptChanged id newText newWeight nowMs =>
      handlePromptChanged id newText newWeight nowMs
  | AddPromptClick newColor nowMs => handleAddPrompt newColor nowMs
  | PromptRemoved id nowMs => handlePromptRemoved id nowMs
  | SequencerChanged grid newWeight nowMs =>
      handleSequencerChange grid newWeight nowMs
  | SettingsChanged bpm => handleSettingsChange bpm
  | ResetClick => handleReset
  end.

Definition step (s : PromptDj) (ev : Event) : PromptDj := exec (handle ev) s.

Definition run (s : PromptDj) (evs : list Event) : PromptDj :=
  fold_left step evs s.
End handlers.

(** [initializeSequencer]: six tracks of sixteen steps, all off. *)
Definition initialGrid : list (list Z) := repeat (repeat 0%Z 16) 6.

(** The component as constructed, with the [prompts] property set. *)
Definition initial (ps : PromptMap) : PromptDj :=
  {| prompts := ps; nextPromptId := 0; session := 0; outputNode := 0;
     nextStartTime := 0; playbackState := stopped; filteredPrompts := ∅;
     connectionError := true; sequencerGrid := initialGrid;
     sequencerWeight := 0; currentBpm := 120; lastCall := 0;
     pendingTimers := 0; pendingSends := 0; effects := [CreateGain 0] |}.

(** ** Observations on the effect log *)

(** Buffers started, with their start times, oldest first. *)
Definition scheduled (l : list Effect) : list (AudioBuffer * Q) :=
  flat_map (λ e, match e with SourceStart b t => [(b, t)] | _ => [] end) l.

(** Payloads pushed to the session, oldest first. *)
Definition sent (l : list Effect) : list (list Prompt) :=
  flat_map
    (λ e, match e with SetWeightedPrompts _ ps => [ps] | _ => [] end) l.

(** Bytes handed to [decodeAudioData], oldest first. *)
Definition decoded (l : list Effect) : list string :=
  flat_map
    (λ e, match e with DecodeAudioData bytes => [bytes] | _ => [] end) l.

(** Effects appended since the log was [old] entries long. *)
Definition added (old : PromptDj) (new : PromptDj) : list Effect :=
  drop (length (effects old)) (effects new).

(** Tracks of the grid with at least one step equal to 1, by index, in
    track order. *)
Definition activeTracksFrom (start : nat) (grid : list (list Z)) : list nat :=
  List.filter (λ i, hasNotes (nth (i - start) grid []))
    (seq start (length grid)).

Definition activeTracks (grid : list (list Z)) : list nat :=
  activeTracksFrom 0 grid.

(** One clause per listed track, concatenated in order. *)
Definition clauses (tracks : list nat) : string :=
  String.concat "" (map clause tracks).

Definition isSequencerPrompt (p : Prompt) : bool :=
  String.eqb (promptId p) "prompt-sequencer".


(** While the component is stopped or paused the cursor is at 0. *)
Definition cursorClear (s : PromptDj) : Prop :=
  playbackState s = stopped ∨ playbackState s = paused →
  nextStartTime s = 0%Q.

(** ** Back-to-back schedules *)

(** The buffers of a list started one after the other from time [t]. *)
Fixpoint backToBack (t : Q) (buffers : list AudioBuffer)
  : list (AudioBuffer * Q) :=
  match buffers with
  | [] => []
  | b :: buffers' => (b, t) :: backToBack (t + duration b) buffers'
  end.

Definition totalDuration (buffers : list AudioBuffer) : Q :=
  fold_right (λ b acc, duration b + acc)%Q 0%Q buffers.

(** Arrival times that never find the cursor [t] behind the clock, when the
    cursor advances by the duration of each buffer. *)
Fixpoint inTime (t : Q) (arrivals : list (Q * AudioBuffer)) : Prop :=
  match arrivals with
  | [] => True
  | (now, b) :: arrivals' => (now <= t)%Q ∧ inTime (t + duration b) arrivals'
  end.

(** A message that carries only audio chunks. *)
Definition audioMessage (chunks : list AudioChunk) : LiveMusicServerMessage :=
  {| setupComplete := false; filteredPrompt := None;
     serverContent := Some {| audioChunks := Some chunks |} |}.

(** What the first two statements of [onmessage] leave behind. *)
Definition afterPreamble (e : LiveMusicServerMessage) (s : PromptDj)
  : PromptDj :=
  let s1 := if setupComplete e then set_connectionError false s else s in
  match filteredPrompt e with
  | Some fp =>
      set_effects (effects s1 ++ [ToastShow (filteredReason fp)])
        (set_filteredPrompts (filteredPrompts s1 ∪ {[fp_text fp]}) s1)
  | None => s1
  end.

(** The toast shown for the [filteredPrompt] part of a message. *)
Definition filteredToast (e : LiveMusicServerMessage) : list Effect :=
  match filteredPrompt e with
  | Some fp => [ToastShow (filteredReason fp)]
  | None => []
  end.

(** ** Streams of audio messages *)

Section arrivals.
Variable decodeAudioData : string → option AudioBuffer.

(** The first chunk of message [e] decodes to buffer [b]. *)
Definition carries (e : LiveMusicServerMessage) (b : AudioBuffer) : Prop :=
  ∃ chunk rest,
    message_audioChunks e = Some (chunk :: rest) ∧
    decodeAudioData (data chunk) = Some b.

(** An arrival is a message, the audio clock when it is handled, and the
    buffer its first chunk decodes to. *)
Definition Arrival : Type := LiveMusicServerMessage * Q * AudioBuffer.

Definition arrivalMessage (a : Arrival) : LiveMusicServerMessage := fst (fst a).
Definition arrivalClock (a : Arrival) : Q := snd (fst a).
Definition arrivalBuffer (a : Arrival) : AudioBuffer := snd a.

Definition wellFormed (a : Arrival) : Prop :=
  carries (arrivalMessage a) (arrivalBuffer a) ∧
  (0 <= duration (arrivalBuffer a))%Q.

Definition deliveries (arrivals : list Arrival) : list Event :=
  map (λ a, ServerMessage (arrivalMessage a) (arrivalClock a)) arrivals.
End arrivals.

(** The value of [Date.now()] an event hands to [setSessionPrompts], for
    the events whose handler can call it. *)
Definition eventDate (ev : Event) : option Z :=
  match ev with
  | FirstUpdated nowMs
  | PlayPauseClick _ nowMs
  | PromptChanged _ _ _ nowMs
  | AddPromptClick _ nowMs
  | PromptRemoved _ nowMs
  | SequencerChanged _ _ nowMs => Some nowMs
  | _ => None
  end.

(** ** Example inputs *)

(** A decoder for examples: every chunk decodes to a buffer of one second,
    except the chunk [bad], which fails to decode. *)
Definition exampleDecode (bytes : string) : option AudioBuffer :=
  if String.eqb bytes "bad" then None
  else Some {| pcm := bytes; duration := 1 |}.

Definition examplePrompts : PromptMap :=
  [("prompt-0", {| promptId := "prompt-0"; color := "#9900ff";
                   text := "Lush Strings"; weight := 0 |});
   ("prompt-1", {| promptId := "prompt-1"; color := "#5200ff";
                   text := "Punchy Kick"; weight := 1.2 |});
   ("prompt-2", {| promptId := "prompt-2"; color := "#ff25f6";
                   text := "Thrash"; weight := 0.5 |})].

(** The component connects, the user presses play, two chunks arrive and
    the timer set by the first one runs: the component is [playing]. *)
Definition exampleStartup : list Event :=
  [FirstUpdated 1700000000000;
   ServerMessage {| setupComplete := true; filteredPrompt := None;
                    serverContent := None |} 0;
   SendSettled None 0;
   PlayPauseClick 1 1700000001000;
   ServerMessage (audioMessage [{| data := "AAAA" |}]) 1.5;
   ServerMessage (audioMessage [{| data := "BBBB" |}]) 2;
   PlaybackTimer].

Definition examplePlaying : PromptDj :=
  run exampleDecode (initial examplePrompts) exampleStartup.

(** The component after the play click of [exampleStartup]: [loading],
    cursor at 0. *)
Definition exampleLoading : PromptDj :=
  run exampleDecode (initial examplePrompts) (firstn 4 exampleStartup).

Definition exampleBuffer (bytes : string) : AudioBuffer :=
  {| pcm := bytes; duration := 1 |}.

Definition exampleArrival (bytes : string) (now : Q) : Arrival :=
  (audioMessage [{| data := bytes |}], now, exampleBuffer bytes).

(** Only the kick track has a step switched on. *)
Definition kickOnly : list (list Z) :=
  (1 :: repeat 0 15)%Z :: repeat (repeat 0%Z 16) 5.

(** Ten calls, 5 ms apart, numbered from 1. *)
Definition tenCalls : list (Z * nat) :=
  map (λ i, (1700000000000 + 5 * Z.of_nat i, S i)%Z) (seq 0 10).

(** ** Further observations on the component *)

(** Times each of which comes at least [delay] after the one before it,
    starting from [prev]. *)
Fixpoint spaced (delay prev : Z) (times : list Z) : Prop :=
  match times with
  | [] => True
  | t :: times' => (delay ≤ t - prev)%Z ∧ spaced delay t times'
  end.

(** The wrapped function of a throttle that records when it is called:
    every call is given the value of [Date.now()] as its argument. *)
Definition recordCall (t : Z) (log : list Z) : list Z := log ++ [t].

Definition stampedCalls (times : list Z) : list (Z * Z) :=
  map (λ t, (t, t)) times.

(** Output nodes that buffer sources were connected to, oldest first. *)
Definition connectedNodes (l : list Effect) : list nat :=
  flat_map (λ e, match e with SourceConnect _ n => [n] | _ => [] end) l.

(** Sessions opened, oldest first. *)
Definition connects (l : list Effect) : list nat :=
  flat_map (λ e, match e with Connect sid => [sid] | _ => [] end) l.

Definition isFirstUpdated (ev : Event) : bool :=
  match ev with FirstUpdated _ => true | _ => false end.

(** A settings change whose [bpm] is present and not 0. *)
Definition setsBpm (ev : Event) : bool :=
  match ev with
  | SettingsChanged (Some b) => negb (Qeq_bool b 0)
  | _ => false
  end.

(** The id [handleAddPrompt] gives to the [n]-th prompt. *)
Definition promptIdOf (n : nat) : string := "prompt-" +:+ pretty n.

(** Every key of the prompt map is the id of a prompt numbered below
    [nextPromptId]. *)
Definition idsBelow (s : PromptDj) : Prop :=
  ∀ k, In k (map fst (prompts s)) →
       ∃ i, (i < nextPromptId s)%nat ∧ k = promptIdOf i.

(** The keys the application gives to its initial prompts. *)
Definition canonicalIds (ps : PromptMap) : Prop :=
  map fst ps = map promptIdOf (seq 0 (length ps)).

Definition nonZeroWeight (p : Prompt) : Prop := ¬ (weight p == 0)%Q.

(** The component after a session error while playing. *)
Definition exampleFailed : PromptDj :=
  step exampleDecode examplePlaying (SessionError 5).

(** A drag of the sequencer weight: three changes within 100 ms. *)
Definition exampleDrag : list Event :=
  [SequencerChanged kickOnly 0.5 1700000005000;
   SequencerChanged kickOnly 0.8 1700000005050;
   SequencerChanged kickOnly 1 1700000005100].

(** ** Colours of the prompts *)

Definition COLORS : list string :=
  ["#9900ff"; "#5200ff"; "#ff25f6"; "#2af6de"; "#ffdd28"; "#3dffab";
   "#d8ff3e"; "#d9b2ff"].

(** [array[Math.floor(random * array.length)]], where [random] is what
    [Math.random()] returned; [None] is [undefined]. *)
Definition randomElement {A} (array : list A) (random : Q) : option A :=
  let i := Qfloor (random * inject_Z (Z.of_nat (length array))) in
  if (i <? 0)%Z then None else array !! Z.to_nat i.

(** [usedColors.includes(c)] *)
Definition includes (usedColors : list string) (c : string) : bool :=
  existsb (String.eqb c) usedColors.

Definition getUnusedRandomColor (usedColors : list string) (random : Q)
  : option string :=
  let availableColors :=
    List.filter (λ c, negb (includes usedColors c)) COLORS in
  if Nat.eqb (length availableColors) 0
  then randomElement COLORS random
  else randomElement availableColors random.

(** ** Application start: the initial prompts *)

Definition initialPrompts : list string :=
  ["Lush Strings"; "Sparkling Arpeggios"; "Staccato Rhythms"; "Punchy Kick"].

(** A colour that is [undefined] (which needs a random value outside
    [0, 1)) is kept as the text it prints as. *)
Definition colorText (c : option string) : string := default "undefined" c.

(** The callback of [initialPrompts.forEach], for the text at index [i];
    [random] is the value [Math.random()] returns in this call. *)
Definition addInitialPrompt (random : Q) (prompts : PromptMap)
  (newText : string) (i : nat) : PromptMap :=
  let newId := promptIdOf i in
  let usedColors := map color (map_values prompts) in
  map_set newId
    {| promptId := newId; text := newText; weight := 0;
       color := colorText (getUnusedRandomColor usedColors random) |}
    prompts.

(** The loop over the texts from index [i] on; [random i] is the value
    drawn in the call for index [i]. *)
Fixpoint initialPromptsFrom (random : nat → Q) (texts : list string)
  (i : nat) (prompts : PromptMap) : PromptMap :=
  match texts with
  | [] => prompts
  | newText :: texts' =>
      initialPromptsFrom random texts' (S i)
        (addInitialPrompt (random i) prompts newText i)
  end.

(** The map handed to [<prompt-dj .prompts=...>]. *)
Definition appPrompts (random : nat → Q) : PromptMap :=
  initialPromptsFrom random initialPrompts 0 [].

(** A value [Math.random()] can return. *)
Definition unitInterval (r : Q) : Prop := (0 <= r)%Q ∧ (r < 1)%Q.

(** ** WeightSlider

    [value] is a JavaScript number that can become [NaN] (a track of height
    0 divides 0 by 0): [None] stands for [NaN]. Listeners on [window] are
    flags; the [input] events dispatched are logged with their detail. *)

Record DOMRect := mkDOMRect {
  rectTop : Q;
  rectHeight : Q
}.

Record WeightSlider := mkWeightSlider {
  value : option Q;
  dragStartPos : Q;
  dragStartValue : option Q;
  containerBounds : option DOMRect;
  pointermoveListener : bool;
  touchmoveListener : bool;
  pointerupListener : bool;
  draggingClass : bool;
  inputEvents : list (option Q)
}.

(** [Math.max(0, Math.min(hi, x))] *)
Definition clampTo (hi x : Q) : Q := Qmax 0 (Qmin hi x).

Definition dispatchInputEvent (w : WeightSlider) : WeightSlider :=
  mkWeightSlider (value w) (dragStartPos w) (dragStartValue w)
    (containerBounds w) (pointermoveListener w) (touchmoveListener w)
    (pointerupListener w) (draggingClass w) (inputEvents w ++ [value w]).

Definition setValue (v : option Q) (w : WeightSlider) : WeightSlider :=
  mkWeightSlider v (dragStartPos w) (dragStartValue w)
    (containerBounds w) (pointermoveListener w) (touchmoveListener w)
    (pointerupListener w) (draggingClass w) (inputEvents w).

Definition updateValueFromPosition (clientY : Q) (w : WeightSlider)
  : WeightSlider :=
  match containerBounds w with
  | None => w
  | Some bounds =>
      let trackHeight := rectHeight bounds in
      let relativeY := (clientY - rectTop bounds)%Q in
      let normalizedValue :=
        if Qeq_bool trackHeight 0 then None
        else Some (1 - clampTo trackHeight relativeY / trackHeight)%Q in
      dispatchInputEvent
        (setValue (option_map (λ n, n * 2)%Q normalizedValue) w)
  end.

(** [bounds] is what [scrollContainer.getBoundingClientRect()] returns. *)
Definition handlePointerDown (clientY : Q) (bounds : DOMRect)
  (w : WeightSlider) : WeightSlider :=
  updateValueFromPosition clientY
    (mkWeightSlider (value w) clientY (value w) (Some bounds)
       true true true true (inputEvents w)).

Definition handlePointerMove (clientY : Q) (w : WeightSlider) : WeightSlider :=
  updateValueFromPosition clientY w.

(** [clientY] is [e.touches[0].clientY]. *)
Definition handleTouchMove (clientY : Q) (w : WeightSlider) : WeightSlider :=
  updateValueFromPosition clientY w.

(** The listener was added with [once: true]: it is gone after the call.
    The [touchmove] listener is not removed. *)
Definition handlePointerUp (w : WeightSlider) : WeightSlider :=
  mkWeightSlider (value w) (dragStartPos w) (dragStartValue w) None
    false (touchmoveListener w) false false (inputEvents w).

Definition handleWheel (deltaY : Q) (w : WeightSlider) : WeightSlider :=
  let v1 := option_map (λ v, v + deltaY * -0.005)%Q (value w) in
  let v2 := option_map (clampTo 2) v1 in
  dispatchInputEvent (setValue v2 w).

Inductive SliderEvent :=
| PointerDown (clientY : Q) (bounds : DOMRect)
| WindowPointerMove (clientY : Q)
| WindowTouchMove (clientY : Q)
| WindowPointerUp
| Wheel (deltaY : Q).

(** An event on [window] reaches a handler only while its listener is
    registered. *)
Definition sliderStep (w : WeightSlider) (ev : SliderEvent) : WeightSlider :=
  match ev with
  | PointerDown clientY bounds => handlePointerDown clientY bounds w
  | WindowPointerMove clientY =>
      if pointermoveListener w then handlePointerMove clientY w else w
  | WindowTouchMove clientY =>
      if touchmoveListener w then handleTouchMove clientY w else w
  | WindowPointerUp =>
      if pointerupListener w then handlePointerUp w else w
  | Wheel deltaY => handleWheel deltaY w
  end.

Definition sliderRun (w : WeightSlider) (evs : list SliderEvent)
  : WeightSlider :=
  fold_left sliderStep evs w.

(** The slider as constructed: [value = 0], no drag in progress. *)
Definition newSlider : WeightSlider :=
  mkWeightSlider (Some 0%Q) 0 (Some 0%Q) None false false false false [].

(** A number between 0 and 2 (not [NaN]). *)
Definition inRange (v : option Q) : Prop :=
  match v with
  | Some q => (0 <= q)%Q ∧ (q <= 2)%Q
  | None => False
  end.

(** Tracks have a positive height. *)
Definition positiveTrack (ev : SliderEvent) : Prop :=
  match ev with
  | PointerDown _ bounds => (0 < rectHeight bounds)%Q
  | _ => True
  end.

Definition isMove (ev : SliderEvent) : bool :=
  match ev with
  | WindowPointerMove _ | WindowTouchMove _ => true
  | _ => false
  end.

(** The value computed from a pointer position on a track of positive
    height. *)
Definition positionValue (bounds : DOMRect) (clientY : Q) : Q :=
  ((1 - clampTo (rectHeight bounds) (clientY - rectTop bounds)
          / rectHeight bounds) * 2)%Q.

(** The bounds stored during a drag have a positive height. *)
Definition boundsPositive (w : WeightSlider) : Prop :=
  match containerBounds w with
  | Some bounds => (0 < rectHeight bounds)%Q
  | None => True
  end.

(** ** BeatSequencer

    The timers of [window] are part of the state: [liveIntervals] holds the
    intervals set and not cleared, with their period in milliseconds, and
    [nextIntervalId] is the id the next [setInterval] returns (ids start
    at 1). [changes] logs the detail of each [sequencer-changed] event. *)

Module BeatSequencer.

Record State := mkState {
  grid : list (list Z);
  weight : Q;
  playbackState : PlaybackState;
  bpm : Q;
  currentStep : Z;
  stepInterval : option nat;
  liveIntervals : list (nat * Q);
  nextIntervalId : nat;
  changes : list (list (list Z) * Q)
}.

Definition numSteps : Z := 16.

Definition presets : list (string * list (list Z)) :=
  [("Brutalism",
    [[1; 0; 1; 0; 1; 0; 1; 0; 1; 0; 1; 0; 1; 0; 1; 0];
     [0; 0; 0; 0; 1; 0; 0; 0; 0; 0; 0; 0; 1; 0; 0; 1];
     [0; 0; 0; 0; 1; 0; 0; 0; 0; 0; 0; 0; 1; 0; 0; 0];
     [1; 1; 1; 1; 1; 1; 1; 1; 1; 1; 1; 1; 1; 1; 1; 1];
     [0; 0; 0; 1; 0; 0; 0; 1; 0; 0; 0; 1; 0; 0; 0; 1];
     [1; 0; 0; 1; 0; 0; 1; 0; 0; 1; 0; 0; 1; 0; 0; 0]]);
   ("House",
    [[1; 0; 0; 0; 1; 0; 0; 0; 1; 0; 0; 0; 1; 0; 0; 0];
     [0; 0; 0; 0; 1; 0; 0; 0; 0; 0; 0; 0; 1; 0; 0; 0];
     [0; 0; 0; 0; 0; 0; 0; 0; 0; 0; 0; 0; 0; 0; 0; 0];
     [0; 0; 1; 0; 0; 0; 1; 0; 0; 0; 1; 0; 0; 0; 1; 0];
     [0; 0; 0; 0; 0; 0; 0; 0; 0; 0; 1; 0; 0; 0; 0; 0];
     [0; 0; 0; 0; 0; 0; 0; 0; 0; 0; 0; 0; 0; 0; 0; 0]]);
   ("Clear", repeat (repeat 0 16) 6)]%Z.

Definition set_grid (g : list (list Z)) (s : State) : State :=
  mkState g (weight s) (playbackState s) (bpm s) (currentStep s)
    (stepInterval s) (liveIntervals s) (nextIntervalId s) (changes s).

Definition set_weight (w : Q) (s : State) : State :=
  mkState (grid s) w (playbackState s) (bpm s) (currentStep s)
    (stepInterval s) (liveIntervals s) (nextIntervalId s) (changes s).

Definition set_currentStep (c : Z) (s : State) : State :=
  mkState (grid s) (weight s) (playbackState s) (bpm s) c
    (stepInterval s) (liveIntervals s) (nextIntervalId s) (changes s).

(** [if (this.stepInterval)]: an id that is defined and not 0. *)
Definition truthyInterval (i : option nat) : option nat :=
  match i with
  | Some (S n) => Some (S n)
  | _ => None
  end.

(** [window.clearInterval(id)] *)
Definition clearInterval (id : nat) (s : State) : State :=
  mkState (grid s) (weight s) (playbackState s) (bpm s) (currentStep s)
    (stepInterval s)
    (List.filter (λ t, negb (Nat.eqb (fst t) id)) (liveIntervals s))
    (nextIntervalId s) (changes s).

(** [this.stepInterval = window.setInterval(..., period)] *)
Definition setStepInterval (period : Q) (s : State) : State :=
  mkState (grid s) (weight s) (playbackState s) (bpm s) (currentStep s)
    (Some (nextIntervalId s))
    (liveIntervals s ++ [(nextIntervalId s, period)])
    (S (nextIntervalId s)) (changes s).

Definition unsetStepInterval (s : State) : State :=
  mkState (grid s) (weight s) (playbackState s) (bpm s) (currentStep s)
    None (liveIntervals s) (nextIntervalId s) (changes s).

Definition updatePlaybackIndicator (s : State) : State :=
  let s1 :=
    match truthyInterval (stepInterval s) with
    | Some id => unsetStepInterval (clearInterval id s)
    | None => s
    end in
  if bool_decide (playbackState s1 = playing) && Qltb 0 (bpm s1) then
    let stepDuration := ((60 / bpm s1) * (1000 / 4))%Q in
    setStepInterval stepDuration s1
  else set_currentStep (-1) s1.

(** [changedProperties.has('playbackState')] and [.has('bpm')] *)
Definition updated (hasPlaybackState hasBpm : bool) (s : State) : State :=
  if hasPlaybackState || hasBpm then updatePlaybackIndicator s else s.

Definition disconnectedCallback (s : State) : State :=
  match truthyInterval (stepInterval s) with
  | Some id => clearInterval id s
  | None => s
  end.

(** The callback given to [setInterval]. *)
Definition tick (s : State) : State :=
  set_currentStep (Z.rem (currentStep s + 1) numSteps) s.

Definition dispatchChange (s : State) : State :=
  mkState (grid s) (weight s) (playbackState s) (bpm s) (currentStep s)
    (stepInterval s) (liveIntervals s) (nextIntervalId s)
    (changes s ++ [(grid s, weight s)]).

(** A click on the cell in track [trackIndex] at [stepIndex]. [None]: the
    cell is not in the grid (JavaScript throws for a missing track and
    extends the track for a missing step; the rendered cells only give
    indices of cells that exist). *)
Definition handleStepClick (trackIndex stepIndex : nat) (s : State)
  : option State :=
  match grid s !! trackIndex with
  | None => None
  | Some track =>
      match track !! stepIndex with
      | None => None
      | Some cell =>
          let cell' := if Z.eqb cell 1 then 0%Z else 1%Z in
          Some (dispatchChange
                  (set_grid
                     (<[trackIndex := <[stepIndex := cell']> track]> (grid s))
                     s))
      end
  end.

Fixpoint lookupPreset (name : string) (table : list (string * list (list Z)))
  : option (list (list Z)) :=
  match table with
  | [] => None
  | (k, g) :: table' => if String.eqb name k then Some g else lookupPreset name table'
  end.

Definition handlePresetChange (presetName : string) (s : State) : State :=
  match lookupPreset presetName presets with
  | Some preset => dispatchChange (set_grid (map (λ row, row) preset) s)
  | None => s
  end.

(** [random t i] is the value [Math.random()] returns for the cell in
    track [t] at step [i]. *)
Definition handleRandomize (random : nat → nat → Q) (s : State) : State :=
  dispatchChange
    (set_grid
       (imap (λ t track,
                imap (λ i _, if Qltb (random t i) 0.25 then 1%Z else 0%Z)
                  track)
          (grid s))
       s).

(** [newWeight] is [Number(e.target.value)]. *)
Definition handleWeightChange (newWeight : Q) (s : State) : State :=
  dispatchChange (set_weight newWeight s).

(** The properties [playbackState] and [bpm] are set by the parent; the
    update that follows has them in [changedProperties] when they
    differ from the old values. *)
Definition setProperties (newState : PlaybackState) (newBpm : Q) (s : State)
  : State :=
  updated (negb (bool_decide (newState = playbackState s)))
    (negb (Qeq_bool newBpm (bpm s)))
    (mkState (grid s) (weight s) newState newBpm (currentStep s)
       (stepInterval s) (liveIntervals s) (nextIntervalId s) (changes s)).

Inductive Event :=
| SetProperties (newState : PlaybackState) (newBpm : Q)
| Disconnected
| IntervalFired (id : nat)
| StepClick (trackIndex stepIndex : nat)
| PresetChange (presetName : string)
| Randomize (random : nat → nat → Q)
| WeightChange (newWeight : Q).

Definition step (s : State) (ev : Event) : State :=
  match ev with
  | SetProperties newState newBpm => setProperties newState newBpm s
  | Disconnected => disconnectedCallback s
  | IntervalFired id =>
      if existsb (λ t, Nat.eqb (fst t) id) (liveIntervals s) then tick s
      else s
  | StepClick trackIndex stepIndex =>
      default s (handleStepClick trackIndex stepIndex s)
  | PresetChange presetName => handlePresetChange presetName s
  | Randomize random => handleRandomize random s
  | WeightChange newWeight => handleWeightChange newWeight s
  end.

Definition run (s : State) (evs : list Event) : State := fold_left step evs s.

(** The element after its first update, with the properties the parent
    gives it: the first update has every property in
    [changedProperties]. *)
Definition connected (g : list (list Z)) (w : Q) (st : PlaybackState)
  (b : Q) : State :=
  updated true true (mkState g w st b (-1) None [] 1 []).

(** Every track has sixteen steps, each 0 or 1, and there are six
    tracks. *)
Definition wellShaped (g : list (list Z)) : Prop :=
  length g = 6%nat ∧
  List.Forall (λ track, length track = 16%nat ∧
                        List.Forall (λ c, c = 0%Z ∨ c = 1%Z) track) g.



(** Clicks come from rendered cells: cells of a grid of six tracks of
    sixteen steps. *)
Definition clickOnCell (ev : Event) : Prop :=
  match ev with
  | StepClick trackIndex stepIndex =>
      (trackIndex < 6)%nat ∧ (stepIndex < 16)%nat
  | _ => True
  end.

End BeatSequencer.

(** The cell of a grid in track [t] at step [i], if there is one. *)
Definition cellAt (g : list (list Z)) (t i : nat) : option Z :=
  match g !! t with
  | Some track => track !! i
  | None => None
  end.


(** ** Which tracks the sequencer prompt depends on *)

(** The indices, counted from [start], at which a list of flags is set. *)
Fixpoint flagged (start : nat) (flags : list bool) : list nat :=
  match flags with
  | [] => []
  | b :: flags' => (if b then [start] else []) ++ flagged (S start) flags'
  end.

(** All lists of [n] flags. *)
Fixpoint allFlags (n : nat) : list (list bool) :=
  match n with
  | O => [[]]
  | S n' => flat_map (λ l, [true :: l; false :: l]) (allFlags n')
  end.

(** The text of the sequencer prompt for a weight that is not 0, from the
    flags of the tracks that have a note. *)
Definition patternText (flags : list bool) : string :=
  match flagged 0 flags with
  | [] => ""
  | tracks => preamble +:+ clauses tracks
  end.

(** A second rhythm on the kick drum alone. *)
Definition kickOffbeat : list (list Z) :=
  (0 :: 0 :: 1 :: 0 :: 0 :: 0 :: 1 :: repeat 0 9)%Z
    :: repeat (repeat 0%Z 16) 5.

(** * The settings panel ([SettingsController]) *)

Module SettingsController.

(** The values a field of the configuration object holds. *)
Inductive Value :=
| VUndefined
| VNumber (q : Q)
| VString (s : string)
| VBool (b : bool).

(** [v !== undefined] *)
Definition isDefined (v : Value) : bool :=
  match v with VUndefined => false | _ => true end.

(** [Boolean(v)] *)
Definition toBoolean (v : Value) : bool :=
  match v with
  | VUndefined => false
  | VNumber q => negb (Qeq_bool q 0)
  | VString s => negb (String.eqb s "")
  | VBool b => b
  end.

(** The configuration is a plain object: a property is absent, or holds
    a value, which may be [undefined]. *)
Abbreviation Config := (gmap string Value).

(** [config[k]]: an absent property reads as [undefined]. *)
Definition get (k : string) (c : Config) : Value := default VUndefined (c !! k).

Definition defaultConfig : Config :=
  <["temperature" := VNumber 1.1]>
    (<["topK" := VNumber 40]> (<["guidance" := VNumber 4.0]> ∅)).

(** [dispatched] holds the [detail] of every [settings-changed] event,
    oldest first. *)
Record State := mkState {
  config : Config;
  showAdvanced : bool;
  autoDensity : bool;
  lastDefinedDensity : Value;
  autoBrightness : bool;
  lastDefinedBrightness : Value;
  dispatched : list Config
}.

(** The component as constructed. *)
Definition initial : State :=
  mkState defaultConfig false true VUndefined true VUndefined [].

Definition dispatchSettingsChange (s : State) : State :=
  mkState (config s) (showAdvanced s) (autoDensity s) (lastDefinedDensity s)
    (autoBrightness s) (lastDefinedBrightness s)
    (dispatched s ++ [config s]).

Definition resetToDefaults (s : State) : State :=
  dispatchSettingsChange
    (mkState defaultConfig (showAdvanced s) true VUndefined true VUndefined
       (dispatched s)).

(** What the handler reads of [e.target] besides its [id]: its [type]
    with, for [number] and [range], [target.value] as the number it
    denotes ([None] for the empty string); for [checkbox],
    [target.checked]; for [select-one], whether the selected option
    exists and is disabled, and [target.value]; for any other type,
    [target.value]. *)
Inductive Target :=
| NumericInput (range : bool) (value : option Q)
| CheckboxInput (checked : bool)
| SelectInput (selectedDisabled : bool) (value : string)
| OtherInput (value : string).

Definition targetValue (target : Target) : Value :=
  match target with
  | NumericInput _ None => VUndefined
  | NumericInput _ (Some q) => VNumber q
  | CheckboxInput checked => VBool checked
  | SelectInput selectedDisabled value =>
      if selectedDisabled then VUndefined else VString value
  | OtherInput value => VString value
  end.

(** [updateSliderBackground] only sets a style property of the input
    and [console.log] only prints; neither is part of the state. *)
Definition handleInputChange (key : string) (target : Target) (s : State)
  : State :=
  let value := targetValue target in
  let newConfig := <[key := value]> (config s) in
  let lastDefinedDensity' :=
    if isDefined (get "density" newConfig) then get "density" newConfig
    else lastDefinedDensity s in
  let lastDefinedBrightness' :=
    if isDefined (get "brightness" newConfig) then get "brightness" newConfig
    else lastDefinedBrightness s in
  if String.eqb key "auto-density" then
    let autoDensity' := toBoolean value in
    dispatchSettingsChange
      (mkState
         (<["density" := if autoDensity' then VUndefined
                         else lastDefinedDensity']> newConfig)
         (showAdvanced s) autoDensity' lastDefinedDensity'
         (autoBrightness s) lastDefinedBrightness' (dispatched s))
  else if String.eqb key "auto-brightness" then
    let autoBrightness' := toBoolean value in
    dispatchSettingsChange
      (mkState
         (<["brightness" := if autoBrightness' then VUndefined
                            else lastDefinedBrightness']> newConfig)
         (showAdvanced s) (autoDensity s) lastDefinedDensity'
         autoBrightness' lastDefinedBrightness' (dispatched s))
  else
    dispatchSettingsChange
      (mkState newConfig (showAdvanced s) (autoDensity s) lastDefinedDensity'
         (autoBrightness s) lastDefinedBrightness' (dispatched s)).

Definition toggleAdvancedSettings (s : State) : State :=
  mkState (config s) (negb (showAdvanced s)) (autoDensity s)
    (lastDefinedDensity s) (autoBrightness s) (lastDefinedBrightness s)
    (dispatched s).

Inductive Event :=
| InputChange (key : string) (target : Target)
| ResetToDefaults
| ToggleAdvanced.

Definition step (s : State) (ev : Event) : State :=
  match ev with
  | InputChange key target => handleInputChange key target s
  | ResetToDefaults => resetToDefaults s
  | ToggleAdvanced => toggleAdvancedSettings s
  end.

Definition run (s : State) (evs : list Event) : State := fold_left step evs s.

(** The event is neither a reset nor an input on the control [key]. *)
Definition leaves (keys : list string) (ev : Event) : bool :=
  match ev with
  | InputChange key _ => negb (existsb (String.eqb key) keys)
  | ResetToDefaults => false
  | ToggleAdvanced => true
  end.

(** The density and the brightness of the configuration, when defined,
    are the remembered ones, which the sliders show. *)
Definition remembered (s : State) : Prop :=
  (get "density" (config s) = VUndefined ∨
   get "density" (config s) = lastDefinedDensity s) ∧
  (get "brightness" (config s) = VUndefined ∨
   get "brightness" (config s) = lastDefinedBrightness s).

(** The two fields that have an Auto checkbox. *)
Inductive AutoField := Density | Brightness.

Definition fieldKey (a : AutoField) : string :=
  match a with Density => "density" | Brightness => "brightness" end.

Definition autoKey (a : AutoField) : string :=
  match a with Density => "auto-density" | Brightness => "auto-brightness" end.

Definition autoFlag (a : AutoField) (s : State) : bool :=
  match a with Density => autoDensity s | Brightness => autoBrightness s end.

Definition lastDefined (a : AutoField) (s : State) : Value :=
  match a with
  | Density => lastDefinedDensity s
  | Brightness => lastDefinedBrightness s
  end.

(** The [bpm] field as [PromptDj.handleSettingsChange] reads it. *)
Definition bpmOf (c : Config) : option Q :=
  match get "bpm" c with
  | VNumber q => Some q
  | _ => None
  end.

End SettingsController.

(** * The scheduling cursor, for any arithmetic of seconds

    [nextStartTime], [audioContext.currentTime], [bufferTime] and
    [AudioBuffer.duration] are JavaScript numbers, that is IEEE 754
    doubles. The statements of [onmessage] that read and move the cursor
    are given here over a type [num] of seconds with its addition and
    comparisons: with the rationals they are those of [onAudioChunks],
    with [Double] they compute as the code does. *)

(** [started] holds the start time and the duration of every buffer
    started, oldest first. *)
Record Cursor (num : Type) := mkCursor {
  cursorState : PlaybackState;
  cursorTime : num;
  cursorTimers : nat;
  started : list (num * num)
}.

Arguments mkCursor {num}.
Arguments cursorState {num}.
Arguments cursorTime {num}.
Arguments cursorTimers {num}.
Arguments started {num}.

Section scheduling.
Context {num : Type}.
Variable add : num → num → num.
Variable ltb eqb : num → num → bool.
Variable zero lookahead : num.

(** A chunk that decoded to a buffer of [duration] seconds, handled when
    [audioContext.currentTime] is [now]. *)
Definition scheduleChunk (duration now : num) (c : Cursor num) : Cursor num :=
  match cursorState c with
  | paused | stopped => c
  | _ =>
      let unanchored := eqb (cursorTime c) zero in
      let t := if unanchored then add now lookahead else cursorTime c in
      let timers :=
        if unanchored then S (cursorTimers c) else cursorTimers c in
      if ltb t now
      then mkCursor loading zero timers (started c)
      else mkCursor (cursorState c) (add t duration) timers
             (started c ++ [(t, duration)])
  end.

(** Chunks handled one after the other; each comes with the clock at which
    it is handled and the duration of its buffer. *)
Definition scheduleAll (arrivals : list (num * num)) (c : Cursor num)
  : Cursor num :=
  fold_left (λ c a, scheduleChunk (snd a) (fst a) c) arrivals c.

(** Buffers started one after the other from [t], each at the sum the
    arithmetic gives for the start and the duration of the one before. *)
Fixpoint chained (t : num) (durations : list num) : list (num * num) :=
  match durations with
  | [] => []
  | d :: durations' => (t, d) :: chained (add t d) durations'
  end.

(** No underrun from the cursor [t] on: at each arrival the cursor is
    anchored and not behind the clock. *)
Fixpoint noUnderrun (t : num) (arrivals : list (num * num)) : Prop :=
  match arrivals with
  | [] => True
  | (now, d) :: arrivals' =>
      eqb t zero = false ∧ ltb t now = false ∧ noUnderrun (add t d) arrivals'
  end.

(** Seconds as rationals, to compare with sums taken without rounding. *)
Variable toQ : num → Q.

(** Every addition made from [t] on is exact. *)
Fixpoint exactSums (t : num) (durations : list num) : Prop :=
  match durations with
  | [] => True
  | d :: durations' =>
      (toQ (add t d) == toQ t + toQ d)%Q ∧ exactSums (add t d) durations'
  end.

Definition totalSeconds (durations : list num) : Q :=
  fold_right (λ d acc, toQ d + acc)%Q 0%Q durations.

(** The buffer at [i] ends, without rounding, no later than the buffer at
    [j] starts. *)
Definition apart (schedule : list (num * num)) : Prop :=
  ∀ i j ti di tj dj,
    (i < j)%nat →
    schedule !! i = Some (ti, di) → schedule !! j = Some (tj, dj) →
    (toQ ti + toQ di <= toQ tj)%Q.
End scheduling.

(** ** Doubles *)

Module Double.
Definition prec : Z := 53.
Definition emax : Z := 1024.

Definition double : Type := spec_float.

(** The double nearest to [m * 2 ^ e]. *)
Definition ofZ (m e : Z) : double := binary_normalize prec emax m e false.

Definition zero : double := S754_zero false.
Definition add : double → double → double := SFadd prec emax.
Definition div : double → double → double := SFdiv prec emax.
Definition ltb : double → double → bool := SFltb.
Definition eqb : double → double → bool := SFeqb.

(** The double nearest to [n / d], for integers the doubles hold: what a
    decimal literal of up to fifteen digits denotes. *)
Definition ratio (n d : Z) : double := div (ofZ n 0) (ofZ d 0).

(** The rational a finite double is. *)
Definition toQ (x : double) : Q :=
  match x with
  | S754_finite s m e =>
      (inject_Z (if s then Z.neg m else Z.pos m) * 2 ^ e)%Q
  | _ => 0%Q
  end.

(** [bufferTime = 2] *)
Definition bufferTime : double := ofZ 2 0.

Definition scheduleChunk := scheduleChunk add ltb eqb zero bufferTime.
Definition scheduleAll := scheduleAll add ltb eqb zero bufferTime.
Definition chained := chained add.
Definition noUnderrun := noUnderrun add ltb eqb zero.
Definition exactSums := exactSums add toQ.
Definition totalSeconds := totalSeconds toQ.
Definition apart := @apart double toQ.
End Double.

(** The cursor of the component, with seconds as the rationals of the
    component model. *)
Definition cursorOf (s : PromptDj) : Cursor Q :=
  mkCursor (playbackState s) (nextStartTime s) (pendingTimers s)
    (map (λ p, (snd p, duration (fst p))) (scheduled (effects s))).

(** [0.1] and [0.01] as doubles. *)
Definition tenth : Double.double := Double.ratio 1 10.
Definition hundredth : Double.double := Double.ratio 1 100.

(** * Properties *)

(** ** Numbers and strings *)

Lemma Qltb_true x y : Qltb x y = true ↔ (x < y)%Q.
Proof.
  unfold Qltb. rewrite negb_true_iff, <- not_true_iff_false, Qle_bool_iff.
  split; [apply Qnot_le_lt | apply Qlt_not_le].
Qed.

Lemma Qltb_false x y : Qltb x y = false ↔ (y <= x)%Q.
Proof.
  unfold Qltb. rewrite negb_false_iff, Qle_bool_iff. reflexivity.
Qed.

Lemma Qeq_bool_false x y : Qeq_bool x y = false ↔ ¬ (x == y)%Q.
Proof.
  rewrite <- not_true_iff_false, Qeq_bool_iff. reflexivity.
Qed.

Lemma append_assoc (a b c : string) : (a +:+ b) +:+ c = a +:+ (b +:+ c).
Proof.
  induction a as [|ch a IH]; [reflexivity |].
  change (String ch ((a +:+ b) +:+ c) = String ch (a +:+ (b +:+ c))).
  f_equal. exact IH.
Qed.

Lemma append_empty_r (a : string) : a +:+ "" = a.
Proof.
  induction a as [|ch a IH]; [reflexivity |].
  change (String ch (a +:+ "") = String ch a). f_equal. exact IH.
Qed.

Lemma concat_cons_empty (x : string) (l : list string) :
  String.concat "" (x :: l) = x +:+ String.concat "" l.
Proof.
  destruct l as [|y l]; simpl; [now rewrite append_empty_r | reflexivity].
Qed.

(** ** The sequencer prompt *)

Lemma hasNotes_In (track : list Z) : hasNotes track = true ↔ In 1%Z track.
Proof.
  unfold hasNotes. rewrite existsb_exists. split.
  - intros (x & Hx & Heq). apply Z.eqb_eq in Heq. now subst.
  - intros H. exists 1%Z. split; [assumption | reflexivity].
Qed.

Lemma activeTracksFrom_cons start track grid :
  activeTracksFrom start (track :: grid) =
  (if hasNotes track then [start] else []) ++ activeTracksFrom (S start) grid.
Proof.
  unfold activeTracksFrom.
  change (seq start (length (track :: grid)))
    with (start :: seq (S start) (length grid)).
  rewrite (filter_ext_in
    (λ i, hasNotes (nth (i - start) (track :: grid) []))
    (λ i, if Nat.eqb i start then hasNotes track
          else hasNotes (nth (i - S start) grid []))).
  - cbn [List.filter]. rewrite Nat.eqb_refl.
    rewrite (filter_ext_in
      (λ i, if Nat.eqb i start then hasNotes track
            else hasNotes (nth (i - S start) grid []))
      (λ i, hasNotes (nth (i - S start) grid []))
      (seq (S start) (length grid))).
    + destruct (hasNotes track); reflexivity.
    + intros i Hi. apply in_seq in Hi.
      destruct (Nat.eqb_spec i start); [lia | reflexivity].
  - intros i [<- | Hi].
    + now rewrite Nat.eqb_refl, Nat.sub_diag.
    + apply in_seq in Hi. destruct (Nat.eqb_spec i start); [lia |].
      replace (i - start)%nat with (S (i - S start)) by lia. reflexivity.
Qed.

(** The loop of [generateSequencerPrompt] appends the clauses of the active
    tracks and counts them. *)
Lemma sequencer_forEach_spec grid start description activeInstruments :
  sequencer_forEach grid start (description, activeInstruments) =
  (description +:+ clauses (activeTracksFrom start grid),
   (activeInstruments + length (activeTracksFrom start grid))%nat).
Proof.
  revert start description activeInstruments.
  induction grid as [|track grid IH]; intros start description n.
  - cbn. now rewrite append_empty_r, Nat.add_0_r.
  - cbn [sequencer_forEach]. rewrite activeTracksFrom_cons.
    unfold sequencer_visit. destruct (hasNotes track); cbn [fst snd].
    + rewrite IH. cbn [app length]. unfold clauses. cbn [map].
      rewrite concat_cons_empty, append_assoc. f_equal. lia.
    + rewrite IH. reflexivity.
Qed.

Lemma activeTracksFrom_nil_iff start grid :
  activeTracksFrom start grid = [] ↔ ¬ ∃ track, In track grid ∧ In 1%Z track.
Proof.
  revert start. induction grid as [|track grid IH]; intros start.
  - split; [intros _ (t & [] & _) | reflexivity].
  - rewrite activeTracksFrom_cons. split.
    + intros H (t & [<- | Hin] & H1).
      * apply hasNotes_In in H1. rewrite H1 in H. discriminate.
      * apply app_eq_nil in H as [_ H]. apply IH in H. apply H. eauto.
    + intros H. destruct (hasNotes track) eqn:Hn.
      * exfalso. apply H. exists track. split; [now left |].
        now apply hasNotes_In.
      * cbn. apply IH. intros (t & Hin & H1). apply H.
        exists t. split; [now right | assumption].
Qed.

Lemma activeTracksFrom_cons_exists start grid i l :
  activeTracksFrom start grid = i :: l → ∃ track, In track grid ∧ In 1%Z track.
Proof.
  intros Heq. revert start Heq.
  induction grid as [|track grid IH]; intros start Heq; [discriminate |].
  rewrite activeTracksFrom_cons in Heq.
  destruct (hasNotes track) eqn:Hn.
  - exists track. split; [now left | now apply hasNotes_In].
  - destruct (IH _ Heq) as (t & Hin & H1).
    exists t. split; [now right | assumption].
Qed.

Lemma generateSequencerPrompt_spec grid w :
  generateSequencerPrompt grid w =
  if Qeq_bool w 0 then ""
  else match activeTracks grid with
       | [] => ""
       | _ => preamble +:+ clauses (activeTracks grid)
       end.
Proof.
  unfold generateSequencerPrompt, activeTracks.
  destruct (Qeq_bool w 0); [reflexivity |].
  rewrite sequencer_forEach_spec. cbn [Nat.add].
  destruct (activeTracksFrom 0 grid); reflexivity.
Qed.

(** The sequencer prompt is pushed exactly when the weight is positive and
    some track has an active step. *)
Lemma sequencer_pushed_iff grid w :
  truthy (generateSequencerPrompt grid w) && Qltb 0 w = true ↔
  (0 < w)%Q ∧ ∃ track, In track grid ∧ In 1%Z track.
Proof.
  rewrite andb_true_iff, Qltb_true, generateSequencerPrompt_spec.
  split.
  - intros [Ht Hw]. split; [assumption |].
    destruct (Qeq_bool w 0); [discriminate |].
    destruct (activeTracks grid) eqn:Ha; [discriminate |].
    unfold activeTracks in Ha. eapply activeTracksFrom_cons_exists, Ha.
  - intros [Hw Hex]. split; [| assumption].
    destruct (Qeq_bool w 0) eqn:Hz.
    { apply Qeq_bool_iff in Hz. rewrite Hz in Hw.
      exfalso. revert Hw. apply Qlt_irrefl. }
    destruct (activeTracks grid) eqn:Ha; [| reflexivity].
    exfalso. unfold activeTracks in Ha.
    apply activeTracksFrom_nil_iff in Ha. now apply Ha.
Qed.

(** ** The payload *)

Lemma toSend_In (ps : PromptMap) (F : gset string) (p : Prompt) :
  In p (List.filter
          (λ p, negb (bool_decide (text p ∈ F))
                && negb (Qeq_bool (weight p) 0))
          (map_values ps)) ↔
  In p (map_values ps) ∧ ¬ (weight p == 0)%Q ∧ text p ∉ F.
Proof.
  rewrite filter_In, andb_true_iff, !negb_true_iff, Qeq_bool_false.
  rewrite bool_decide_eq_false. tauto.
Qed.

(** C7. The payload holds exactly the prompts of the map whose weight is
    not zero and whose text is not in the filtered set; a prompt of the map
    with weight 0 or with a filtered text is never in it. The prompts of
    the map are told apart from the synthetic one by their id. *)
Theorem promptsToSend_user_prompts (ps : PromptMap) (F : gset string)
  (grid : list (list Z)) (w : Q) (p : Prompt) :
  promptId p ≠ "prompt-sequencer" →
  In p (promptsToSend ps F grid w) ↔
  In p (map_values ps) ∧ ¬ (weight p == 0)%Q ∧ text p ∉ F.
Proof.
  intros Hid. unfold promptsToSend.
  destruct (truthy (generateSequencerPrompt grid w) && Qltb 0 w).
  - rewrite in_app_iff, toSend_In. split; [| tauto].
    intros [H | [<- | []]]; [assumption |].
    exfalso. apply Hid. reflexivity.
  - apply toSend_In.
Qed.

(** C8. The synthetic prompt [prompt-sequencer] is in the payload exactly
    when the sequencer weight is positive and some track has a step set to
    1; it then carries the sequencer weight, and its text is the preamble
    followed by one clause for each track with such a step, in track
    order; there is at most one such prompt. *)
Theorem sequencer_prompt_in_payload (ps : PromptMap) (F : gset string)
  (grid : list (list Z)) (w : Q) :
  (∀ p, In p (map_values ps) → promptId p ≠ "prompt-sequencer") →
  let payload := promptsToSend ps F grid w in
  ((∃ p, In p payload ∧ promptId p = "prompt-sequencer") ↔
     (0 < w)%Q ∧ ∃ track, In track grid ∧ In 1%Z track) ∧
  (∀ p, In p payload → promptId p = "prompt-sequencer" →
     weight p = w ∧ text p = preamble +:+ clauses (activeTracks grid)) ∧
  (length (List.filter isSequencerPrompt payload) ≤ 1)%nat.
Proof.
  intros Hids payload. subst payload. unfold promptsToSend.
  set (toSend := List.filter _ (map_values ps)).
  assert (Huser : ∀ p, In p toSend → promptId p ≠ "prompt-sequencer").
  { intros p Hp. apply Hids. apply toSend_In in Hp. tauto. }
  assert (Hnone : List.filter isSequencerPrompt toSend = []).
  { clearbody toSend. induction toSend as [|q l IH]; [reflexivity |].
    cbn [List.filter]. unfold isSequencerPrompt at 1.
    destruct (String.eqb_spec (promptId q) "prompt-sequencer") as [Heq | _].
    - exfalso. apply (Huser q); [now left | assumption].
    - apply IH. intros p Hp. apply Huser. now right. }
  pose proof (sequencer_pushed_iff grid w) as Hiff.
  destruct (truthy (generateSequencerPrompt grid w) && Qltb 0 w) eqn:Hc.
  - split; [| split].
    + split; [intros _; now apply Hiff |].
      intros _. eexists. split; [apply in_app_iff; right; now left |].
      reflexivity.
    + intros p Hp Hid. apply in_app_iff in Hp as [Hp | [<- | []]].
      { exfalso. now apply (Huser p). }
      split; [reflexivity |]. cbn [text sequencerPrompt].
      apply andb_true_iff in Hc as [Ht _].
      rewrite generateSequencerPrompt_spec in Ht |- *.
      destruct (Qeq_bool w 0); [discriminate |].
      destruct (activeTracks grid); [discriminate | reflexivity].
    + rewrite List.filter_app, Hnone. cbn. lia.
  - split; [| split].
    + split.
      * intros (p & Hp & Hid). exfalso. now apply (Huser p).
      * intros H. apply Hiff in H. discriminate.
    + intros p Hp Hid. exfalso. now apply (Huser p).
    + rewrite Hnone. cbn. lia.
Qed.

(** ** The throttle *)

Section throttle_facts.
Context {Args World : Type}.
Variable func : Args → World → World.
Variable delay : Z.

Lemma throttle_fires now args lastCall w :
  (delay ≤ now - lastCall)%Z →
  throttle func delay now args (lastCall, w) = (now, func args w).
Proof.
  intros H. unfold throttle. apply Z.leb_le in H. now rewrite H.
Qed.

Lemma throttle_suppressed now args lastCall w :
  (now - lastCall < delay)%Z →
  throttle func delay now args (lastCall, w) = (lastCall, w).
Proof.
  intros H. unfold throttle. apply Z.leb_gt in H. now rewrite H.
Qed.

(** Calls made less than [delay] after the last call that fired change
    nothing. *)
Lemma throttle_calls_suppressed calls lastCall w :
  (∀ c, In c calls → (fst c - lastCall < delay)%Z) →
  throttle_calls func delay calls (lastCall, w) = (lastCall, w).
Proof.
  induction calls as [|c calls IH]; intros H; [reflexivity |].
  unfold throttle_calls. cbn [fold_left].
  rewrite throttle_suppressed by (apply H; now left).
  apply IH. intros c' Hc'. apply H. now right.
Qed.
End throttle_facts.

(** A burst of invocations whose first call comes at least [delay] after
    the last call that fired, and whose other calls come less than [delay]
    after the first: the wrapped function runs exactly once, at the first
    call and with the arguments of the first call. *)
Lemma throttle_calls_burst {Args World : Type}
  (func : Args → World → World) (delay lastCall t1 : Z) (a1 : Args)
  (rest : list (Z * Args)) (w : World) :
  (delay ≤ t1 - lastCall)%Z →
  (∀ c, In c rest → (fst c - t1 < delay)%Z) →
  throttle_calls func delay ((t1, a1) :: rest) (lastCall, w) =
  (t1, func a1 w).
Proof.
  intros Hquiet Hburst. unfold throttle_calls. cbn [fold_left fst snd].
  rewrite throttle_fires by assumption.
  now apply throttle_calls_suppressed.
Qed.

(** ** The effect log *)

Lemma scheduled_app l1 l2 : scheduled (l1 ++ l2) = scheduled l1 ++ scheduled l2.
Proof. apply flat_map_app. Qed.

Lemma sent_app l1 l2 : sent (l1 ++ l2) = sent l1 ++ sent l2.
Proof. apply flat_map_app. Qed.

Lemma decoded_app l1 l2 : decoded (l1 ++ l2) = decoded l1 ++ decoded l2.
Proof. apply flat_map_app. Qed.

Lemma added_app s s' new : effects s' = effects s ++ new → added s s' = new.
Proof. intros H. unfold added. rewrite H. apply drop_app_length. Qed.

(** ** The message handler *)

Ltac unfold_M :=
  cbv beta iota zeta delta
    [exec mbind M_bind mret M_ret gets modify emit stop when fst snd].

Section audio_facts.
Variable decodeAudioData : string → option AudioBuffer.

#[local] Abbreviation onmessage := (onmessage decodeAudioData).
#[local] Abbreviation onAudioChunks := (onAudioChunks decodeAudioData).

Lemma onmessage_unfold e now s :
  exec (onmessage e now) s =
  match message_audioChunks e with
  | Some chunks => exec (onAudioChunks chunks now) (afterPreamble e s)
  | None => afterPreamble e s
  end.
Proof.
  unfold onmessage, afterPreamble. unfold_M.
  destruct (setupComplete e), (filteredPrompt e), (message_audioChunks e);
    reflexivity.
Qed.

Lemma afterPreamble_playbackState e s :
  playbackState (afterPreamble e s) = playbackState s.
Proof.
  unfold afterPreamble. destruct (setupComplete e), (filteredPrompt e);
    reflexivity.
Qed.

Lemma afterPreamble_nextStartTime e s :
  nextStartTime (afterPreamble e s) = nextStartTime s.
Proof.
  unfold afterPreamble. destruct (setupComplete e), (filteredPrompt e);
    reflexivity.
Qed.

Lemma afterPreamble_effects e s :
  effects (afterPreamble e s) = effects s ++ filteredToast e.
Proof.
  unfold afterPreamble, filteredToast.
  destruct (setupComplete e), (filteredPrompt e); cbn;
    now rewrite ?app_nil_r.
Qed.

(** A chunk that arrives while stopped or paused leaves the state as it
    is. *)
Lemma onAudioChunks_discarded chunks now s :
  playbackState s = stopped ∨ playbackState s = paused →
  exec (onAudioChunks chunks now) s = s.
Proof.
  unfold onAudioChunks. unfold_M. intros [H | H]; rewrite H; reflexivity.
Qed.

(** An anchored cursor that is behind the clock: the chunk is dropped. *)
Lemma onAudioChunks_underrun chunk rest audioBuffer now s :
  playbackState s = loading ∨ playbackState s = playing →
  decodeAudioData (data chunk) = Some audioBuffer →
  ¬ (nextStartTime s == 0)%Q →
  (nextStartTime s < now)%Q →
  exec (onAudioChunks (chunk :: rest) now) s =
  set_nextStartTime 0
    (set_playbackState loading
       (set_effects
          (effects s ++ [DecodeAudioData (data chunk);
                         SourceConnect audioBuffer (outputNode s)]) s)).
Proof.
  intros Hst Hdec Hnz Hlt.
  apply Qeq_bool_false in Hnz. apply Qltb_true in Hlt.
  unfold onAudioChunks. unfold_M.
  destruct Hst as [Hst | Hst]; rewrite Hst, Hdec; unfold_M; cbn;
    rewrite Hnz; unfold_M; cbn; rewrite Hlt; unfold_M; cbn;
    rewrite <- app_assoc; reflexivity.
Qed.

(** An anchored cursor that is not behind the clock: the buffer starts at
    the cursor and the cursor advances by its duration. *)
Lemma onAudioChunks_schedules chunk rest audioBuffer now s :
  playbackState s = loading ∨ playbackState s = playing →
  decodeAudioData (data chunk) = Some audioBuffer →
  ¬ (nextStartTime s == 0)%Q →
  (now <= nextStartTime s)%Q →
  exec (onAudioChunks (chunk :: rest) now) s =
  set_nextStartTime (nextStartTime s + duration audioBuffer)
    (set_effects
       (effects s ++ [DecodeAudioData (data chunk);
                      SourceConnect audioBuffer (outputNode s);
                      SourceStart audioBuffer (nextStartTime s)]) s).
Proof.
  intros Hst Hdec Hnz Hle.
  apply Qeq_bool_false in Hnz. apply Qltb_false in Hle.
  unfold onAudioChunks. unfold_M.
  destruct Hst as [Hst | Hst]; rewrite Hst, Hdec; unfold_M; cbn;
    rewrite Hnz; unfold_M; cbn; rewrite Hle; unfold_M; cbn;
    rewrite <- !app_assoc; reflexivity.
Qed.

(** A cursor at 0: it is anchored [bufferTime] ahead of the clock, the
    timer towards [playing] is set, and the buffer starts at the anchor. *)
Lemma onAudioChunks_anchors chunk rest audioBuffer now s :
  playbackState s = loading ∨ playbackState s = playing →
  decodeAudioData (data chunk) = Some audioBuffer →
  (nextStartTime s == 0)%Q →
  exec (onAudioChunks (chunk :: rest) now) s =
  set_nextStartTime (now + bufferTime + duration audioBuffer)
    (set_effects
       (effects s ++ [DecodeAudioData (data chunk);
                      SourceConnect audioBuffer (outputNode s);
                      SetTimeout (bufferTime * 1000);
                      SourceStart audioBuffer (now + bufferTime)])
       (set_pendingTimers (S (pendingTimers s)) s)).
Proof.
  intros Hst Hdec Hz.
  apply Qeq_bool_iff in Hz.
  assert (Hle : Qltb (now + bufferTime) now = false).
  { apply Qltb_false. unfold bufferTime. lra. }
  unfold onAudioChunks. unfold_M.
  destruct Hst as [Hst | Hst]; rewrite Hst, Hdec; unfold_M; cbn;
    rewrite Hz; unfold_M; cbn; rewrite Hle; unfold_M; cbn;
    rewrite <- !app_assoc; reflexivity.
Qed.

(** Whatever happens to a list of chunks, the only bytes decoded are those
    of its first chunk and at most one buffer is started. *)
Lemma onAudioChunks_effects chunk rest now s :
  ∃ new,
    effects (exec (onAudioChunks (chunk :: rest) now) s) = effects s ++ new ∧
    (∀ bytes, In (DecodeAudioData bytes) new → bytes = data chunk) ∧
    (length (scheduled new) ≤ 1)%nat.
Proof.
  unfold onAudioChunks. unfold_M.
  destruct (playbackState s).
  1, 4: exists []; cbn; rewrite app_nil_r; repeat split;
        [intros ? [] | lia].
  all: destruct (decodeAudioData (data chunk)) as [audioBuffer|];
       unfold_M; cbn.
  2, 4: eexists; split; [reflexivity |]; split; [| cbn; lia];
        intros bytes [H | []]; now inversion H.
  all: destruct (Qeq_bool (nextStartTime s) 0); unfold_M; cbn.
  all: match goal with
       | |- context [Qltb ?a ?b] => destruct (Qltb a b)
       end; unfold_M; cbn.
  all: rewrite <- ?app_assoc; eexists; split; [reflexivity |].
  all: split; [| cbn; lia].
  all: intros bytes Hb; cbn in Hb;
       repeat (destruct Hb as [Hb | Hb]; [try discriminate |]);
       try contradiction; now inversion Hb.
Qed.

(** C3. A message with audio chunks that arrives while the playback state
    is [stopped] or [paused]: nothing is decoded, connected, started or
    timed, and the cursor and the playback state stay as they are. The
    only effect the message can have is the toast of its [filteredPrompt]
    part. *)
Theorem chunks_discarded_when_not_playing (e : LiveMusicServerMessage)
  (chunks : list AudioChunk) (now : Q) (s : PromptDj) :
  message_audioChunks e = Some chunks →
  playbackState s = stopped ∨ playbackState s = paused →
  let s' := exec (onmessage e now) s in
  nextStartTime s' = nextStartTime s ∧
  playbackState s' = playbackState s ∧
  pendingTimers s' = pendingTimers s ∧
  added s s' = filteredToast e.
Proof.
  intros Hchunks Hst s'. subst s'.
  rewrite onmessage_unfold, Hchunks.
  rewrite onAudioChunks_discarded
    by (now rewrite afterPreamble_playbackState).
  rewrite afterPreamble_nextStartTime, afterPreamble_playbackState.
  repeat split.
  - unfold afterPreamble.
    destruct (setupComplete e), (filteredPrompt e); reflexivity.
  - apply added_app, afterPreamble_effects.
Qed.

(** C1. A message whose first chunk decodes, handled while the cursor is
    not 0 and is behind the audio clock: the playback state becomes
    [loading], the cursor becomes 0, and no buffer is started. The state
    is one in which the cursor is at 0 whenever the component is stopped or
    paused, as is every state the component reaches
    ([run_cursorClear]). *)
Theorem underrun_drops_chunk (e : LiveMusicServerMessage)
  (chunk : AudioChunk) (rest : list AudioChunk) (audioBuffer : AudioBuffer)
  (now : Q) (s : PromptDj) :
  cursorClear s →
  message_audioChunks e = Some (chunk :: rest) →
  decodeAudioData (data chunk) = Some audioBuffer →
  ¬ (nextStartTime s == 0)%Q →
  (nextStartTime s < now)%Q →
  let s' := exec (onmessage e now) s in
  playbackState s' = loading ∧
  nextStartTime s' = 0%Q ∧
  scheduled (added s s') = [].
Proof.
  intros Hclear Hchunks Hdec Hnz Hlt s'. subst s'.
  assert (Hst : playbackState s = loading ∨ playbackState s = playing).
  { destruct (playbackState s) eqn:Hs; [| now right | now left |];
      exfalso; apply Hnz; rewrite Hclear by tauto; reflexivity. }
  rewrite onmessage_unfold, Hchunks.
  rewrite (onAudioChunks_underrun chunk rest audioBuffer)
    by (rewrite ?afterPreamble_playbackState, ?afterPreamble_nextStartTime;
        assumption).
  repeat split.
  erewrite added_app.
  2:{ cbn [effects set_nextStartTime set_playbackState set_effects].
      rewrite afterPreamble_effects, <- app_assoc. reflexivity. }
  rewrite scheduled_app. unfold filteredToast.
  destruct (filteredPrompt e); reflexivity.
Qed.

(** While loading or playing, the bytes of the first chunk are handed to
    the decoder, and no others; when they decode and the cursor is not
    behind the clock, the buffer is started, at the cursor or, from a
    cursor at 0, [bufferTime] ahead of the clock. *)
Lemma onAudioChunks_first chunk rest now s :
  playbackState s = loading ∨ playbackState s = playing →
  let s' := exec (onAudioChunks (chunk :: rest) now) s in
  decoded (added s s') = [data chunk] ∧
  ∀ audioBuffer,
    decodeAudioData (data chunk) = Some audioBuffer →
    let start :=
      if Qeq_bool (nextStartTime s) 0 then (now + bufferTime)%Q
      else nextStartTime s in
    (now <= start)%Q →
    scheduled (added s s') = [(audioBuffer, start)].
Proof.
  intros Hst s'. subst s'.
  unfold onAudioChunks. unfold_M.
  assert (Hadd : ∀ s1 new, effects s1 = effects s ++ new → added s s1 = new).
  { intros s1 new. apply added_app. }
  destruct Hst as [Hst | Hst]; rewrite Hst;
    destruct (decodeAudioData (data chunk)) as [audioBuffer|]; unfold_M; cbn.
  all: try (split; [erewrite Hadd by reflexivity; reflexivity |];
            intros ? [=]).
  all: destruct (Qeq_bool (nextStartTime s) 0) eqn:Hz; unfold_M; cbn.
  all: match goal with
       | |- context [Qltb ?a ?b] => destruct (Qltb a b) eqn:Hlt
       end; unfold_M; cbn.
  all: rewrite <- ?app_assoc.
  all: split; [erewrite Hadd by reflexivity; reflexivity |].
  all: intros b [= <-] Hle.
  all: try (apply Qltb_true in Hlt; exfalso; revert Hlt;
            apply Qle_not_lt; exact Hle).
  all: erewrite Hadd by reflexivity; reflexivity.
Qed.

(** C10. Of a message with several audio chunks only the first is used.
    The handler leaves the same state as for the message cut down to its
    first chunk, the only bytes decoded are those of the first chunk, and
    at most one buffer is started. While the component is loading or
    playing the first chunk is decoded, and when it decodes and the
    cursor is not behind the clock its buffer is the one buffer started:
    at the cursor, or [bufferTime] ahead of the clock from a cursor
    at 0. *)
Theorem only_first_chunk_used (setup : bool) (fp : option FilteredPrompt)
  (chunk second : AudioChunk) (rest : list AudioChunk) (now : Q)
  (s : PromptDj) :
  let message chunks :=
    {| setupComplete := setup; filteredPrompt := fp;
       serverContent := Some {| audioChunks := Some chunks |} |} in
  let s' := exec (onmessage (message (chunk :: second :: rest)) now) s in
  s' = exec (onmessage (message [chunk]) now) s ∧
  (∀ bytes, In (DecodeAudioData bytes) (added s s') → bytes = data chunk) ∧
  (length (scheduled (added s s')) ≤ 1)%nat ∧
  (playbackState s = loading ∨ playbackState s = playing →
   decoded (added s s') = [data chunk] ∧
   ∀ audioBuffer,
     decodeAudioData (data chunk) = Some audioBuffer →
     let start :=
       if Qeq_bool (nextStartTime s) 0 then (now + bufferTime)%Q
       else nextStartTime s in
     (now <= start)%Q →
     scheduled (added s s') = [(audioBuffer, start)]).
Proof.
  intros message s'. subst s'.
  rewrite !onmessage_unfold.
  change (message_audioChunks (message (chunk :: second :: rest)))
    with (Some (chunk :: second :: rest)).
  change (message_audioChunks (message [chunk])) with (Some [chunk]).
  set (e := message (chunk :: second :: rest)).
  change (afterPreamble (message [chunk]) s) with (afterPreamble e s).
  pose proof (afterPreamble_effects e s) as Heff.
  pose proof (afterPreamble_playbackState e s) as Hstate.
  pose proof (afterPreamble_nextStartTime e s) as Hcursor.
  assert (Htoast : ∀ bytes, ¬ In (DecodeAudioData bytes) (filteredToast e)).
  { intros bytes. unfold filteredToast.
    destruct (filteredPrompt e); [intros [H | []]; discriminate | intros []]. }
  assert (Hsched : scheduled (filteredToast e) = []).
  { unfold filteredToast. destruct (filteredPrompt e); reflexivity. }
  assert (Hdecoded : decoded (filteredToast e) = []).
  { unfold filteredToast. destruct (filteredPrompt e); reflexivity. }
  generalize dependent (afterPreamble e s). intros s1 Heff Hstate Hcursor.
  split; [reflexivity |].
  destruct (onAudioChunks_effects chunk (second :: rest) now s1)
    as (new & Hnew & Hdec & Hlen).
  assert (Hadded : added s (exec (onAudioChunks (chunk :: second :: rest) now)
                              s1) = filteredToast e ++ new).
  { apply added_app. rewrite Hnew, Heff, <- app_assoc. reflexivity. }
  assert (Hnew' : added s1 (exec (onAudioChunks (chunk :: second :: rest) now)
                              s1) = new).
  { apply added_app, Hnew. }
  rewrite Hadded, scheduled_app, decoded_app, Hsched, Hdecoded.
  cbn [app]. split; [| split; [exact Hlen |]].
  - intros bytes Hb. apply in_app_iff in Hb as [Hb | Hb].
    + now apply Htoast in Hb.
    + now apply Hdec.
  - intros Hst. rewrite <- Hstate in Hst. rewrite <- Hcursor.
    destruct (onAudioChunks_first chunk (second :: rest) now s1 Hst)
      as [Hfirst Hstart].
    rewrite Hnew' in Hfirst, Hstart. split; [exact Hfirst | exact Hstart].
Qed.

(** *** Back-to-back scheduling *)

Lemma totalDuration_cons b buffers :
  totalDuration (b :: buffers) = (duration b + totalDuration buffers)%Q.
Proof. reflexivity. Qed.

Lemma backToBack_lower_bound buffers t i b ti :
  Forall (λ b, 0 <= duration b)%Q buffers →
  backToBack t buffers !! i = Some (b, ti) →
  (t <= ti)%Q.
Proof.
  intros Hpos. revert t i. induction Hpos as [|b0 buffers Hb0 _ IH];
    intros t i Hi; [discriminate |].
  destruct i as [|i]; cbn in Hi.
  - injection Hi as _ <-. lra.
  - apply IH in Hi. lra.
Qed.

(** Buffers started back to back do not overlap: an earlier one has ended
    when a later one starts. *)
Lemma backToBack_no_overlap buffers t i j bi ti bj tj :
  Forall (λ b, 0 <= duration b)%Q buffers →
  (i < j)%nat →
  backToBack t buffers !! i = Some (bi, ti) →
  backToBack t buffers !! j = Some (bj, tj) →
  (ti + duration bi <= tj)%Q.
Proof.
  intros Hpos. revert t i j. induction Hpos as [|b0 buffers Hb0 Hpos IH];
    intros t i j Hij Hi Hj; [discriminate |].
  destruct j as [|j]; [lia |]. cbn in Hj.
  destruct i as [|i]; cbn in Hi.
  - injection Hi as <- <-.
    eapply backToBack_lower_bound; eassumption.
  - eapply IH; [| eassumption | eassumption]. lia.
Qed.

Lemma step_audio_in_time (a : Arrival) s :
  playbackState s = loading ∨ playbackState s = playing →
  wellFormed decodeAudioData a →
  (0 < nextStartTime s)%Q →
  (arrivalClock a <= nextStartTime s)%Q →
  let s' :=
    step decodeAudioData s (ServerMessage (arrivalMessage a) (arrivalClock a))
  in
  playbackState s' = playbackState s ∧
  nextStartTime s' = (nextStartTime s + duration (arrivalBuffer a))%Q ∧
  ∃ new, effects s' = effects s ++ new ∧
         scheduled new = [(arrivalBuffer a, nextStartTime s)].
Proof.
  intros Hst [(chunk & rest & Hchunks & Hdec) Hdur] Hpos Hle s'. subst s'.
  unfold step. cbn [handle]. rewrite onmessage_unfold, Hchunks.
  rewrite (onAudioChunks_schedules chunk rest (arrivalBuffer a)).
  - cbn [playbackState nextStartTime effects set_nextStartTime set_effects].
    rewrite afterPreamble_playbackState, afterPreamble_nextStartTime,
      afterPreamble_effects.
    repeat split. eexists. split; [now rewrite <- app_assoc |].
    rewrite scheduled_app. unfold filteredToast.
    destruct (filteredPrompt (arrivalMessage a)); reflexivity.
  - now rewrite afterPreamble_playbackState.
  - assumption.
  - rewrite afterPreamble_nextStartTime. lra.
  - now rewrite afterPreamble_nextStartTime.
Qed.

(** From an anchored cursor, messages that all arrive in time are
    scheduled back to back. *)
Lemma run_back_to_back (arrivals : list Arrival) s :
  playbackState s = loading ∨ playbackState s = playing →
  (0 < nextStartTime s)%Q →
  Forall (wellFormed decodeAudioData) arrivals →
  inTime (nextStartTime s)
    (map (λ a, (arrivalClock a, arrivalBuffer a)) arrivals) →
  let s' := run decodeAudioData s (deliveries arrivals) in
  (playbackState s' = loading ∨ playbackState s' = playing) ∧
  (nextStartTime s' ==
     nextStartTime s + totalDuration (map arrivalBuffer arrivals))%Q ∧
  ∃ new, effects s' = effects s ++ new ∧
         scheduled new =
           backToBack (nextStartTime s) (map arrivalBuffer arrivals).
Proof.
  intros Hst Hpos Hwf. revert s Hst Hpos.
  induction Hwf as [|a arrivals Ha Hwf IH]; intros s Hst Hpos Htime s'.
  - subst s'. cbn. split; [assumption |]. split; [lra |].
    exists []. now rewrite app_nil_r.
  - cbn [map inTime] in Htime. destruct Htime as [Hle Htime].
    destruct (step_audio_in_time a s Hst Ha Hpos Hle)
      as (Hst1 & Hnext1 & new1 & Heff1 & Hsched1).
    set (s1 := step decodeAudioData s
                 (ServerMessage (arrivalMessage a) (arrivalClock a))) in *.
    assert (Hdur : (0 <= duration (arrivalBuffer a))%Q) by apply Ha.
    destruct (IH s1) as (Hst' & Hnext' & new & Heff & Hsched).
    + now rewrite Hst1.
    + rewrite Hnext1. lra.
    + now rewrite Hnext1.
    + subst s'. change (run decodeAudioData s (deliveries (a :: arrivals)))
        with (run decodeAudioData s1 (deliveries arrivals)).
      split; [assumption |]. split.
      * rewrite Hnext', Hnext1. cbn [map]. rewrite totalDuration_cons. lra.
      * exists (new1 ++ new). split.
        { now rewrite Heff, Heff1, app_assoc. }
        rewrite scheduled_app, Hsched1, Hsched, Hnext1. reflexivity.
Qed.

(** With seconds as rationals, where no sum is rounded: messages handled
    in state [loading] or [playing] from a cursor at 0, the first at a
    clock time that is not negative, the others never finding the cursor
    behind the clock: the first buffer starts at the anchor (clock plus
    [bufferTime]), each later buffer starts where the one before it ends,
    the cursor ends at the anchor plus the sum of the durations, and no
    two scheduled intervals overlap. *)
Lemma gapless_schedule (first : Arrival) (others : list Arrival)
  (s : PromptDj) :
  playbackState s = loading ∨ playbackState s = playing →
  (nextStartTime s == 0)%Q →
  (0 <= arrivalClock first)%Q →
  Forall (wellFormed decodeAudioData) (first :: others) →
  let anchor := (arrivalClock first + bufferTime)%Q in
  inTime (anchor + duration (arrivalBuffer first))
    (map (λ a, (arrivalClock a, arrivalBuffer a)) others) →
  let buffers := map arrivalBuffer (first :: others) in
  let s' := run decodeAudioData s (deliveries (first :: others)) in
  scheduled (added s s') = backToBack anchor buffers ∧
  (nextStartTime s' - anchor == totalDuration buffers)%Q ∧
  (∀ i j bi ti bj tj,
     (i < j)%nat →
     scheduled (added s s') !! i = Some (bi, ti) →
     scheduled (added s s') !! j = Some (bj, tj) →
     (ti + duration bi <= tj)%Q).
Proof.
  intros Hst Hzero Hclock Hwf anchor Htime buffers s'.
  assert (Hdurs : Forall (λ b, 0 <= duration b)%Q buffers).
  { subst buffers. apply List.Forall_forall. intros b Hb.
    apply in_map_iff in Hb as (a & <- & Ha).
    eapply List.Forall_forall in Hwf; [apply Hwf | exact Ha]. }
  inversion Hwf as [|? ? Hfirst Hothers]; subst.
  destruct Hfirst as [(chunk & rest & Hchunks & Hdec) Hdur].
  set (s1 := step decodeAudioData s
               (ServerMessage (arrivalMessage first) (arrivalClock first))).
  assert (Hs1 : s1 =
    set_nextStartTime (anchor + duration (arrivalBuffer first))
      (set_effects
         (effects (afterPreamble (arrivalMessage first) s) ++
            [DecodeAudioData (data chunk);
             SourceConnect (arrivalBuffer first)
               (outputNode (afterPreamble (arrivalMessage first) s));
             SetTimeout (bufferTime * 1000);
             SourceStart (arrivalBuffer first) anchor])
         (set_pendingTimers
            (S (pendingTimers (afterPreamble (arrivalMessage first) s)))
            (afterPreamble (arrivalMessage first) s)))).
  { subst s1. unfold step. cbn [handle].
    rewrite onmessage_unfold, Hchunks.
    apply onAudioChunks_anchors.
    - now rewrite afterPreamble_playbackState.
    - assumption.
    - now rewrite afterPreamble_nextStartTime. }
  assert (Hst1 : playbackState s1 = loading ∨ playbackState s1 = playing).
  { rewrite Hs1. cbn. now rewrite afterPreamble_playbackState. }
  assert (Hnext1 : nextStartTime s1 =
                   (anchor + duration (arrivalBuffer first))%Q).
  { rewrite Hs1. reflexivity. }
  assert (Heff1 : ∃ new1, effects s1 = effects s ++ new1 ∧
                          scheduled new1 = [(arrivalBuffer first, anchor)]).
  { rewrite Hs1. cbn [effects set_nextStartTime set_effects].
    rewrite afterPreamble_effects. eexists.
    split; [now rewrite <- app_assoc |].
    rewrite scheduled_app. unfold filteredToast.
    destruct (filteredPrompt (arrivalMessage first)); reflexivity. }
  destruct Heff1 as (new1 & Heff1 & Hsched1).
  assert (Hanchor : (0 < anchor)%Q) by (subst anchor; unfold bufferTime; lra).
  destruct (run_back_to_back others s1) as (_ & Hnext & new & Heff & Hsched).
  - assumption.
  - rewrite Hnext1. lra.
  - assumption.
  - now rewrite Hnext1.
  - change s' with (run decodeAudioData s1 (deliveries others)).
    assert (Hall : scheduled
                     (added s (run decodeAudioData s1 (deliveries others))) =
                   backToBack anchor buffers).
    { erewrite added_app
        by (rewrite Heff, Heff1, <- app_assoc; reflexivity).
      rewrite scheduled_app, Hsched1, Hsched, Hnext1. reflexivity. }
    rewrite Hall. split; [reflexivity |]. split.
    + rewrite Hnext, Hnext1. subst buffers. cbn [map].
      rewrite totalDuration_cons. lra.
    + intros i j bi ti bj tj. now apply backToBack_no_overlap.
Qed.
End audio_facts.

(** ** The scheduling cursor on doubles *)

Section scheduling_facts.
Context {num : Type}.
Variable add : num → num → num.
Variable ltb eqb : num → num → bool.
Variable zero lookahead : num.

#[local] Abbreviation scheduleChunk' :=
  (scheduleChunk add ltb eqb zero lookahead).
#[local] Abbreviation scheduleAll' :=
  (scheduleAll add ltb eqb zero lookahead).
#[local] Abbreviation noUnderrun' := (noUnderrun add ltb eqb zero).

(** An anchored cursor that is not behind the clock: the buffer starts at
    the cursor, which moves on by the duration. *)
Lemma scheduleChunk_advances d now (c : Cursor num) :
  cursorState c = loading ∨ cursorState c = playing →
  eqb (cursorTime c) zero = false →
  ltb (cursorTime c) now = false →
  scheduleChunk' d now c =
  mkCursor (cursorState c) (add (cursorTime c) d) (cursorTimers c)
    (started c ++ [(cursorTime c, d)]).
Proof.
  intros Hst Hz Hlt. unfold scheduleChunk.
  destruct Hst as [Hst | Hst]; rewrite Hst, Hz, Hlt; reflexivity.
Qed.

(** A cursor at 0 is anchored [lookahead] ahead of the clock first. *)
Lemma scheduleChunk_anchors d now (c : Cursor num) :
  cursorState c = loading ∨ cursorState c = playing →
  eqb (cursorTime c) zero = true →
  ltb (add now lookahead) now = false →
  scheduleChunk' d now c =
  mkCursor (cursorState c) (add (add now lookahead) d) (S (cursorTimers c))
    (started c ++ [(add now lookahead, d)]).
Proof.
  intros Hst Hz Hlt. unfold scheduleChunk.
  destruct Hst as [Hst | Hst]; rewrite Hst, Hz, Hlt; reflexivity.
Qed.

(** Without underrun the buffers are chained from the cursor on. *)
Lemma scheduleAll_noUnderrun arrivals : ∀ c : Cursor num,
  cursorState c = loading ∨ cursorState c = playing →
  noUnderrun' (cursorTime c) arrivals →
  let c' := scheduleAll' arrivals c in
  cursorState c' = cursorState c ∧
  cursorTimers c' = cursorTimers c ∧
  started c' = started c ++ chained add (cursorTime c) (map snd arrivals) ∧
  cursorTime c' = fold_left add (map snd arrivals) (cursorTime c).
Proof.
  induction arrivals as [|[now d] arrivals IH]; intros c Hst Hsteady.
  - cbn. now rewrite app_nil_r.
  - destruct Hsteady as (Hz & Hlt & Hrest). cbv zeta.
    unfold scheduleAll. cbn [fold_left fst snd map chained].
    rewrite scheduleChunk_advances by assumption.
    destruct (IH (mkCursor (cursorState c) (add (cursorTime c) d)
                    (cursorTimers c) (started c ++ [(cursorTime c, d)])))
      as (H1 & H2 & H3 & H4); [exact Hst | exact Hrest |].
    cbn [cursorState cursorTime cursorTimers started] in *.
    unfold scheduleAll in *. rewrite H1, H2, H3, H4, <- app_assoc.
    repeat split.
Qed.

Variable toQ : num → Q.

(** Where no sum is rounded, the cursor advances by the sum of the
    durations and the buffers do not overlap. *)
Lemma exactSums_total durations : ∀ t,
  exactSums add toQ t durations →
  (toQ (fold_left add durations t) - toQ t == totalSeconds toQ durations)%Q.
Proof.
  induction durations as [|d durations IH]; intros t Hexact; cbn.
  - lra.
  - destruct Hexact as [Hd Hrest]. specialize (IH _ Hrest).
    unfold totalSeconds in IH. lra.
Qed.

Lemma chained_lower_bound durations : ∀ t i ti di,
  exactSums add toQ t durations →
  List.Forall (λ d, 0 <= toQ d)%Q durations →
  chained add t durations !! i = Some (ti, di) →
  (toQ t <= toQ ti)%Q.
Proof.
  induction durations as [|d durations IH]; intros t i ti di Hexact Hpos Hi;
    [discriminate |].
  destruct Hexact as [Hd Hrest]. inversion Hpos as [|? ? Hd0 Hpos']; subst.
  destruct i as [|i]; cbn in Hi.
  - injection Hi as <- <-. lra.
  - specialize (IH _ _ _ _ Hrest Hpos' Hi). lra.
Qed.

Lemma chained_apart durations : ∀ t,
  exactSums add toQ t durations →
  List.Forall (λ d, 0 <= toQ d)%Q durations →
  apart toQ (chained add t durations).
Proof.
  induction durations as [|d durations IH];
    intros t Hexact Hpos i j ti di tj dj Hij Hi Hj; [discriminate |].
  destruct Hexact as [Hd Hrest]. inversion Hpos as [|? ? Hd0 Hpos']; subst.
  destruct j as [|j]; [lia |]. cbn in Hj.
  destruct i as [|i]; cbn in Hi.
  - injection Hi as <- <-.
    pose proof (chained_lower_bound _ _ _ _ _ Hrest Hpos' Hj). lra.
  - eapply (IH _ Hrest Hpos' i j); [lia | eassumption | eassumption].
Qed.
End scheduling_facts.

Section cursor_of_component.
Variable decodeAudioData : string → option AudioBuffer.

(** With the rationals, [scheduleChunk] is the cursor of [onAudioChunks]
    for a first chunk that decodes. *)
Lemma onAudioChunks_scheduleChunk chunk rest audioBuffer now s :
  decodeAudioData (data chunk) = Some audioBuffer →
  cursorOf (exec (onAudioChunks decodeAudioData (chunk :: rest) now) s) =
  scheduleChunk Qplus Qltb Qeq_bool 0%Q bufferTime (duration audioBuffer) now
    (cursorOf s).
Proof.
  intros Hdec. destruct s. unfold onAudioChunks, scheduleChunk, cursorOf.
  unfold_M. cbn [cursorState cursorTime cursorTimers started playbackState
                 nextStartTime pendingTimers effects].
  destruct playbackState0; try reflexivity.
  all: rewrite Hdec; unfold_M; cbn.
  all: destruct (Qeq_bool nextStartTime0 0); unfold_M; cbn.
  all: match goal with
       | |- context [Qltb ?a ?b] => destruct (Qltb a b)
       end; unfold_M; cbn.
  all: rewrite ?scheduled_app; cbn; rewrite ?app_nil_r, ?map_app;
       reflexivity.
Qed.
End cursor_of_component.

(** C2 (amended). Chunks handled in state [loading] or [playing] from a
    cursor at 0, in the double arithmetic of the code, with no underrun
    after the first chunk anchors the cursor. The first buffer starts at
    the anchor, the double sum of the clock and [bufferTime]; each buffer
    starts at the cursor, which then becomes the double sum of that start
    and the duration of the buffer, so each later buffer starts at the
    rounded end of the one before it. Where every one of these sums is
    exact, the cursor ends at the anchor plus the sum of the durations and
    no buffer ends after a later one starts. *)
Theorem double_schedule_back_to_back (c : Cursor Double.double)
  (now1 d1 : Double.double) (others : list (Double.double * Double.double)) :
  cursorState c = loading ∨ cursorState c = playing →
  Double.eqb (cursorTime c) Double.zero = true →
  let anchor := Double.add now1 Double.bufferTime in
  Double.ltb anchor now1 = false →
  Double.noUnderrun (Double.add anchor d1) others →
  let durations := d1 :: map snd others in
  let c' := Double.scheduleAll ((now1, d1) :: others) c in
  started c' = started c ++ Double.chained anchor durations ∧
  cursorTime c' = fold_left Double.add durations anchor ∧
  cursorState c' = cursorState c ∧
  cursorTimers c' = S (cursorTimers c) ∧
  (Double.exactSums anchor durations →
   (Double.toQ (cursorTime c') - Double.toQ anchor ==
    Double.totalSeconds durations)%Q ∧
   (List.Forall (λ d, 0 <= Double.toQ d)%Q durations →
    Double.apart (Double.chained anchor durations))).
Proof.
  intros Hst Hz anchor Hlt Hsteady durations c'.
  assert (Hfirst : Double.scheduleChunk d1 now1 c =
            mkCursor (cursorState c) (Double.add anchor d1)
              (S (cursorTimers c)) (started c ++ [(anchor, d1)])).
  { now apply scheduleChunk_anchors. }
  destruct (scheduleAll_noUnderrun Double.add Double.ltb Double.eqb Double.zero
              Double.bufferTime others (Double.scheduleChunk d1 now1 c))
    as (H1 & H2 & H3 & H4).
  { rewrite Hfirst. exact Hst. }
  { rewrite Hfirst. exact Hsteady. }
  assert (Hc' : c' = scheduleAll Double.add Double.ltb Double.eqb Double.zero
                       Double.bufferTime others
                       (Double.scheduleChunk d1 now1 c)) by reflexivity.
  rewrite <- Hc' in H1, H2, H3, H4. rewrite Hfirst in H1, H2, H3, H4.
  cbn [cursorState cursorTime cursorTimers started] in H1, H2, H3, H4.
  assert (Hcursor : cursorTime c' = fold_left Double.add durations anchor).
  { exact H4. }
  split; [rewrite H3, <- app_assoc; reflexivity |].
  split; [exact Hcursor |]. split; [exact H1 |]. split; [exact H2 |].
  intros Hexact. split.
  - rewrite Hcursor. now apply exactSums_total.
  - intros Hpos. now apply chained_apart.
Qed.

(** C2 (counterexample). From a cursor at 0 and the clock at 1.5, four
    buffers of 0.1 s start at 3.5, 3.6, 3.7 and 3.8000000000000003 and
    leave the cursor at 3.9000000000000004: the cursor has advanced by
    0.40000000000000036, which is not the sum of the four durations. With
    buffers of 0.01 s the first buffer ends after the second one
    starts. *)
Lemma double_schedule_sum_differs :
  let now := Double.ratio 3 2 in
  let anchor := Double.add now Double.bufferTime in
  let c := mkCursor loading Double.zero 0 [] in
  let tenths := [(now, tenth); (now, tenth); (now, tenth); (now, tenth)] in
  let hundredths := [(now, hundredth); (now, hundredth)] in
  let c1 := Double.scheduleAll tenths c in
  let c2 := Double.scheduleAll hundredths c in
  (Double.ltb anchor now = false ∧
   Double.noUnderrun (Double.add anchor tenth) (tl tenths) ∧
   Double.noUnderrun (Double.add anchor hundredth) (tl hundredths)) ∧
  (map fst (started c1) =
     [Double.ofZ 7881299347898368 (-51); Double.ofZ 8106479329266893 (-51);
      Double.ofZ 8331659310635418 (-51); Double.ofZ 8556839292003943 (-51)] ∧
   cursorTime c1 = Double.ofZ 8782019273372468 (-51) ∧
   ¬ (Double.toQ (cursorTime c1) - Double.toQ anchor ==
      Double.totalSeconds (map snd tenths))%Q) ∧
  ¬ Double.apart (started c2).
Proof.
  cbv zeta. split; [| split].
  - split; [reflexivity |]. split; vm_compute; tauto.
  - split; [reflexivity |]. split; [reflexivity |].
    apply Qeq_bool_neq. vm_compute. reflexivity.
  - intros Hapart.
    specialize (Hapart 0%nat 1%nat _ _ _ _ (Nat.lt_0_succ 0) eq_refl eq_refl).
    revert Hapart. apply Qlt_not_le. vm_compute. reflexivity.
Qed.

(** ** Stopping on session errors *)

Lemma stopAudio_spec now s :
  session s ≠ 0%nat →
  exec (stopAudio now) s =
  set_nextStartTime 0
    (set_effects
       (effects s ++ [SessionStop (session s);
                      GainSetValueAtTime (outputNode s) 0 now;
                      GainLinearRampToValueAtTime (outputNode s) 1
                        (now + 0.1)])
       (set_playbackState stopped s)).
Proof.
  intros Hsession. destruct s. cbn [session] in Hsession.
  unfold stopAudio, sessionCall. unfold_M. cbn.
  destruct session0 as [|sid]; [contradiction |].
  unfold_M. cbn. rewrite <- !app_assoc. reflexivity.
Qed.

(** On a session error the component records the connection error, stops,
    resets the cursor, shows a toast and does not connect again; the gain
    of the output node is set to 0 and then ramped to 1. *)
Lemma onerror_spec now s :
  session s ≠ 0%nat →
  let s' := exec (onerror now) s in
  connectionError s' = true ∧
  playbackState s' = stopped ∧
  nextStartTime s' = 0%Q ∧
  session s' = session s ∧
  added s s' =
    [SessionStop (session s);
     GainSetValueAtTime (outputNode s) 0 now;
     GainLinearRampToValueAtTime (outputNode s) 1 (now + 0.1);
     ToastShow "Connection error, please restart audio."].
Proof.
  intros Hsession s'. subst s'. destruct s. cbn [session] in Hsession.
  unfold onerror, stopAudio, sessionCall. unfold_M. cbn.
  destruct session0 as [|sid]; [contradiction |].
  unfold_M. cbn.
  repeat split. unfold added. cbn [effects].
  rewrite <- !app_assoc. apply drop_app_length.
Qed.

Lemma onclose_onerror now s : exec (onclose now) s = exec (onerror now) s.
Proof. reflexivity. Qed.

(** C4. A session error while playing, at clock time 5: the connection
    error is recorded, the state is [stopped], the cursor is 0, a toast is
    shown and no connection is opened, but the gain is ramped to 1, not to
    0. A close event does the same. *)
Theorem onerror_ramps_gain_to_one :
  let s := examplePlaying in
  let s' := step exampleDecode s (SessionError 5) in
  playbackState s = playing ∧
  connectionError s' = true ∧
  playbackState s' = stopped ∧
  nextStartTime s' = 0%Q ∧
  added s s' =
    [SessionStop 1;
     GainSetValueAtTime 0 0 5;
     GainLinearRampToValueAtTime 0 1 5.1;
     ToastShow "Connection error, please restart audio."] ∧
  step exampleDecode s (SessionClose 5) = s'.
Proof.
  vm_compute. repeat split.
Qed.

(** ** Invariants of the event loop *)

Ltac unfold_handlers :=
  cbv beta iota zeta delta
    [step handle exec mbind M_bind mret M_ret gets modify emit stop when
     fst snd
     firstUpdated onmessage onAudioChunks onerror onclose playbackTimer
     handleSendSettled handlePlayPause handlePromptChanged handleAddPrompt
     handlePromptRemoved handleSequencerChange handleSettingsChange
     handleReset dispatchPromptsChange connectToSession setSessionPrompts
     sendPrompts sessionCall listener throttle pauseAudio loadAudio
     stopAudio
     set_prompts set_nextPromptId set_session set_outputNode
     set_nextStartTime set_playbackState set_filteredPrompts
     set_connectionError set_sequencerGrid set_sequencerWeight
     set_currentBpm set_lastCall set_pendingTimers set_pendingSends
     set_effects
     prompts nextPromptId session outputNode nextStartTime playbackState
     filteredPrompts connectionError sequencerGrid sequencerWeight
     currentBpm lastCall pendingTimers pendingSends effects].

Ltac case_split :=
  match goal with
  | |- context [match ?x with _ => _ end] =>
      match x with
      | context [match _ with _ => _ end] => fail 1
      | _ => destruct x eqn:?
      end
  end.

Ltac handler_cases := repeat (unfold_handlers; try case_split).

Section loop_facts.
Variable decodeAudioData : string → option AudioBuffer.

#[local] Abbreviation step := (step decodeAudioData).
#[local] Abbreviation run := (run decodeAudioData).

Lemma step_filteredPrompts s ev :
  filteredPrompts (step s ev) =
  match ev with
  | ServerMessage e _ =>
      match filteredPrompt e with
      | Some fp => filteredPrompts s ∪ {[fp_text fp]}
      | None => filteredPrompts s
      end
  | _ => filteredPrompts s
  end.
Proof.
  destruct s, ev; handler_cases; reflexivity.
Qed.

(** The cursor is only moved off 0 while loading or playing, and pausing
    and stopping put it back. *)
Lemma step_cursorClear s ev : cursorClear s → cursorClear (step s ev).
Proof.
  unfold cursorClear. destruct s. cbn [playbackState nextStartTime].
  destruct ev; handler_cases; intros Hclear Hst;
    try reflexivity;
    try (apply Hclear; tauto);
    try (destruct Hst; discriminate).
Qed.

Lemma run_cursorClear ps evs : cursorClear (run (initial ps) evs).
Proof.
  assert (H : ∀ s, cursorClear s → cursorClear (run s evs)).
  { induction evs as [|ev evs IH]; intros s Hs; [exact Hs |].
    cbn [run fold_left]. apply IH, step_cursorClear, Hs. }
  apply H. intros _. reflexivity.
Qed.

Lemma step_filteredPrompts_subseteq s ev :
  filteredPrompts s ⊆ filteredPrompts (step s ev).
Proof.
  rewrite step_filteredPrompts.
  destruct ev; try reflexivity.
  destruct (filteredPrompt e); [set_solver | reflexivity].
Qed.

(** C9 (amended). Over any run of the component the set of filtered texts
    only grows; a [filteredPrompt] message adds its text; opening a new
    session, alone or from a play click, leaves the set as it is. *)
Theorem filteredPrompts_only_grow (s : PromptDj) (evs : list Event)
  (setup : bool) (fp : FilteredPrompt) (content : option ServerContent)
  (now : Q) (nowMs : Z) :
  filteredPrompts s ⊆ filteredPrompts (run s evs) ∧
  fp_text fp ∈
    filteredPrompts
      (step s (ServerMessage
                 {| setupComplete := setup; filteredPrompt := Some fp;
                    serverContent := content |} now)) ∧
  filteredPrompts (exec connectToSession s) = filteredPrompts s ∧
  filteredPrompts (step s (PlayPauseClick now nowMs)) = filteredPrompts s.
Proof.
  split; [| split; [| split]].
  - revert s. induction evs as [|ev evs IH]; intros s; [reflexivity |].
    cbn [run fold_left]. etrans; [apply (step_filteredPrompts_subseteq s ev) |].
    apply IH.
  - rewrite step_filteredPrompts. cbn [filteredPrompt]. set_solver.
  - destruct s. reflexivity.
  - apply step_filteredPrompts.
Qed.


(** *** The throttled push inside the event loop *)

(** An event handled less than 200 ms after the last push pushes nothing
    and leaves [lastCall] alone. *)
Lemma step_within_window s ev :
  (∀ t, eventDate ev = Some t → (t - lastCall s < 200)%Z) →
  lastCall (step s ev) = lastCall s ∧
  sent (effects (step s ev)) = sent (effects s).
Proof.
  intros Hwin. destruct s. cbn [lastCall] in Hwin.
  destruct ev; cbn [eventDate] in Hwin;
    try (specialize (Hwin _ eq_refl); apply Z.leb_gt in Hwin);
    handler_cases;
    try (rewrite Hwin in *; discriminate);
    try congruence;
    rewrite ?sent_app; cbn; rewrite ?app_nil_r; split; reflexivity.
Qed.

(** A push that fires sends the payload of the state it is called in, and
    every event handled during the next 200 ms sends nothing more. *)
Lemma setSessionPrompts_window s t1 evs :
  session s ≠ 0%nat →
  (200 ≤ t1 - lastCall s)%Z →
  (∀ ev t, In ev evs → eventDate ev = Some t → (t - t1 < 200)%Z) →
  sent (effects (run (exec (setSessionPrompts t1) s) evs)) =
  sent (effects s) ++
    [promptsToSend (prompts s) (filteredPrompts s) (sequencerGrid s)
       (sequencerWeight s)].
Proof.
  intros Hsession Hquiet Hwin.
  set (s1 := exec (setSessionPrompts t1) s).
  assert (H1 : lastCall s1 = t1 ∧
               sent (effects s1) = sent (effects s) ++
                 [promptsToSend (prompts s) (filteredPrompts s)
                    (sequencerGrid s) (sequencerWeight s)]).
  { subst s1. apply Z.leb_le in Hquiet. destruct s.
    cbn [lastCall] in Hquiet. cbn [session] in Hsession.
    unfold_handlers. rewrite Hquiet.
    destruct session0 as [|sid]; [contradiction |].
    unfold_handlers. now rewrite sent_app. }
  destruct H1 as [Hlast <-]. clearbody s1. clear Hquiet.
  revert s1 Hlast. induction evs as [|ev evs IH]; intros s1 Hlast;
    [reflexivity |].
  cbn [run fold_left].
  destruct (step_within_window s1 ev) as [Hl Hs].
  { intros t Ht. rewrite Hlast. eapply Hwin; [now left | exact Ht]. }
  rewrite <- Hs. apply IH.
  - intros ev' t Hin. apply Hwin. now right.
  - now rewrite Hl.
Qed.
Lemma setSessionPrompts_fires s t :
  (200 ≤ t - lastCall s)%Z →
  exec (setSessionPrompts t) s = set_lastCall t (exec sendPrompts s).
Proof.
  intros H. apply Z.leb_le in H. unfold setSessionPrompts, throttle, exec.
  cbn [snd]. now rewrite H.
Qed.

Lemma setSessionPrompts_suppressed s t :
  (t - lastCall s < 200)%Z → exec (setSessionPrompts t) s = s.
Proof.
  intros H. apply Z.leb_gt in H. unfold setSessionPrompts, throttle, exec.
  cbn [snd]. rewrite H. now destruct s.
Qed.

(** C6 (amended). A burst of calls of [setSessionPrompts] made while the
    component has a session, the first at least 200 ms after the last
    call that fired and the others less than 200 ms after the first: the
    burst adds one effect, a [setWeightedPrompts] on the session with the
    payload of the state at the first call; [lastCall] is the time of the
    first call; and whatever the events handled less than 200 ms after the
    first call edit, nothing more is sent. *)
Theorem setSessionPrompts_burst_sends_once (s : PromptDj) (t1 : Z)
  (ts : list Z) (evs : list Event) :
  session s ≠ 0%nat →
  (200 ≤ t1 - lastCall s)%Z →
  (∀ t, In t ts → (t - t1 < 200)%Z) →
  (∀ ev t, In ev evs → eventDate ev = Some t → (t - t1 < 200)%Z) →
  let payload :=
    promptsToSend (prompts s) (filteredPrompts s) (sequencerGrid s)
      (sequencerWeight s) in
  let burst :=
    fold_left (λ s t, exec (setSessionPrompts t) s) (t1 :: ts) s in
  added s burst = [SetWeightedPrompts (session s) payload] ∧
  lastCall burst = t1 ∧
  sent (effects (run burst evs)) = sent (effects s) ++ [payload].
Proof.
  intros Hsession Hquiet Hburst Hwin payload burst.
  assert (Hb : burst = exec (setSessionPrompts t1) s).
  { subst burst. cbn [fold_left].
    assert (Hlast : lastCall (exec (setSessionPrompts t1) s) = t1).
    { now rewrite setSessionPrompts_fires. }
    revert Hlast. generalize (exec (setSessionPrompts t1) s). intros s1 Hlast.
    induction ts as [|t ts IH]; [reflexivity |].
    cbn [fold_left]. rewrite setSessionPrompts_suppressed.
    - apply IH. intros t' Ht'. apply Hburst. now right.
    - rewrite Hlast. apply Hburst. now left. }
  rewrite Hb. split; [| split].
  - rewrite setSessionPrompts_fires by assumption.
    apply added_app. destruct s. cbn [session] in Hsession.
    destruct session0; [contradiction | reflexivity].
  - now rewrite setSessionPrompts_fires.
  - now apply setSessionPrompts_window.
Qed.
End loop_facts.

(** C6 (counterexample). Ten calls within 50 ms made before the component
    has a session: the first call opens the window, the wrapped function
    runs once, and nothing is sent: the call on the missing session throws
    and only the message of the error is shown. *)
Lemma burst_without_session_sends_nothing :
  let s := initial examplePrompts in
  let burst :=
    fold_left (λ s t, exec (setSessionPrompts t) s) (map fst tenCalls) s in
  session s = 0%nat ∧
  (200 ≤ 1700000000000 - lastCall s)%Z ∧
  sent (added s burst) = [] ∧
  added s burst =
    [ToastShow (undefinedSessionMessage "setWeightedPrompts")] ∧
  lastCall burst = 1700000000000%Z.
Proof.
  vm_compute. repeat split. discriminate.
Qed.


(** The timer set by the first chunk still runs after the user has
    cancelled loading: the component goes from [stopped] to [playing]. *)
Example timer_after_cancel :
  let cancelled :=
    run exampleDecode exampleLoading
      [ServerMessage (audioMessage [{| data := "AAAA" |}]) 1.5;
       PlayPauseClick 2 1700000002000] in
  playbackState cancelled = stopped ∧
  pendingTimers cancelled = 1%nat ∧
  playbackState (step exampleDecode cancelled PlaybackTimer) = playing.
Proof.
  vm_compute. repeat split.
Qed.

(** After a session error the next play click opens a new session, pushes
    the current payload to it and only then calls [play]. *)
Example play_after_error_reconnects :
  let failed := step exampleDecode examplePlaying (SessionError 5) in
  let resumed := step exampleDecode failed (PlayPauseClick 6 1700000006000) in
  connectionError failed = true ∧
  playbackState resumed = loading ∧
  added failed resumed =
    [Connect 2;
     SetWeightedPrompts 2
       [mkPrompt "prompt-1" "#5200ff" "Punchy Kick" 1.2;
        mkPrompt "prompt-2" "#ff25f6" "Thrash" 0.5];
     ContextResume;
     SessionPlay 2;
     GainSetValueAtTime 0 0 6;
     GainLinearRampToValueAtTime 0 1 6.1].
Proof.
  vm_compute. repeat split.
Qed.

(** C9 (counterexample). A text is filtered, the session fails, and the
    user presses play: a second session is opened and the filtered text is
    still in the set. *)
Lemma reconnect_keeps_filteredPrompts :
  let flagged :=
    ServerMessage
      {| setupComplete := false;
         filteredPrompt :=
           Some {| fp_text := "Thrash"; filteredReason := "Not allowed" |};
         serverContent := None |} 3 in
  let s := run exampleDecode examplePlaying
             [flagged; SessionError 5; PlayPauseClick 6 1700000006000] in
  session examplePlaying = 1%nat ∧
  session s = 2%nat ∧
  In (Connect 2) (effects s) ∧
  filteredPrompts s = {["Thrash"]} ∧
  filteredPrompts s ≠ ∅.
Proof.
  vm_compute. repeat split; [tauto | discriminate].
Qed.

(** * Instances on the example inputs *)

Lemma underrun_drops_chunk_witness :
  let e := audioMessage [{| data := "CCCC" |}] in
  let s' := exec (onmessage exampleDecode e 10) examplePlaying in
  (nextStartTime examplePlaying < 10)%Q ∧
  playbackState s' = loading ∧
  nextStartTime s' = 0%Q ∧
  scheduled (added examplePlaying s') = [].
Proof.
  split; [reflexivity |].
  apply (underrun_drops_chunk exampleDecode
           (audioMessage [{| data := "CCCC" |}]) {| data := "CCCC" |} []
           (exampleBuffer "CCCC") 10 examplePlaying).
  - intros [H | H]; discriminate H.
  - reflexivity.
  - reflexivity.
  - vm_compute. discriminate.
  - reflexivity.
Defined.

Example gapless_schedule_three_chunks :
  let s' := run exampleDecode exampleLoading
              (deliveries [exampleArrival "AAAA" 1.5;
                           exampleArrival "BBBB" 2;
                           exampleArrival "CCCC" 5.5]) in
  playbackState exampleLoading = loading ∧
  scheduled (added exampleLoading s') =
    backToBack (1.5 + bufferTime)
      [exampleBuffer "AAAA"; exampleBuffer "BBBB"; exampleBuffer "CCCC"] ∧
  (nextStartTime s' - (1.5 + bufferTime) == 3)%Q.
Proof.
  split; [reflexivity |].
  destruct (gapless_schedule exampleDecode (exampleArrival "AAAA" 1.5)
              [exampleArrival "BBBB" 2; exampleArrival "CCCC" 5.5]
              exampleLoading) as (Hsched & Hsum & _).
  - left. reflexivity.
  - reflexivity.
  - vm_compute. discriminate.
  - repeat constructor; try (vm_compute; discriminate);
      (eexists _, _; split; reflexivity).
  - vm_compute. repeat split; discriminate.
  - split; [exact Hsched | exact Hsum].
Qed.

Lemma chunks_discarded_when_not_playing_witness :
  let e := audioMessage [{| data := "AAAA" |}] in
  let s := initial examplePrompts in
  let s' := exec (onmessage exampleDecode e 1) s in
  playbackState s = stopped ∧
  nextStartTime s' = nextStartTime s ∧
  playbackState s' = playbackState s ∧
  pendingTimers s' = pendingTimers s ∧
  added s s' = [].
Proof.
  split; [reflexivity |].
  apply (chunks_discarded_when_not_playing exampleDecode
           (audioMessage [{| data := "AAAA" |}]) [{| data := "AAAA" |}] 1
           (initial examplePrompts)).
  - reflexivity.
  - left. reflexivity.
Defined.


(** Ten calls within 50 ms, after a quiet period: one call of the wrapped
    function, with the argument of the first call. *)
Example throttle_calls_burst_ten :
  throttle_calls (λ (a : nat) (log : list nat), log ++ [a]) 200%Z tenCalls
    (0%Z, []) =
  (1700000000000%Z, [1%nat]).
Proof.
  apply (throttle_calls_burst (λ (a : nat) (log : list nat), log ++ [a])
           200%Z 0%Z 1700000000000%Z 1%nat (tl tenCalls) []).
  - lia.
  - intros c Hc. cbn in Hc.
    repeat (destruct Hc as [<- | Hc]; [cbn; lia |]). destruct Hc.
Qed.

Lemma setSessionPrompts_burst_sends_once_witness :
  let times := map fst tenCalls in
  let shifted := map (λ t, (t + 5000)%Z) times in
  let burst :=
    fold_left (λ s t, exec (setSessionPrompts t) s) shifted examplePlaying in
  added examplePlaying burst =
    [SetWeightedPrompts 1
       [mkPrompt "prompt-1" "#5200ff" "Punchy Kick" 1.2;
        mkPrompt "prompt-2" "#ff25f6" "Thrash" 0.5]] ∧
  lastCall burst = 1700000005000%Z.
Proof.
  destruct (setSessionPrompts_burst_sends_once exampleDecode examplePlaying
              1700000005000
              (tl (map (λ t, (t + 5000)%Z) (map fst tenCalls))) [])
    as (Hadded & Hlast & _).
  - discriminate.
  - vm_compute. discriminate.
  - intros t Ht. cbn in Ht.
    repeat (destruct Ht as [<- | Ht]; [lia |]). destruct Ht.
  - intros ev t [].
  - split; [exact Hadded | exact Hlast].
Defined.

Lemma promptsToSend_user_prompts_witness :
  let payload := promptsToSend examplePrompts {["Thrash"]} kickOnly 0.8 in
  In (mkPrompt "prompt-1" "#5200ff" "Punchy Kick" 1.2%Q) payload ∧
  ¬ In (mkPrompt "prompt-0" "#9900ff" "Lush Strings" 0%Q) payload ∧
  ¬ In (mkPrompt "prompt-2" "#ff25f6" "Thrash" 0.5%Q) payload.
Proof.
  intros payload. subst payload. split; [| split].
  - apply promptsToSend_user_prompts; [discriminate |].
    split; [right; left; reflexivity |].
    split; [vm_compute; discriminate | set_solver].
  - intros H. apply promptsToSend_user_prompts in H; [| discriminate].
    destruct H as (_ & Hw & _). apply Hw. reflexivity.
  - intros H. apply promptsToSend_user_prompts in H; [| discriminate].
    destruct H as (_ & _ & Hf). apply Hf. set_solver.
Defined.

Lemma sequencer_prompt_in_payload_witness :
  let payload := promptsToSend examplePrompts {["Thrash"]} kickOnly 0.8 in
  (∃ p, In p payload ∧ promptId p = "prompt-sequencer") ∧
  (∀ p, In p payload → promptId p = "prompt-sequencer" →
     weight p = 0.8%Q ∧
     text p = "A brutal heavy bass and percussion track. It features a prominent kick drum. ").
Proof.
  destruct (sequencer_prompt_in_payload examplePrompts {["Thrash"]} kickOnly
              0.8) as (Hiff & Hshape & _).
  - intros p [<- | [<- | [<- | []]]]; discriminate.
  - split.
    + apply Hiff. split; [reflexivity |].
      exists (1 :: repeat 0 15)%Z. split; left; reflexivity.
    + exact Hshape.
Defined.

(** * Further properties of the component *)

(** ** The throttle, for any series of calls *)

Lemma last_cons_default {A} (x d : A) (l : list A) :
  List.last (x :: l) d = List.last l x.
Proof.
  assert (Hindep : ∀ (l : list A) y d1 d2,
            List.last (y :: l) d1 = List.last (y :: l) d2).
  { clear. induction l as [|z l IH]; intros y d1 d2; [reflexivity |].
    change (List.last (z :: l) d1 = List.last (z :: l) d2). apply IH. }
  destruct l as [|y l]; [reflexivity |].
  change (List.last (y :: l) d = List.last (y :: l) x). apply Hindep.
Qed.

Lemma throttle_calls_recorded delay ts lastCall log :
  ∃ fired,
    throttle_calls recordCall delay (stampedCalls ts) (lastCall, log) =
      (List.last fired lastCall, log ++ fired) ∧
    spaced delay lastCall fired ∧
    sublist fired ts.
Proof.
  revert lastCall log. induction ts as [|t ts IH]; intros lastCall log.
  - exists []. cbn. rewrite app_nil_r. repeat split. constructor.
  - unfold throttle_calls, stampedCalls. cbn [map fold_left fst snd].
    unfold throttle at 2.
    destruct (Z.leb_spec delay (t - lastCall)) as [Hfire | Hquiet].
    + destruct (IH t (recordCall t log)) as (fired & Heq & Hsp & Hsub).
      exists (t :: fired). split; [| split].
      * unfold throttle_calls, stampedCalls in Heq. rewrite Heq.
        unfold recordCall. rewrite <- app_assoc, last_cons_default.
        reflexivity.
      * split; assumption.
      * now constructor.
    + destruct (IH lastCall log) as (fired & Heq & Hsp & Hsub).
      exists fired. split; [exact Heq | split; [exact Hsp |]].
      now constructor.
Qed.

(** X1. Whatever the series of calls and the clock values they see, the
    calls that reach the wrapped function are a subsequence of the calls
    made, each at least [delay] after the one before it (and after the
    last call that fired before the series); [lastCall] ends at the time
    of the last of them. *)
Theorem throttle_at_most_once_per_delay (delay lastCall : Z) (ts : list Z) :
  let result :=
    throttle_calls recordCall delay (stampedCalls ts) (lastCall, []) in
  spaced delay lastCall (snd result) ∧
  sublist (snd result) ts ∧
  fst result = List.last (snd result) lastCall.
Proof.
  intros result. subst result.
  destruct (throttle_calls_recorded delay ts lastCall [])
    as (fired & -> & Hsp & Hsub).
  cbn. repeat split; assumption.
Qed.

(** ** The payload, all of it *)

Lemma List_filter_sublist {A} (f : A → bool) (l : list A) :
  sublist (List.filter f l) l.
Proof.
  induction l as [|x l IH]; [constructor |].
  cbn. destruct (f x); now constructor.
Qed.

(** X11. No prompt of a payload has weight 0, the synthetic one included,
    and the payload keeps the order of the prompt map, with the synthetic
    prompt last. *)
Theorem payload_weights_and_order (ps : PromptMap) (F : gset string)
  (grid : list (list Z)) (w : Q) :
  List.Forall nonZeroWeight (promptsToSend ps F grid w) ∧
  sublist (promptsToSend ps F grid w)
    (map_values ps ++ [sequencerPrompt (generateSequencerPrompt grid w) w]).
Proof.
  unfold promptsToSend.
  set (toSend := List.filter _ (map_values ps)).
  assert (Hw : List.Forall nonZeroWeight toSend).
  { apply List.Forall_forall. intros p Hp. apply toSend_In in Hp.
    apply Hp. }
  assert (Hsub : sublist toSend (map_values ps))
    by apply List_filter_sublist.
  destruct (truthy (generateSequencerPrompt grid w) && Qltb 0 w) eqn:Hc.
  - split.
    + apply List.Forall_app. split; [assumption |].
      constructor; [| constructor].
      apply andb_true_iff in Hc as [_ Hpos]. apply Qltb_true in Hpos.
      unfold nonZeroWeight. cbn. intros Hz. rewrite Hz in Hpos.
      revert Hpos. apply Qlt_irrefl.
    + apply sublist_app; [assumption | reflexivity].
  - split; [assumption |].
    apply sublist_inserts_r. assumption.
Qed.

(** ** The prompt map *)

Lemma map_get_set_eq k v m : map_get k (map_set k v m) = Some v.
Proof.
  induction m as [|[k' v'] m IH]; cbn.
  - now rewrite String.eqb_refl.
  - destruct (String.eqb k k') eqn:Hk; cbn; rewrite Hk; [reflexivity | exact IH].
Qed.

Lemma map_get_set_ne k k' v m :
  k' ≠ k → map_get k' (map_set k v m) = map_get k' m.
Proof.
  intros Hne. induction m as [|[k0 v0] m IH]; cbn.
  - apply String.eqb_neq in Hne. now rewrite Hne.
  - destruct (String.eqb_spec k k0) as [-> | Hk]; cbn.
    + apply String.eqb_neq in Hne. now rewrite Hne.
    + now rewrite IH.
Qed.

Lemma map_set_keys_present k v m p :
  map_get k m = Some p → map fst (map_set k v m) = map fst m.
Proof.
  induction m as [|[k0 v0] m IH]; cbn; [discriminate |].
  destruct (String.eqb k k0); cbn; [reflexivity |].
  intros H. now rewrite IH.
Qed.

Lemma map_get_None k m : map_get k m = None ↔ ¬ In k (map fst m).
Proof.
  induction m as [|[k0 v0] m IH]; cbn; [tauto |].
  destruct (String.eqb_spec k k0) as [-> | Hk].
  - split; [discriminate | intros H; exfalso; apply H; now left].
  - rewrite IH. split; [intros H [Heq | Hin]; [congruence | tauto] | tauto].
Qed.

Lemma map_set_absent k v m :
  map_get k m = None → map_set k v m = m ++ [(k, v)].
Proof.
  induction m as [|[k0 v0] m IH]; cbn; [reflexivity |].
  destruct (String.eqb k k0); [discriminate |].
  intros H. now rewrite IH.
Qed.

Lemma map_delete_sublist k m : sublist (map_delete k m) m.
Proof.
  induction m as [|[k0 v0] m IH]; cbn; [constructor |].
  destruct (String.eqb k k0); [now constructor | now constructor].
Qed.

Lemma map_get_delete_ne k k' m :
  k' ≠ k → map_get k' (map_delete k m) = map_get k' m.
Proof.
  intros Hne. induction m as [|[k0 v0] m IH]; cbn; [reflexivity |].
  destruct (String.eqb_spec k k0) as [-> | Hk]; cbn.
  - apply String.eqb_neq in Hne. now rewrite Hne.
  - now rewrite IH.
Qed.

Lemma map_get_delete_eq k m :
  List.NoDup (map fst m) → map_get k (map_delete k m) = None.
Proof.
  induction m as [|[k0 v0] m IH]; cbn; [reflexivity |].
  intros Hnd. inversion Hnd as [|? ? Hnotin Hnd']; subst.
  destruct (String.eqb_spec k k0) as [-> | Hk]; cbn.
  - now apply map_get_None.
  - apply String.eqb_neq in Hk. rewrite Hk. now apply IH.
Qed.

Lemma map_delete_length k m p :
  map_get k m = Some p → S (length (map_delete k m)) = length m.
Proof.
  induction m as [|[k0 v0] m IH]; cbn; [discriminate |].
  destruct (String.eqb k k0); cbn; [reflexivity |].
  intros H. now rewrite IH.
Qed.

Lemma map_get_Some_In k m p : map_get k m = Some p → In k (map fst m).
Proof.
  induction m as [|[k0 v0] m IH]; cbn; [discriminate |].
  destruct (String.eqb_spec k k0) as [-> | Hk]; [now left |].
  intros H. right. now apply IH.
Qed.

Lemma keys_of_set k k0 v m :
  In k (map fst (map_set k0 v m)) → In k (map fst m) ∨ k = k0.
Proof.
  induction m as [|[k1 v1] m IH]; cbn.
  - intros [<- | []]. now right.
  - destruct (String.eqb k0 k1); cbn; [tauto |].
    intros [<- | H]; [left; now left |].
    destruct (IH H); [left; now right | now right].
Qed.

Lemma keys_of_delete k k0 m :
  In k (map fst (map_delete k0 m)) → In k (map fst m).
Proof.
  induction m as [|[k1 v1] m IH]; cbn; [tauto |].
  destruct (String.eqb k0 k1); cbn; [tauto |].
  intros [<- | H]; [now left | right; now apply IH].
Qed.

Lemma promptIdOf_inj i j : promptIdOf i = promptIdOf j → i = j.
Proof.
  unfold promptIdOf. intros H.
  apply (inj (String.append "prompt-")) in H.
  now apply (inj pretty) in H.
Qed.

(** ** The event loop, beyond the playback states *)

Section coverage.
Variable decodeAudioData : string → option AudioBuffer.

#[local] Abbreviation step := (step decodeAudioData).
#[local] Abbreviation run := (run decodeAudioData).

(** X2. With a session open, a sequencer change that comes at least
    200 ms after the last push pushes the payload built from the new grid
    and weight; whatever is edited by the events handled during the next
    200 ms is not pushed. *)
Theorem edits_within_window_not_pushed (s : PromptDj) (grid : list (list Z))
  (w : Q) (t1 : Z) (evs : list Event) :
  session s ≠ 0%nat →
  (200 ≤ t1 - lastCall s)%Z →
  (∀ ev t, In ev evs → eventDate ev = Some t → (t - t1 < 200)%Z) →
  sent (effects (run s (SequencerChanged grid w t1 :: evs))) =
  sent (effects s) ++ [promptsToSend (prompts s) (filteredPrompts s) grid w].
Proof.
  intros Hsession Hquiet Hwin.
  change (run s (SequencerChanged grid w t1 :: evs))
    with (run (exec (setSessionPrompts t1)
                 (set_sequencerWeight w (set_sequencerGrid grid s))) evs).
  rewrite (setSessionPrompts_window decodeAudioData) by assumption.
  reflexivity.
Qed.

(** X3. A play click while stopped or paused, with a session open and
    no connection error: nothing is connected and nothing is pushed, so
    [lastCall] stays; the audio context is resumed, [play] is called on
    the session, the state becomes [loading], the gain of the output node
    is ramped from 0 to 1, and the cursor is left where it was. *)
Theorem play_click_effects (s : PromptDj) (now : Q) (nowMs : Z) :
  playbackState s = stopped ∨ playbackState s = paused →
  session s ≠ 0%nat →
  connectionError s = false →
  let s' := step s (PlayPauseClick now nowMs) in
  playbackState s' = loading ∧
  session s' = session s ∧
  connectionError s' = false ∧
  lastCall s' = lastCall s ∧
  nextStartTime s' = nextStartTime s ∧
  outputNode s' = outputNode s ∧
  added s s' =
    [ContextResume; SessionPlay (session s);
     GainSetValueAtTime (outputNode s) 0 now;
     GainLinearRampToValueAtTime (outputNode s) 1 (now + 0.1)].
Proof.
  intros Hst Hsession Hce s'. subst s'. destruct s.
  cbn [playbackState connectionError session] in Hst, Hce, Hsession.
  cbn [connectionError session lastCall nextStartTime outputNode].
  destruct Hst; subst; handler_cases; try contradiction;
    repeat split; apply added_app; cbn [effects];
    rewrite <- ?app_assoc; reflexivity.
Qed.

(** X4. [connectionError] is cleared only by a message with
    [setupComplete] and set only by a session error or close; a session is
    opened only by [firstUpdated] and by a play click made while stopped
    or paused with [connectionError] set. *)
Theorem connection_changes (s : PromptDj) (ev : Event) :
  let s' := step s ev in
  (connectionError s' ≠ connectionError s →
   (∃ e now, ev = ServerMessage e now ∧ setupComplete e = true ∧
             connectionError s' = false) ∨
   (∃ now, (ev = SessionError now ∨ ev = SessionClose now) ∧
           connectionError s' = true)) ∧
  (session s' ≠ session s →
   session s' = S (session s) ∧
   ((∃ nowMs, ev = FirstUpdated nowMs) ∨
    (∃ now nowMs, ev = PlayPauseClick now nowMs ∧
                  connectionError s = true ∧
                  (playbackState s = stopped ∨ playbackState s = paused)))).
Proof.
  intros s'. subst s'. destruct s. split.
  - destruct ev; handler_cases; cbn; intros Hne;
      try (exfalso; apply Hne; reflexivity); eauto 8.
  - destruct ev; handler_cases; cbn; intros Hne;
      try (exfalso; apply Hne; reflexivity);
      (split; [reflexivity |]); eauto 10.
Qed.

(** *** A decode that settles after a pause or a stop *)

(** [afterDecode] is the rest of [onAudioChunks] once the guard is passed
    and the first chunk has decoded. *)
Lemma onAudioChunks_afterDecode chunk rest audioBuffer now s :
  playbackState s = loading ∨ playbackState s = playing →
  decodeAudioData (data chunk) = Some audioBuffer →
  exec (onAudioChunks decodeAudioData (chunk :: rest) now) s =
  exec (afterDecode audioBuffer now)
    (exec (emit (DecodeAudioData (data chunk))) s).
Proof.
  intros Hst Hdec. unfold onAudioChunks, afterDecode. unfold_M.
  destruct Hst as [Hst | Hst]; rewrite Hst, Hdec; reflexivity.
Qed.

(** X6. The statements after [await decodeAudioData(...)] do not read the
    playback state again. When the message passed the guard and a pause
    or a stop is handled before the decode settles, the buffer is still
    connected to the output node in use and started [bufferTime] ahead of
    the clock; the component is left paused or stopped with a cursor that
    is not 0, and the timer set with the buffer later makes it
    [playing]. *)
Theorem decode_settles_after_pause_or_stop (s : PromptDj) (chunk : AudioChunk)
  (audioBuffer : AudioBuffer) (byStop : bool) (t now : Q) :
  playbackState s = loading ∨ playbackState s = playing →
  session s ≠ 0%nat →
  (0 <= duration audioBuffer)%Q → (0 <= now)%Q →
  let begun := exec (emit (DecodeAudioData (data chunk))) s in
  let interrupted :=
    exec (if byStop then stopAudio t else pauseAudio t) begun in
  let s' := exec (afterDecode audioBuffer now) interrupted in
  playbackState interrupted = (if byStop then stopped else paused) ∧
  playbackState s' = playbackState interrupted ∧
  nextStartTime s' = (now + bufferTime + duration audioBuffer)%Q ∧
  ¬ (nextStartTime s' == 0)%Q ∧
  added interrupted s' =
    [SourceConnect audioBuffer (outputNode interrupted);
     SetTimeout (bufferTime * 1000);
     SourceStart audioBuffer (now + bufferTime)] ∧
  playbackState (exec playbackTimer s') = playing.
Proof.
  intros _ Hsession Hdur Hnow begun interrupted s'.
  assert (Hlt : Qltb (now + bufferTime) now = false).
  { apply Qltb_false. unfold bufferTime. lra. }
  subst s' interrupted begun. destruct s. cbn [session] in Hsession.
  destruct session0 as [|sid]; [contradiction |].
  destruct byStop; unfold afterDecode; unfold_handlers;
    change (Qeq_bool 0 0) with true; unfold_handlers; rewrite Hlt;
    unfold_handlers.
  all: split; [reflexivity |]. all: split; [reflexivity |].
  all: split; [reflexivity |].
  all: split; [unfold bufferTime; lra |].
  all: split; [| reflexivity].
  all: unfold added; cbn [effects]; rewrite <- !app_assoc; cbn [app].
  all: match goal with
       | |- drop (length ?l) _ = ?r =>
           transitivity (drop (length l) (l ++ r));
           [f_equal; now rewrite <- app_assoc | apply drop_app_length]
       end.
Qed.

(** *** Buffers are never started late *)

Lemma onAudioChunks_starts chunks now s :
  ∃ new,
    effects (exec (onAudioChunks decodeAudioData chunks now) s) =
      effects s ++ new ∧
    (length (scheduled new) ≤ 1)%nat ∧
    Forall
      (λ bt, (now <= snd bt)%Q ∧
             (snd bt = nextStartTime s ∨
              (nextStartTime s == 0)%Q ∧ snd bt = (now + bufferTime)%Q))
      (scheduled new).
Proof.
  unfold onAudioChunks. unfold_M.
  destruct (playbackState s).
  1, 4: exists []; cbn; rewrite app_nil_r; repeat split; [lia | constructor].
  all: destruct chunks as [|chunk rest]; unfold_M;
       [exists []; cbn; rewrite app_nil_r; repeat split;
          [lia | constructor] |].
  all: destruct (decodeAudioData (data chunk)) as [audioBuffer|];
       unfold_M; cbn.
  2, 4: eexists; split; [reflexivity |]; split; [cbn; lia | constructor].
  all: destruct (Qeq_bool (nextStartTime s) 0) eqn:Hz; unfold_M; cbn.
  all: match goal with
       | |- context [Qltb ?a ?b] => destruct (Qltb a b) eqn:Hlt
       end; unfold_M; cbn.
  all: rewrite <- ?app_assoc; eexists; split; [reflexivity |].
  all: split; [cbn; lia |]; cbn.
  all: first [ apply List.Forall_nil
             | apply List.Forall_cons; [| apply List.Forall_nil] ].
  all: cbn; split; [apply Qltb_false in Hlt; exact Hlt |].
  - right. split; [now apply Qeq_bool_iff | reflexivity].
  - left. reflexivity.
  - right. split; [now apply Qeq_bool_iff | reflexivity].
  - left. reflexivity.
Qed.

(** X7. Handling a message starts at most one buffer, never at a time
    before the audio clock: the buffer starts at the cursor, or, when the
    cursor is at 0, [bufferTime] after the clock. *)
Theorem never_started_late (s : PromptDj) (e : LiveMusicServerMessage)
  (now : Q) :
  let s' := step s (ServerMessage e now) in
  (length (scheduled (added s s')) ≤ 1)%nat ∧
  Forall
    (λ bt, (now <= snd bt)%Q ∧
           (snd bt = nextStartTime s ∨
            (nextStartTime s == 0)%Q ∧ snd bt = (now + bufferTime)%Q))
    (scheduled (added s s')).
Proof.
  intros s'. subst s'.
  change (step s (ServerMessage e now))
    with (exec (onmessage decodeAudioData e now) s).
  rewrite onmessage_unfold.
  assert (Htoast : scheduled (filteredToast e) = []).
  { unfold filteredToast. destruct (filteredPrompt e); reflexivity. }
  destruct (message_audioChunks e) as [chunks|].
  - destruct (onAudioChunks_starts chunks now (afterPreamble e s))
      as (new & Heff & Hlen & Hall).
    rewrite afterPreamble_nextStartTime in Hall.
    erewrite added_app
      by (rewrite Heff, afterPreamble_effects, <- app_assoc; reflexivity).
    rewrite scheduled_app, Htoast. split; assumption.
  - erewrite added_app by apply afterPreamble_effects.
    rewrite Htoast. split; [cbn; lia | constructor].
Qed.

(** *** The output node *)

Lemma connectedNodes_app l1 l2 :
  connectedNodes (l1 ++ l2) = connectedNodes l1 ++ connectedNodes l2.
Proof. apply flat_map_app. Qed.

Lemma step_connectedNodes s ev :
  List.Forall (λ n, n ≤ outputNode s)%nat (connectedNodes (effects s)) →
  List.Forall (λ n, n ≤ outputNode (step s ev))%nat
    (connectedNodes (effects (step s ev))).
Proof.
  destruct s. cbn [outputNode effects]. intros Hinv.
  assert (Hup : List.Forall (λ n, n ≤ S outputNode0)%nat
                  (connectedNodes effects0)).
  { eapply List.Forall_impl; [| exact Hinv]. cbn. lia. }
  destruct ev; handler_cases;
    rewrite ?connectedNodes_app; cbn [connectedNodes flat_map app];
    rewrite ?app_nil_r;
    repeat (apply List.Forall_app; split);
    try assumption;
    repeat constructor.
Qed.

(** X8. Pausing, with a session open, gives the component a new output
    node that no buffer source is connected to: every source connected so
    far stays on an older node, and the node in use until then is the one
    whose gain is ramped from 1 to 0. *)
Theorem pause_leaves_sources_behind (ps : PromptMap) (evs : list Event)
  (now : Q) :
  let s := run (initial ps) evs in
  let s' := exec (pauseAudio now) s in
  session s ≠ 0%nat →
  outputNode s' = S (outputNode s) ∧
  List.Forall (λ n, n < outputNode s')%nat (connectedNodes (effects s')) ∧
  added s s' =
    [SessionPause (session s);
     GainSetValueAtTime (outputNode s) 1 now;
     GainLinearRampToValueAtTime (outputNode s) 0 (now + 0.1);
     CreateGain (S (outputNode s))].
Proof.
  intros s s' Hsession.
  assert (Hinv : List.Forall (λ n, n ≤ outputNode s)%nat
                   (connectedNodes (effects s))).
  { clear Hsession. subst s' s.
    assert (H : ∀ s0,
              List.Forall (λ n, n ≤ outputNode s0)%nat
                (connectedNodes (effects s0)) →
              List.Forall (λ n, n ≤ outputNode (run s0 evs))%nat
                (connectedNodes (effects (run s0 evs)))).
    { induction evs as [|ev evs IH]; intros s0 H0; [exact H0 |].
      cbn [run fold_left]. apply IH, step_connectedNodes, H0. }
    apply H. cbn. constructor. }
  subst s'. clearbody s. destruct s. cbn [outputNode effects session] in *.
  unfold pauseAudio. unfold_handlers.
  destruct session0 as [|sid]; [contradiction |]. unfold_handlers.
  split; [reflexivity |]. split.
  - rewrite !connectedNodes_app. cbn [connectedNodes flat_map app].
    rewrite !app_nil_r. eapply List.Forall_impl; [| exact Hinv].
    cbn. lia.
  - apply added_app. cbn. rewrite <- !app_assoc. reflexivity.
Qed.
(** *** Buffering again after an underrun *)

Lemma afterPreamble_pendingTimers e s :
  pendingTimers (afterPreamble e s) = pendingTimers s.
Proof.
  unfold afterPreamble. destruct (setupComplete e), (filteredPrompt e);
    reflexivity.
Qed.

(** X9. After an underrun the chunk that met it is lost and the next chunk
    that decodes starts [bufferTime] after the clock at which it is
    handled: the cursor is anchored again, one more timer towards
    [playing] is set, and the state stays [loading] meanwhile. *)
Theorem rebuffer_after_underrun (e1 e2 : LiveMusicServerMessage)
  (b1 b2 : AudioBuffer) (now1 now2 : Q) (s : PromptDj) :
  cursorClear s →
  carries decodeAudioData e1 b1 →
  carries decodeAudioData e2 b2 →
  ¬ (nextStartTime s == 0)%Q →
  (nextStartTime s < now1)%Q →
  let s' := run s [ServerMessage e1 now1; ServerMessage e2 now2] in
  playbackState s' = loading ∧
  scheduled (added s s') = [(b2, (now2 + bufferTime)%Q)] ∧
  nextStartTime s' = (now2 + bufferTime + duration b2)%Q ∧
  pendingTimers s' = S (pendingTimers s).
Proof.
  intros Hclear (c1 & r1 & Hc1 & Hd1) (c2 & r2 & Hc2 & Hd2) Hnz Hlt s'.
  assert (Hst : playbackState s = loading ∨ playbackState s = playing).
  { destruct (playbackState s) eqn:Hs; [| now right | now left |];
      exfalso; apply Hnz; rewrite Hclear by tauto; reflexivity. }
  assert (Htoast : ∀ e, scheduled (filteredToast e) = []).
  { intros e. unfold filteredToast. destruct (filteredPrompt e); reflexivity. }
  set (s1 := step s (ServerMessage e1 now1)).
  assert (Hs1 : s1 =
    set_nextStartTime 0
      (set_playbackState loading
         (set_effects
            (effects (afterPreamble e1 s) ++
               [DecodeAudioData (data c1);
                SourceConnect b1 (outputNode (afterPreamble e1 s))])
            (afterPreamble e1 s)))).
  { subst s1.
    change (step s (ServerMessage e1 now1))
      with (exec (onmessage decodeAudioData e1 now1) s).
    rewrite onmessage_unfold, Hc1.
    apply onAudioChunks_underrun;
      rewrite ?afterPreamble_playbackState, ?afterPreamble_nextStartTime;
      assumption. }
  change s' with (step s1 (ServerMessage e2 now2)).
  change (step s1 (ServerMessage e2 now2))
    with (exec (onmessage decodeAudioData e2 now2) s1).
  rewrite onmessage_unfold, Hc2.
  rewrite (onAudioChunks_anchors decodeAudioData c2 r2 b2).
  2:{ left. rewrite afterPreamble_playbackState, Hs1. reflexivity. }
  2:{ assumption. }
  2:{ rewrite afterPreamble_nextStartTime, Hs1. reflexivity. }
  cbn [playbackState nextStartTime pendingTimers effects
       set_nextStartTime set_effects set_pendingTimers].
  rewrite afterPreamble_playbackState, afterPreamble_pendingTimers.
  split; [rewrite Hs1; reflexivity |].
  split; [| split; [reflexivity |]].
  - erewrite added_app.
    2:{ cbn [effects set_nextStartTime set_effects set_pendingTimers].
        rewrite afterPreamble_effects, Hs1.
        cbn [effects set_nextStartTime set_playbackState set_effects].
        rewrite afterPreamble_effects, <- !app_assoc. reflexivity. }
    rewrite !scheduled_app, !Htoast. reflexivity.
  - rewrite Hs1. cbn [pendingTimers set_nextStartTime set_playbackState
                      set_effects].
    now rewrite afterPreamble_pendingTimers.
Qed.

(** *** The tempo *)

(** X10. The tempo kept for the beat sequencer is never 0: it starts at
    120 and a settings change replaces it only by a [bpm] that is present
    and not 0. *)
Theorem currentBpm_never_zero (ps : PromptMap) (evs : list Event) :
  ¬ (currentBpm (run (initial ps) evs) == 0)%Q.
Proof.
  assert (Hstep : ∀ s ev, ¬ (currentBpm s == 0)%Q →
                          ¬ (currentBpm (step s ev) == 0)%Q).
  { intros s ev. destruct s. cbn [currentBpm].
    destruct ev; handler_cases; intros H; try exact H.
    apply Qeq_bool_false. now apply negb_true_iff. }
  assert (H : ∀ s, ¬ (currentBpm s == 0)%Q →
                   ¬ (currentBpm (run s evs) == 0)%Q).
  { induction evs as [|ev evs IH]; intros s Hs; [exact Hs |].
    cbn [run fold_left]. apply IH, Hstep, Hs. }
  apply H. cbn. discriminate.
Qed.

(** X30. Only a settings change with a [bpm] that is present and not 0
    moves the tempo kept for the beat sequencer, and with a session open
    it moves it to that [bpm]: clearing the field, a reset and every
    other event leave the tempo where it was. *)
Theorem tempo_changes_only_by_bpm (s : PromptDj) (evs : list Event) :
  forallb (λ ev, negb (setsBpm ev)) evs = true →
  currentBpm (run s evs) = currentBpm s ∧
  ∀ b, session s ≠ 0%nat → Qeq_bool b 0 = false →
       currentBpm (run s (SettingsChanged (Some b) :: evs)) = b.
Proof.
  assert (Hstep : ∀ s ev, setsBpm ev = false →
                          currentBpm (step s ev) = currentBpm s).
  { intros s0 ev. destruct s0. cbn [currentBpm].
    destruct ev; cbn [setsBpm]; handler_cases; intros H;
      try reflexivity; discriminate. }
  assert (Hrun : ∀ s, forallb (λ ev, negb (setsBpm ev)) evs = true →
                      currentBpm (run s evs) = currentBpm s).
  { induction evs as [|ev evs IH]; intros s0 Hevs; [reflexivity |].
    cbn [forallb] in Hevs. apply andb_true_iff in Hevs as [Hev Hevs].
    change (run s0 (ev :: evs)) with (run (step s0 ev) evs).
    rewrite (IH _ Hevs). apply Hstep. now apply negb_true_iff. }
  intros Hevs. split; [now apply Hrun |].
  intros b Hsession Hb.
  change (run s (SettingsChanged (Some b) :: evs))
    with (run (step s (SettingsChanged (Some b))) evs).
  rewrite (Hrun _ Hevs).
  destruct s. cbn [session] in Hsession.
  destruct session0 as [|sid]; [contradiction |].
  unfold step, handle, handleSettingsChange, sessionCall. unfold_M.
  rewrite Hb. reflexivity.
Qed.

(** *** What reaches the session *)

Lemma step_sent s ev :
  ∃ new,
    effects (step s ev) = effects s ++ new ∧
    (length (sent new) ≤ 1)%nat ∧
    List.Forall (List.Forall nonZeroWeight) (sent new).
Proof.
  destruct s. cbn [effects].
  destruct ev; handler_cases;
    first [ exists []; split; [now rewrite app_nil_r |];
            split; [cbn; lia | constructor]
          | eexists; split; [cbn; rewrite <- ?app_assoc; reflexivity |];
            split; [cbn; lia |]; cbn;
            repeat first [ apply List.Forall_nil
                         | apply List.Forall_cons;
                           [apply payload_weights_and_order |] ] ].
Qed.

(** X12. Handling an event pushes at most one payload to the session, and
    over any run no payload pushed holds a prompt of weight 0. *)
Theorem pushed_payloads_nonzero (s : PromptDj) (ev : Event)
  (evs : list Event) :
  (length (sent (added s (step s ev))) ≤ 1)%nat ∧
  List.Forall (List.Forall nonZeroWeight) (sent (added s (run s evs))).
Proof.
  split.
  - destruct (step_sent s ev) as (new & Heff & Hlen & _).
    now rewrite (added_app _ _ _ Heff).
  - assert (H : ∃ new, effects (run s evs) = effects s ++ new ∧
                       List.Forall (List.Forall nonZeroWeight) (sent new)).
    { revert s. induction evs as [|ev' evs IH]; intros s.
      - exists []. split; [now rewrite app_nil_r | constructor].
      - change (run s (ev' :: evs)) with (run (step s ev') evs).
        destruct (step_sent s ev') as (new1 & Heff1 & _ & Hall1).
        destruct (IH (step s ev')) as (new & Heff & Hall).
        exists (new1 ++ new). split.
        + now rewrite Heff, Heff1, app_assoc.
        + rewrite sent_app. apply List.Forall_app. split; assumption. }
    destruct H as (new & Heff & Hall).
    now rewrite (added_app _ _ _ Heff).
Qed.
(** *** Editing the prompt map *)

(** X13. With a session open: a change for an id that is not in the map
    leaves the component as it is: nothing is pushed or dispatched. A
    change for an id in the map replaces the text and the weight of that
    prompt, keeps its id and colour, leaves every other prompt and the
    order of the map alone, pushes the new payload if the throttle lets
    it through, and dispatches the new map. *)
Theorem handlePromptChanged_spec (s : PromptDj) (id newText : string)
  (newWeight : Q) (nowMs : Z) :
  session s ≠ 0%nat →
  let s' := step s (PromptChanged id newText newWeight nowMs) in
  match map_get id (prompts s) with
  | None => s' = s
  | Some prompt =>
      map_get id (prompts s') =
        Some {| promptId := promptId prompt; color := color prompt;
                text := newText; weight := newWeight |} ∧
      (∀ k, k ≠ id → map_get k (prompts s') = map_get k (prompts s)) ∧
      map fst (prompts s') = map fst (prompts s) ∧
      added s s' =
        (if (200 <=? nowMs - lastCall s)%Z then
           [SetWeightedPrompts (session s)
              (promptsToSend (prompts s') (filteredPrompts s)
                 (sequencerGrid s) (sequencerWeight s))]
         else []) ++
        [DispatchPromptsChanged (prompts s')]
  end.
Proof.
  intros Hsession s'. subst s'. destruct s.
  cbn [prompts lastCall session filteredPrompts sequencerGrid
       sequencerWeight] in *.
  destruct (map_get id prompts0) as [prompt|] eqn:Hget.
  - unfold_handlers. rewrite Hget. handler_cases.
    all: try contradiction.
    all: split; [apply map_get_set_eq |].
    all: split; [intros k Hk; now apply map_get_set_ne |].
    all: split; [eapply map_set_keys_present; eassumption |].
    all: apply added_app; cbn; rewrite <- ?app_assoc; reflexivity.
  - unfold_handlers. rewrite Hget. reflexivity.
Qed.

(** X14. Removing an id that is not in the map leaves the component as it
    is. Removing an id of a map with distinct keys takes that prompt out,
    keeps every other prompt in place and in order, and dispatches the new
    map. *)
Theorem handlePromptRemoved_spec (s : PromptDj) (id : string) (nowMs : Z) :
  List.NoDup (map fst (prompts s)) →
  let s' := step s (PromptRemoved id nowMs) in
  match map_get id (prompts s) with
  | None => s' = s
  | Some prompt =>
      map_get id (prompts s') = None ∧
      (∀ k, k ≠ id → map_get k (prompts s') = map_get k (prompts s)) ∧
      sublist (prompts s') (prompts s) ∧
      S (length (prompts s')) = length (prompts s) ∧
      List.last (effects s') (CreateGain 0) =
        DispatchPromptsChanged (prompts s')
  end.
Proof.
  intros Hnd s'. subst s'. destruct s. cbn [prompts] in *.
  destruct (map_get id prompts0) as [prompt|] eqn:Hget.
  - unfold_handlers. unfold map_has. rewrite Hget. handler_cases.
    all: split; [now apply map_get_delete_eq |].
    all: split; [intros k Hk; now apply map_get_delete_ne |].
    all: split; [apply map_delete_sublist |].
    all: split; [eapply map_delete_length; eassumption |].
    all: cbn; rewrite ?List.last_last; reflexivity.
  - unfold_handlers. unfold map_has. rewrite Hget. reflexivity.
Qed.

Lemma step_idsBelow s ev :
  isFirstUpdated ev = false → idsBelow s → idsBelow (step s ev).
Proof.
  unfold idsBelow. destruct s. cbn [prompts nextPromptId].
  destruct ev; try discriminate; intros _ Hinv;
    handler_cases; try exact Hinv; intros k Hk;
    try fold (promptIdOf nextPromptId0) in Hk.
  all: first
    [ apply keys_of_delete in Hk; now apply Hinv
    | apply keys_of_set in Hk as [Hk | ->];
      [ destruct (Hinv k Hk) as (i & Hi & ->);
        exists i; split; [lia | reflexivity]
      | first [ apply Hinv; eapply map_get_Some_In; eassumption
              | exists nextPromptId0; split; [lia | reflexivity] ] ] ].
Qed.

Lemma run_idsBelow s evs :
  forallb (λ ev, negb (isFirstUpdated ev)) evs = true →
  idsBelow s → idsBelow (run s evs).
Proof.
  revert s. induction evs as [|ev evs IH]; intros s Hevs Hs; [exact Hs |].
  cbn [forallb] in Hevs. apply andb_true_iff in Hevs as [Hev Hevs].
  change (run s (ev :: evs)) with (run (step s ev) evs).
  apply IH; [assumption |]. apply step_idsBelow; [| assumption].
  now apply negb_true_iff.
Qed.

Lemma handleAddPrompt_prompts s c t :
  let s' := step s (AddPromptClick c t) in
  prompts s' =
    map_set (promptIdOf (nextPromptId s))
      {| promptId := promptIdOf (nextPromptId s); color := c;
         text := "New Prompt"; weight := 0 |} (prompts s) ∧
  nextPromptId s' = S (nextPromptId s).
Proof.
  destruct s. handler_cases; split; reflexivity.
Qed.

Lemma promptsToSend_zero_weight m k p F grid w :
  (weight p == 0)%Q →
  promptsToSend (m ++ [(k, p)]) F grid w = promptsToSend m F grid w.
Proof.
  intros Hz. unfold promptsToSend, map_values.
  rewrite map_app, List.filter_app. cbn [map snd List.filter].
  apply Qeq_bool_iff in Hz. rewrite Hz, andb_false_r, app_nil_r.
  reflexivity.
Qed.

(** X15. When the initial prompts have the ids [prompt-0], [prompt-1], ...
    that the application gives them, every prompt added after
    [firstUpdated] gets an id that is not in the map: it is appended to
    the map, replaces nothing, and, having weight 0, leaves the payload as
    it was. *)
Theorem add_never_overwrites (ps : PromptMap) (t0 : Z) (evs : list Event)
  (newColor : string) (nowMs : Z) :
  canonicalIds ps →
  forallb (λ ev, negb (isFirstUpdated ev)) evs = true →
  let s := run (initial ps) (FirstUpdated t0 :: evs) in
  let newId := promptIdOf (nextPromptId s) in
  let newPrompt :=
    {| promptId := newId; color := newColor; text := "New Prompt";
       weight := 0 |} in
  let s' := step s (AddPromptClick newColor nowMs) in
  map_get newId (prompts s) = None ∧
  prompts s' = prompts s ++ [(newId, newPrompt)] ∧
  nextPromptId s' = S (nextPromptId s) ∧
  promptsToSend (prompts s') (filteredPrompts s') (sequencerGrid s')
    (sequencerWeight s') =
  promptsToSend (prompts s) (filteredPrompts s) (sequencerGrid s)
    (sequencerWeight s).
Proof.
  intros Hcanon Hevs s newId newPrompt s'.
  assert (Hinv : idsBelow s).
  { subst s.
    change (run (initial ps) (FirstUpdated t0 :: evs))
      with (run (step (initial ps) (FirstUpdated t0)) evs).
    apply run_idsBelow; [assumption |].
    intros k Hk.
    assert (Hp : prompts (step (initial ps) (FirstUpdated t0)) = ps)
      by (unfold initial; handler_cases; reflexivity).
    assert (Hn : nextPromptId (step (initial ps) (FirstUpdated t0)) =
                 length ps)
      by (unfold initial; handler_cases; reflexivity).
    rewrite Hp, Hcanon in Hk. rewrite Hn.
    apply in_map_iff in Hk as (i & <- & Hi). apply in_seq in Hi.
    exists i. split; [lia | reflexivity]. }
  assert (Hfresh : map_get newId (prompts s) = None).
  { apply map_get_None. intros Hin.
    destruct (Hinv _ Hin) as (i & Hi & Heq).
    apply promptIdOf_inj in Heq. lia. }
  destruct (handleAddPrompt_prompts s newColor nowMs) as [Hp Hn].
  fold s' in Hp, Hn. fold newId in Hp. fold newPrompt in Hp.
  rewrite map_set_absent in Hp by assumption.
  split; [assumption |]. split; [assumption |]. split; [assumption |].
  assert (Hframe : filteredPrompts s' = filteredPrompts s ∧
                   sequencerGrid s' = sequencerGrid s ∧
                   sequencerWeight s' = sequencerWeight s).
  { subst s'. clear. destruct s. handler_cases; repeat split. }
  destruct Hframe as (-> & -> & ->). rewrite Hp.
  apply promptsToSend_zero_weight. reflexivity.
Qed.
End coverage.

(** ** Colours *)

Lemma randomElement_in {A} (array : list A) (random : Q) :
  unitInterval random → array ≠ [] →
  ∃ x, randomElement array random = Some x ∧ In x array.
Proof.
  intros [Hlo Hhi] Hne. unfold randomElement.
  set (n := Z.of_nat (length array)).
  assert (Hn : (0 < n)%Z) by (destruct array; [congruence | subst n; cbn; lia]).
  set (i := Qfloor (random * inject_Z n)).
  assert (Hnq : (inject_Z 0 < inject_Z n)%Q) by (rewrite <- Zlt_Qlt; exact Hn).
  change (inject_Z 0) with 0%Q in Hnq.
  assert (Hi0 : (0 ≤ i)%Z).
  { change 0%Z with (Qfloor 0). apply Qfloor_resp_le. nra. }
  assert (Hin : (i < n)%Z).
  { rewrite Zlt_Qlt. eapply Qle_lt_trans; [apply Qfloor_le |]. nra. }
  destruct (Z.ltb_spec i 0) as [Hneg | _]; [lia |].
  destruct (lookup_lt_is_Some_2 array (Z.to_nat i)) as [x Hx];
    [subst n; lia |].
  exists x. split; [exact Hx |].
  apply list_elem_of_In. eapply list_elem_of_lookup_2, Hx.
Qed.

Lemma includes_In usedColors c : includes usedColors c = true ↔ In c usedColors.
Proof.
  unfold includes. rewrite existsb_exists. split.
  - intros (x & Hx & Heq). apply String.eqb_eq in Heq. now subst.
  - intros H. exists c. split; [assumption | apply String.eqb_refl].
Qed.

(** X16. For a random value in [0, 1), [getUnusedRandomColor] returns one
    of the eight colours, and one that is not in use whenever some colour
    is not in use. *)
Theorem getUnusedRandomColor_spec (usedColors : list string) (random : Q) :
  unitInterval random →
  ∃ c, getUnusedRandomColor usedColors random = Some c ∧
       In c COLORS ∧
       ((∃ c', In c' COLORS ∧ ¬ In c' usedColors) → ¬ In c usedColors).
Proof.
  intros Hr. unfold getUnusedRandomColor.
  set (available := List.filter (λ c, negb (includes usedColors c)) COLORS).
  destruct available as [|a available'] eqn:Hav.
  - destruct (randomElement_in COLORS random Hr) as (c & Hc & Hin);
      [discriminate |].
    exists c. cbn [length Nat.eqb]. split; [exact Hc |].
    split; [exact Hin |].
    intros (c' & Hc' & Hfree). exfalso.
    assert (Hmem : In c' available).
    { subst available. apply filter_In. split; [assumption |].
      apply negb_true_iff, not_true_iff_false. now rewrite includes_In. }
    rewrite Hav in Hmem. destruct Hmem.
  - destruct (randomElement_in (a :: available') random Hr)
      as (c & Hc & Hin); [discriminate |].
    exists c. cbn [length Nat.eqb]. split; [exact Hc |].
    rewrite <- Hav in Hin. subst available.
    apply filter_In in Hin as [Hin Hfree].
    split; [exact Hin |]. intros _.
    apply negb_true_iff, not_true_iff_false in Hfree.
    now rewrite includes_In in Hfree.
Qed.

(** ** The initial prompts *)

Lemma COLORS_NoDup : List.NoDup COLORS.
Proof. repeat constructor; cbn; intuition discriminate. Qed.

Lemma unused_colour_exists usedColors :
  List.NoDup usedColors → incl usedColors COLORS →
  (length usedColors < length COLORS)%nat →
  ∃ c, In c COLORS ∧ ¬ In c usedColors.
Proof.
  intros Hnd Hincl Hlen.
  destruct (List.filter (λ c, negb (includes usedColors c)) COLORS)
    as [|c rest] eqn:Hav.
  - exfalso.
    assert (Hall : incl COLORS usedColors).
    { intros c Hc. destruct (includes usedColors c) eqn:Hi.
      - now apply includes_In.
      - assert (Hmem : In c (List.filter
                            (λ c, negb (includes usedColors c)) COLORS))
          by (apply filter_In; now rewrite Hi).
        rewrite Hav in Hmem. destruct Hmem. }
    pose proof (List.NoDup_incl_length COLORS_NoDup Hall). lia.
  - assert (Hmem : In c (List.filter
                           (λ c, negb (includes usedColors c)) COLORS))
      by (rewrite Hav; now left).
    apply filter_In in Hmem as [Hc Hfree]. exists c. split; [exact Hc |].
    apply negb_true_iff, not_true_iff_false in Hfree.
    now rewrite includes_In in Hfree.
Qed.

(** What the loop over the initial texts keeps true of the map built so
    far, after [i] texts. *)
Lemma initialPromptsFrom_spec random texts i (m : PromptMap) :
  (∀ j, unitInterval (random j)) →
  (i + length texts ≤ length COLORS)%nat →
  map fst m = map promptIdOf (seq 0 i) →
  List.NoDup (map color (map_values m)) →
  incl (map color (map_values m)) COLORS →
  let m' := initialPromptsFrom random texts i m in
  map fst m' = map promptIdOf (seq 0 (i + length texts)) ∧
  map text (map_values m') = map text (map_values m) ++ texts ∧
  map weight (map_values m') =
    map weight (map_values m) ++ repeat 0%Q (length texts) ∧
  map promptId (map_values m') =
    map promptId (map_values m) ++
    map promptIdOf (seq i (length texts)) ∧
  List.NoDup (map color (map_values m')) ∧
  incl (map color (map_values m')) COLORS.
Proof.
  intros Hr. revert i m.
  induction texts as [|newText texts IH]; intros i m Hlen Hkeys Hnd Hincl m'.
  - subst m'. cbn. rewrite Nat.add_0_r, !app_nil_r. repeat split; assumption.
  - subst m'. cbn [initialPromptsFrom length] in *.
    assert (Hm : length m = i).
    { rewrite <- (length_map fst m), Hkeys, length_map, length_seq.
      reflexivity. }
    assert (Hused : (length (map color (map_values m)) < length COLORS)%nat).
    { unfold map_values. rewrite !length_map, Hm. lia. }
    destruct (getUnusedRandomColor_spec (map color (map_values m))
                (random i) (Hr i)) as (c & Hc & HcIn & Hfree).
    specialize (Hfree (unused_colour_exists _ Hnd Hincl Hused)).
    assert (Hfresh : map_get (promptIdOf i) m = None).
    { apply map_get_None. rewrite Hkeys. intros Hin.
      apply in_map_iff in Hin as (j & Heq & Hj). apply in_seq in Hj.
      apply promptIdOf_inj in Heq. lia. }
    unfold addInitialPrompt. rewrite Hc. cbn [colorText default].
    rewrite (map_set_absent _ _ _ Hfresh).
    destruct (IH (S i)
                (m ++ [(promptIdOf i,
                        {| promptId := promptIdOf i; color := c;
                           text := newText; weight := 0 |})]))
      as (Hk & Ht & Hw & Hid & Hnd' & Hincl').
    + lia.
    + rewrite map_app, Hkeys. cbn [map fst].
      replace (S i) with (i + 1)%nat by lia.
      now rewrite seq_app, map_app.
    + unfold map_values. rewrite !map_app. cbn [map snd color].
      apply NoDup_ListNoDup, NoDup_app.
      split; [now apply NoDup_ListNoDup |]. split.
      * intros x Hx Hc'. apply list_elem_of_In in Hc' as [<- | []].
        apply Hfree. now apply list_elem_of_In.
      * apply NoDup_singleton.
    + unfold map_values. rewrite !map_app. cbn [map snd color].
      apply incl_app; [exact Hincl |]. intros x [<- | []]. exact HcIn.
    + unfold map_values in *. rewrite !map_app in Ht, Hw, Hid.
      cbn [map snd text weight promptId] in Ht, Hw, Hid.
      rewrite <- !app_assoc in Ht, Hw, Hid.
      replace (i + S (length texts))%nat with (S i + length texts)%nat
        by lia.
      repeat split; assumption.
Qed.

(** X17. The loop that builds the initial prompts, for at most eight
    texts and random values in [0, 1): the prompts get the ids [prompt-0],
    [prompt-1], ... as keys and as [promptId], keep the texts in order,
    all have weight 0, and get pairwise distinct colours out of the eight;
    so nothing of them is in the payload. *)
Theorem initial_prompts_spec (random : nat → Q) (texts : list string)
  (F : gset string) :
  (∀ j, unitInterval (random j)) →
  (length texts ≤ length COLORS)%nat →
  let ps := initialPromptsFrom random texts 0 [] in
  canonicalIds ps ∧
  map promptId (map_values ps) = map fst ps ∧
  map text (map_values ps) = texts ∧
  List.Forall (λ p, weight p = 0%Q) (map_values ps) ∧
  List.NoDup (map color (map_values ps)) ∧
  incl (map color (map_values ps)) COLORS ∧
  promptsToSend ps F initialGrid 0 = [].
Proof.
  intros Hr Hlen ps.
  destruct (initialPromptsFrom_spec random texts 0 [] Hr)
    as (Hk & Ht & Hw & Hid & Hnd & Hincl).
  - exact Hlen.
  - reflexivity.
  - constructor.
  - intros x [].
  - fold ps in Hk, Ht, Hw, Hid, Hnd, Hincl. cbn in Hk, Ht, Hw, Hid.
    assert (Hn : length ps = length texts).
    { rewrite <- (length_map fst ps), Hk, length_map, length_seq.
      reflexivity. }
    assert (Hweights : List.Forall (λ p, weight p = 0%Q) (map_values ps)).
    { apply List.Forall_forall. intros p Hp.
      assert (Hin : In (weight p) (map weight (map_values ps)))
        by now apply in_map.
      rewrite Hw in Hin. now apply repeat_spec in Hin. }
    split; [unfold canonicalIds; now rewrite Hn |].
    split; [now rewrite Hid, Hk |].
    split; [exact Ht |]. split; [exact Hweights |].
    split; [exact Hnd |]. split; [exact Hincl |].
    unfold promptsToSend. cbn [generateSequencerPrompt Qeq_bool].
    change (generateSequencerPrompt initialGrid 0) with "".
    cbn [truthy andb].
    clear -Hweights. generalize dependent (map_values ps). intros l Hweights.
    induction Hweights as [|p l Hp _ IH]; [reflexivity |].
    cbn [List.filter]. rewrite Hp. cbn [Qeq_bool].
    change (Qeq_bool 0 0) with true. rewrite andb_false_r. exact IH.
Qed.

(** ** The weight slider *)

Lemma clampTo_bounds hi x : (0 <= hi)%Q → (0 <= clampTo hi x <= hi)%Q.
Proof.
  intros Hhi. unfold clampTo.
  destruct (Q.max_spec 0 (Qmin hi x)) as [[Hlt ->] | [Hle ->]];
    destruct (Q.min_spec hi x) as [[Hlt' Hm] | [Hle' Hm]];
    rewrite ?Hm in *; lra.
Qed.

Lemma clampTo_inside hi x : (0 <= x <= hi)%Q → (clampTo hi x == x)%Q.
Proof.
  intros [Hlo Hhi]. unfold clampTo.
  destruct (Q.max_spec 0 (Qmin hi x)) as [[Hlt ->] | [Hle ->]];
    destruct (Q.min_spec hi x) as [[Hlt' Hm] | [Hle' Hm]];
    rewrite ?Hm in *; lra.
Qed.

Lemma clampTo_below hi x : (0 <= hi)%Q → (x <= 0)%Q → (clampTo hi x == 0)%Q.
Proof.
  intros Hhi Hx. unfold clampTo.
  destruct (Q.max_spec 0 (Qmin hi x)) as [[Hlt ->] | [Hle ->]];
    destruct (Q.min_spec hi x) as [[Hlt' Hm] | [Hle' Hm]];
    rewrite ?Hm in *; lra.
Qed.

Lemma clampTo_above hi x : (0 <= hi)%Q → (hi <= x)%Q → (clampTo hi x == hi)%Q.
Proof.
  intros Hhi Hx. unfold clampTo.
  destruct (Q.max_spec 0 (Qmin hi x)) as [[Hlt ->] | [Hle ->]];
    destruct (Q.min_spec hi x) as [[Hlt' Hm] | [Hle' Hm]];
    rewrite ?Hm in *; lra.
Qed.

Lemma clampTo_mono hi x y :
  (x <= y)%Q → (clampTo hi x <= clampTo hi y)%Q.
Proof.
  intros Hxy. unfold clampTo.
  apply Q.max_le_compat_l, Q.min_le_compat_l, Hxy.
Qed.

Lemma positionValue_range bounds clientY :
  (0 < rectHeight bounds)%Q →
  (0 <= positionValue bounds clientY <= 2)%Q.
Proof.
  intros Hh. unfold positionValue.
  set (h := rectHeight bounds) in *.
  pose proof (clampTo_bounds h (clientY - rectTop bounds)) as [Hlo Hhi];
    [lra |].
  set (m := clampTo h (clientY - rectTop bounds)) in *.
  assert (H0 : (0 <= m / h)%Q) by (apply Qle_shift_div_l; lra).
  assert (H1 : (m / h <= 1)%Q) by (apply Qle_shift_div_r; lra).
  lra.
Qed.

Lemma positionValue_anti bounds y1 y2 :
  (0 < rectHeight bounds)%Q → (y1 <= y2)%Q →
  (positionValue bounds y2 <= positionValue bounds y1)%Q.
Proof.
  intros Hh Hy. unfold positionValue.
  set (h := rectHeight bounds) in *.
  assert (Hm : (clampTo h (y1 - rectTop bounds) <=
                clampTo h (y2 - rectTop bounds))%Q)
    by (apply clampTo_mono; lra).
  assert (Hinv : (0 <= / h)%Q) by (apply Qinv_le_0_compat; lra).
  unfold Qdiv.
  pose proof (Qmult_le_compat_r _ _ (/ h) Hm Hinv). lra.
Qed.

Lemma updateValueFromPosition_bounds clientY bounds w :
  containerBounds w = Some bounds → (0 < rectHeight bounds)%Q →
  updateValueFromPosition clientY w =
  dispatchInputEvent (setValue (Some (positionValue bounds clientY)) w).
Proof.
  intros Hb Hh. unfold updateValueFromPosition. rewrite Hb.
  destruct (Qeq_bool (rectHeight bounds) 0) eqn:Hz.
  - apply Qeq_bool_iff in Hz. rewrite Hz in Hh.
    exfalso. revert Hh. apply Qlt_irrefl.
  - reflexivity.
Qed.

Lemma inRange_clampTo v : inRange (option_map (clampTo 2) v) ∨ v = None.
Proof.
  destruct v as [q|]; [left | now right].
  cbn. apply clampTo_bounds. lra.
Qed.

Lemma sliderStep_invariant w ev :
  inRange (value w) → boundsPositive w → positiveTrack ev →
  let w' := sliderStep w ev in
  inRange (value w') ∧ boundsPositive w' ∧
  ∃ new, inputEvents w' = inputEvents w ++ new ∧ List.Forall inRange new.
Proof.
  intros Hv Hb Hev w'. subst w'.
  assert (Hnone : ∃ new, inputEvents w = inputEvents w ++ new ∧
                         List.Forall inRange new)
    by (exists []; split; [now rewrite app_nil_r | constructor]).
  assert (Hmove : ∀ clientY,
            inRange (value (updateValueFromPosition clientY w)) ∧
            boundsPositive (updateValueFromPosition clientY w) ∧
            ∃ new, inputEvents (updateValueFromPosition clientY w) =
                     inputEvents w ++ new ∧ List.Forall inRange new).
  { intros clientY. unfold boundsPositive in Hb.
    destruct (containerBounds w) as [bounds|] eqn:Hcb.
    - rewrite (updateValueFromPosition_bounds _ bounds) by assumption.
      unfold boundsPositive. cbn. rewrite Hcb.
      pose proof (positionValue_range bounds clientY Hb).
      split; [assumption |]. split; [assumption |].
      eexists. split; [reflexivity |]. now repeat constructor.
    - unfold updateValueFromPosition. rewrite Hcb.
      unfold boundsPositive. rewrite Hcb. repeat split; assumption. }
  destruct ev as [clientY bounds | clientY | clientY | | deltaY];
    cbn [sliderStep positiveTrack] in *.
  - unfold handlePointerDown.
    rewrite (updateValueFromPosition_bounds _ bounds) by (assumption || reflexivity).
    unfold boundsPositive. cbn.
    pose proof (positionValue_range bounds clientY Hev).
    split; [assumption |]. split; [assumption |].
    eexists. split; [reflexivity |]. now repeat constructor.
  - destruct (pointermoveListener w); [apply Hmove | now repeat split].
  - destruct (touchmoveListener w); [apply Hmove | now repeat split].
  - destruct (pointerupListener w); [| now repeat split].
    unfold handlePointerUp, boundsPositive. cbn. now repeat split.
  - unfold handleWheel, boundsPositive in *. cbn.
    destruct (value w) as [q|]; [| destruct Hv]. cbn.
    pose proof (clampTo_bounds 2 (q + deltaY * -0.005)) as Hc.
    split; [apply Hc; lra |]. split; [assumption |].
    eexists. split; [reflexivity |].
    constructor; [| constructor]. cbn. apply Hc. lra.
Qed.

(** X18. Starting from a value between 0 and 2, with tracks of positive
    height, whatever the pointer, touch and wheel events: the value of the
    slider stays between 0 and 2 and so does the detail of every [input]
    event it dispatches. *)
Theorem slider_value_in_range (w : WeightSlider) (evs : list SliderEvent) :
  inRange (value w) → boundsPositive w →
  List.Forall positiveTrack evs →
  let w' := sliderRun w evs in
  inRange (value w') ∧
  ∃ new, inputEvents w' = inputEvents w ++ new ∧ List.Forall inRange new.
Proof.
  intros Hv Hb Hevs. revert w Hv Hb.
  induction Hevs as [|ev evs Hev _ IH]; intros w Hv Hb w'.
  - subst w'. cbn. split; [assumption |].
    exists []. split; [now rewrite app_nil_r | constructor].
  - subst w'. cbn [sliderRun fold_left].
    destruct (sliderStep_invariant w ev Hv Hb Hev) as (Hv1 & Hb1 & new1 & He1 & Hall1).
    destruct (IH _ Hv1 Hb1) as (Hv' & new & He & Hall).
    split; [exact Hv' |].
    exists (new1 ++ new). split.
    + unfold sliderRun in He. now rewrite He, He1, app_assoc.
    + apply List.Forall_app. split; assumption.
Qed.

(** X19. Once the pointer is released, pointer and touch moves change
    nothing and dispatch nothing until the next pointer down: the
    [pointermove] listener is gone and the bounds are cleared. The
    [touchmove] listener stays registered. *)
Theorem moves_after_release (w : WeightSlider) (evs : list SliderEvent) :
  pointerupListener w = true →
  forallb isMove evs = true →
  let released := sliderStep w WindowPointerUp in
  sliderRun released evs = released ∧
  value released = value w ∧
  inputEvents released = inputEvents w ∧
  pointermoveListener released = false ∧
  touchmoveListener released = touchmoveListener w.
Proof.
  intros Hup Hevs released. subst released.
  cbn [sliderStep]. rewrite Hup.
  split; [| now repeat split].
  set (r := handlePointerUp w).
  assert (Hr : containerBounds r = None ∧ pointermoveListener r = false)
    by now split.
  clearbody r. destruct Hr as [Hb Hl].
  induction evs as [|ev evs IH]; [reflexivity |].
  cbn [forallb] in Hevs. apply andb_true_iff in Hevs as [Hev Hevs].
  cbn [sliderRun fold_left].
  assert (Hstep : sliderStep r ev = r).
  { destruct ev; try discriminate; cbn [sliderStep].
    - now rewrite Hl.
    - destruct (touchmoveListener r); [| reflexivity].
      unfold handleTouchMove, updateValueFromPosition. now rewrite Hb. }
  rewrite Hstep. now apply IH.
Qed.

(** X20. During a drag on a track of positive height the value follows the
    pointer: 2 at or above the top of the track, 0 at or below its bottom,
    in between twice the share of the track below the pointer, and never
    larger for a lower pointer; each position dispatches one [input] event
    carrying the value. *)
Theorem value_follows_pointer (w : WeightSlider) (bounds : DOMRect)
  (clientY : Q) :
  containerBounds w = Some bounds →
  (0 < rectHeight bounds)%Q →
  let top := rectTop bounds in
  let h := rectHeight bounds in
  let w' := updateValueFromPosition clientY w in
  value w' = Some (positionValue bounds clientY) ∧
  inputEvents w' = inputEvents w ++ [value w'] ∧
  ((clientY <= top)%Q → (positionValue bounds clientY == 2)%Q) ∧
  ((top + h <= clientY)%Q → (positionValue bounds clientY == 0)%Q) ∧
  ((top <= clientY <= top + h)%Q →
   (positionValue bounds clientY == 2 * (1 - (clientY - top) / h))%Q) ∧
  (∀ lower, (clientY <= lower)%Q →
            (positionValue bounds lower <= positionValue bounds clientY)%Q).
Proof.
  intros Hb Hh top h w'. subst w'.
  rewrite (updateValueFromPosition_bounds _ bounds) by assumption.
  split; [reflexivity |]. split; [reflexivity |].
  assert (Hhne : ¬ (h == 0)%Q) by (subst h; lra).
  unfold positionValue. fold top h.
  split; [| split; [| split]].
  - intros Hy. rewrite (clampTo_below h) by (subst h; lra).
    unfold Qdiv. lra.
  - intros Hy. rewrite (clampTo_above h) by (subst h; lra).
    unfold Qdiv. rewrite Qmult_inv_r by assumption. lra.
  - intros Hy. rewrite (clampTo_inside h) by (subst h; lra). lra.
  - intros lower Hl. now apply positionValue_anti.
Qed.

(** ** The beat sequencer *)






Lemma BeatSequencer_updatePlaybackIndicator_step s :
  BeatSequencer.currentStep (BeatSequencer.updatePlaybackIndicator s) =
    BeatSequencer.currentStep s ∨
  BeatSequencer.currentStep (BeatSequencer.updatePlaybackIndicator s) =
    (-1)%Z.
Proof.
  unfold BeatSequencer.updatePlaybackIndicator.
  destruct (BeatSequencer.truthyInterval (BeatSequencer.stepInterval s));
    match goal with
    | |- context [if ?c then _ else _] => destruct c
    end; cbn; tauto.
Qed.

Lemma BeatSequencer_step_playhead s ev :
  (-1 ≤ BeatSequencer.currentStep s ≤ 15)%Z →
  (-1 ≤ BeatSequencer.currentStep (BeatSequencer.step s ev) ≤ 15)%Z.
Proof.
  intros Hr. destruct ev; cbn [BeatSequencer.step].
  - unfold BeatSequencer.setProperties, BeatSequencer.updated.
    match goal with
    | |- context [if ?c then _ else _] => destruct c
    end; [| exact Hr].
    match goal with
    | |- context [BeatSequencer.updatePlaybackIndicator ?x] =>
        destruct (BeatSequencer_updatePlaybackIndicator_step x) as [-> | ->]
    end; [exact Hr | lia].
  - unfold BeatSequencer.disconnectedCallback.
    destruct (BeatSequencer.truthyInterval _); exact Hr.
  - destruct (existsb _ _); [| exact Hr].
    cbn. unfold BeatSequencer.numSteps.
    pose proof (Z.rem_bound_pos (BeatSequencer.currentStep s + 1) 16).
    lia.
  - unfold BeatSequencer.handleStepClick.
    destruct (BeatSequencer.grid s !! trackIndex) as [track|];
      [| exact Hr].
    destruct (track !! stepIndex); exact Hr.
  - unfold BeatSequencer.handlePresetChange.
    destruct (BeatSequencer.lookupPreset _ _); exact Hr.
  - exact Hr.
  - exact Hr.
Qed.

(** X22. The playhead [currentStep] is always -1 or a step from 0 to 15.
    Each firing of the interval moves it one step further, from 15 and
    from -1 to 0; a change of the state to anything but [playing] puts it
    back to -1. *)
Theorem BeatSequencer_playhead (g : list (list Z)) (w : Q)
  (st : PlaybackState) (b : Q) (evs : list BeatSequencer.Event) :
  let s := BeatSequencer.run (BeatSequencer.connected g w st b) evs in
  (-1 ≤ BeatSequencer.currentStep s ≤ 15)%Z ∧
  BeatSequencer.currentStep (BeatSequencer.tick s) =
    ((BeatSequencer.currentStep s + 1) mod 16)%Z ∧
  (∀ newState newBpm,
     newState ≠ playing → newState ≠ BeatSequencer.playbackState s →
     BeatSequencer.currentStep
       (BeatSequencer.setProperties newState newBpm s) = (-1)%Z).
Proof.
  intros s.
  assert (Hr : (-1 ≤ BeatSequencer.currentStep s ≤ 15)%Z).
  { subst s.
    assert (H : ∀ s0, (-1 ≤ BeatSequencer.currentStep s0 ≤ 15)%Z →
                (-1 ≤ BeatSequencer.currentStep (BeatSequencer.run s0 evs)
                 ≤ 15)%Z).
    { induction evs as [|ev evs IH]; intros s0 H0; [exact H0 |].
      cbn [BeatSequencer.run fold_left].
      apply IH, BeatSequencer_step_playhead, H0. }
    apply H. unfold BeatSequencer.connected, BeatSequencer.updated.
    cbn [orb].
    match goal with
    | |- context [BeatSequencer.updatePlaybackIndicator ?x] =>
        destruct (BeatSequencer_updatePlaybackIndicator_step x) as [-> | ->]
    end; cbn; lia. }
  split; [exact Hr |]. split.
  - cbn. unfold BeatSequencer.numSteps. apply Z.rem_mod_nonneg; lia.
  - intros newState newBpm Hnp Hne.
    unfold BeatSequencer.setProperties, BeatSequencer.updated.
    rewrite bool_decide_eq_false_2 by assumption. cbn [negb orb].
    unfold BeatSequencer.updatePlaybackIndicator.
    destruct (BeatSequencer.truthyInterval _); cbn;
      rewrite bool_decide_eq_false_2 by assumption; reflexivity.
Qed.

Lemma cellAt_insert_eq g t i track c :
  g !! t = Some track → (i < length track)%nat →
  cellAt (<[t := <[i := c]> track]> g) t i = Some c.
Proof.
  intros Ht Hi. unfold cellAt.
  rewrite list_lookup_insert_eq by (eapply lookup_lt_Some; eassumption).
  now apply list_lookup_insert_eq.
Qed.

Lemma cellAt_insert_ne g t i t' i' track c :
  g !! t = Some track → (t', i') ≠ (t, i) →
  cellAt (<[t := <[i := c]> track]> g) t' i' = cellAt g t' i'.
Proof.
  intros Ht Hne. unfold cellAt.
  destruct (decide (t' = t)) as [-> | Htt].
  - rewrite list_lookup_insert_eq by (eapply lookup_lt_Some; eassumption).
    rewrite Ht. apply list_lookup_insert_ne. congruence.
  - now rewrite list_lookup_insert_ne by congruence.
Qed.

(** X23. A click on a cell of the grid sets the cell to 0 if it was 1 and
    to 1 otherwise, leaves every other cell and the length of every track
    as they were, and dispatches one [sequencer-changed] event with the
    new grid; a second click on the same cell restores a grid of cells 0
    and 1. *)
Theorem handleStepClick_toggles (s : BeatSequencer.State) (t i : nat)
  (cell : Z) :
  cellAt (BeatSequencer.grid s) t i = Some cell →
  ∃ s',
    BeatSequencer.handleStepClick t i s = Some s' ∧
    cellAt (BeatSequencer.grid s') t i =
      Some (if Z.eqb cell 1 then 0 else 1)%Z ∧
    (∀ t' i', (t', i') ≠ (t, i) →
       cellAt (BeatSequencer.grid s') t' i' =
       cellAt (BeatSequencer.grid s) t' i') ∧
    map length (BeatSequencer.grid s') = map length (BeatSequencer.grid s) ∧
    BeatSequencer.changes s' =
      BeatSequencer.changes s ++
        [(BeatSequencer.grid s', BeatSequencer.weight s)] ∧
    (cell = 0%Z ∨ cell = 1%Z →
     ∃ s'', BeatSequencer.handleStepClick t i s' = Some s'' ∧
            BeatSequencer.grid s'' = BeatSequencer.grid s).
Proof.
  unfold cellAt. intros Hcell.
  destruct (BeatSequencer.grid s !! t) as [track|] eqn:Ht; [| discriminate].
  assert (Hi : (i < length track)%nat) by (eapply lookup_lt_Some; eassumption).
  assert (Hlt : (t < length (BeatSequencer.grid s))%nat)
    by (eapply lookup_lt_Some; eassumption).
  unfold BeatSequencer.handleStepClick. rewrite Ht, Hcell.
  eexists. split; [reflexivity |]. cbn [BeatSequencer.grid
    BeatSequencer.changes BeatSequencer.weight BeatSequencer.dispatchChange
    BeatSequencer.set_grid].
  split; [now apply cellAt_insert_eq |].
  split; [intros t' i' Hne; now apply cellAt_insert_ne |].
  split.
  { apply list_eq. intros k. rewrite !list_lookup_fmap.
    destruct (decide (k = t)) as [-> | Hk].
    - rewrite list_lookup_insert_eq by assumption. rewrite Ht. cbn.
      now rewrite length_insert.
    - now rewrite list_lookup_insert_ne by congruence. }
  split; [reflexivity |].
  intros Hbin. rewrite list_lookup_insert_eq by assumption.
  rewrite list_lookup_insert_eq by assumption.
  eexists. split; [reflexivity |]. cbn.
  rewrite list_insert_insert_eq, list_insert_insert_eq.
  assert (Hback : (if Z.eqb (if Z.eqb cell 1 then 0 else 1) 1 then 0 else 1)%Z
                  = cell)
    by (destruct Hbin as [-> | ->]; reflexivity).
  rewrite Hback, (list_insert_id track i cell Hcell).
  now apply list_insert_id.
Qed.

Lemma wellShaped_presets name preset :
  BeatSequencer.lookupPreset name BeatSequencer.presets = Some preset →
  BeatSequencer.wellShaped preset.
Proof.
  intros Hp.
  assert (Hin : In preset (map snd BeatSequencer.presets)).
  { revert Hp. generalize BeatSequencer.presets.
    induction l as [|[k g] l IH]; cbn; [discriminate |].
    destruct (String.eqb name k); [intros [= <-]; now left | auto]. }
  assert (Hall : List.Forall BeatSequencer.wellShaped
                   (map snd BeatSequencer.presets)).
  { cbn.
    repeat first
      [ apply List.Forall_nil
      | apply List.Forall_cons
      | split
      | reflexivity
      | (left; reflexivity)
      | (right; reflexivity) ]. }
  eapply List.Forall_forall in Hall; eauto.
Qed.

Lemma wellShaped_click g t i track cell :
  BeatSequencer.wellShaped g →
  g !! t = Some track → track !! i = Some cell →
  BeatSequencer.wellShaped
    (<[t := <[i := (if Z.eqb cell 1 then 0 else 1)%Z]> track]> g).
Proof.
  intros [Hlen Hall] Ht Hi. split; [now rewrite length_insert |].
  apply Forall_insert; [exact Hall |].
  assert (Htrack : length track = 16%nat ∧
                   List.Forall (λ c, c = 0%Z ∨ c = 1%Z) track).
  { eapply List.Forall_forall in Hall; [exact Hall |].
    apply list_elem_of_In. eapply list_elem_of_lookup_2, Ht. }
  destruct Htrack as [Hl Hcells].
  split; [now rewrite length_insert |].
  apply Forall_insert; [exact Hcells |].
  destruct (Z.eqb cell 1); [now left | now right].
Qed.

Lemma wellShaped_randomize random g :
  BeatSequencer.wellShaped g →
  BeatSequencer.wellShaped
    (imap (λ t track,
             imap (λ i _, if Qltb (random t i) 0.25 then 1%Z else 0%Z) track)
       g).
Proof.
  intros [Hlen Hall]. split; [now rewrite length_imap |].
  apply List.Forall_forall. intros track' Hin.
  apply list_elem_of_In, elem_of_lookup_imap in Hin
    as (t & track & -> & Ht).
  assert (Htrack : length track = 16%nat).
  { eapply List.Forall_forall in Hall;
      [apply Hall | apply list_elem_of_In; eapply list_elem_of_lookup_2, Ht]. }
  split; [now rewrite length_imap |].
  apply List.Forall_forall. intros c Hc.
  apply list_elem_of_In, elem_of_lookup_imap in Hc as (i & c0 & -> & _).
  destruct (Qltb (random t i) 0.25); [now right | now left].
Qed.

Lemma BeatSequencer_step_shape s ev :
  BeatSequencer.wellShaped (BeatSequencer.grid s) →
  List.Forall (λ c, BeatSequencer.wellShaped (fst c))
    (BeatSequencer.changes s) →
  BeatSequencer.wellShaped (BeatSequencer.grid (BeatSequencer.step s ev)) ∧
  List.Forall (λ c, BeatSequencer.wellShaped (fst c))
    (BeatSequencer.changes (BeatSequencer.step s ev)).
Proof.
  intros Hg Hc.
  assert (Hdisp : ∀ g', BeatSequencer.wellShaped g' →
            List.Forall (λ c, BeatSequencer.wellShaped (fst c))
              (BeatSequencer.changes s ++ [(g', BeatSequencer.weight s)])).
  { intros g' Hg'. apply List.Forall_app. split; [exact Hc |].
    apply List.Forall_cons; [exact Hg' | apply List.Forall_nil]. }
  destruct ev; cbn [BeatSequencer.step].
  - unfold BeatSequencer.setProperties, BeatSequencer.updated,
      BeatSequencer.updatePlaybackIndicator.
    repeat match goal with
           | |- context [if ?c then _ else _] => destruct c
           | |- context [match BeatSequencer.truthyInterval ?x with _ => _ end] =>
               destruct (BeatSequencer.truthyInterval x)
           end; cbn; split; assumption.
  - unfold BeatSequencer.disconnectedCallback.
    destruct (BeatSequencer.truthyInterval _); cbn; split; assumption.
  - destruct (existsb _ _); cbn; split; assumption.
  - unfold BeatSequencer.handleStepClick.
    destruct (BeatSequencer.grid s !! trackIndex) as [track|] eqn:Ht;
      [| split; assumption].
    destruct (track !! stepIndex) as [cell|] eqn:Hi; [| split; assumption].
    cbn. pose proof (wellShaped_click _ _ _ _ _ Hg Ht Hi) as Hw.
    split; [exact Hw | now apply Hdisp].
  - unfold BeatSequencer.handlePresetChange.
    destruct (BeatSequencer.lookupPreset _ _) as [preset|] eqn:Hp;
      [| split; assumption].
    cbn. rewrite map_id. apply wellShaped_presets in Hp.
    split; [exact Hp | now apply Hdisp].
  - cbn. pose proof (wellShaped_randomize random _ Hg) as Hw.
    split; [exact Hw | now apply Hdisp].
  - cbn. split; [exact Hg |].
    apply List.Forall_app. split; [exact Hc |].
    apply List.Forall_cons; [exact Hg | apply List.Forall_nil].
Qed.

(** X24. A grid of six tracks of sixteen cells, each 0 or 1, stays one
    under clicks on its cells, presets and randomizing, and every
    [sequencer-changed] event carries such a grid. *)
Theorem BeatSequencer_grid_shape (g : list (list Z)) (w : Q)
  (st : PlaybackState) (b : Q) (evs : list BeatSequencer.Event) :
  BeatSequencer.wellShaped g →
  List.Forall BeatSequencer.clickOnCell evs →
  let s := BeatSequencer.run (BeatSequencer.connected g w st b) evs in
  BeatSequencer.wellShaped (BeatSequencer.grid s) ∧
  List.Forall (λ c, BeatSequencer.wellShaped (fst c))
    (BeatSequencer.changes s).
Proof.
  intros Hg _ s. subst s.
  assert (H : ∀ s0,
            BeatSequencer.wellShaped (BeatSequencer.grid s0) →
            List.Forall (λ c, BeatSequencer.wellShaped (fst c))
              (BeatSequencer.changes s0) →
            BeatSequencer.wellShaped
              (BeatSequencer.grid (BeatSequencer.run s0 evs)) ∧
            List.Forall (λ c, BeatSequencer.wellShaped (fst c))
              (BeatSequencer.changes (BeatSequencer.run s0 evs))).
  { induction evs as [|ev evs IH]; intros s0 H0 H1; [now split |].
    cbn [BeatSequencer.run fold_left].
    destruct (BeatSequencer_step_shape s0 ev H0 H1) as [H0' H1'].
    now apply IH. }
  apply H.
  - unfold BeatSequencer.connected, BeatSequencer.updated,
      BeatSequencer.updatePlaybackIndicator. cbn.
    match goal with
    | |- context [if ?c then _ else _] => destruct c
    end; exact Hg.
  - unfold BeatSequencer.connected, BeatSequencer.updated,
      BeatSequencer.updatePlaybackIndicator. cbn.
    match goal with
    | |- context [if ?c then _ else _] => destruct c
    end; constructor.
Qed.

Lemma activeTracksFrom_flagged start grid :
  activeTracksFrom start grid = flagged start (map hasNotes grid).
Proof.
  revert start. induction grid as [|track grid IH]; intros start;
    [reflexivity |].
  rewrite activeTracksFrom_cons. cbn [map flagged]. now rewrite IH.
Qed.

Lemma allFlags_complete n flags : length flags = n → In flags (allFlags n).
Proof.
  revert flags. induction n as [|n IH]; intros [|b flags] Hlen;
    try discriminate; [now left |].
  cbn [allFlags]. apply in_flat_map. exists flags. split.
  - apply IH. now injection Hlen.
  - destruct b; cbn; tauto.
Qed.

(** The sixty-four texts for six tracks are pairwise different. *)
Lemma patternText_injective :
  forallb
    (λ a, forallb
            (λ b, implb (String.eqb (patternText a) (patternText b))
                        (bool_decide (a = b)))
            (allFlags (length instruments)))
    (allFlags (length instruments)) = true.
Proof. vm_compute. reflexivity. Qed.

(** X25. For grids of six tracks and a weight that is not 0, the text
    [generateSequencerPrompt] returns tells which tracks have a note and
    nothing else: two grids get the same text exactly when the same tracks
    have a note, and then the payload is the same, whatever the steps. *)
Theorem sequencer_prompt_ignores_pattern (g1 g2 : list (list Z)) (w : Q) :
  length g1 = length instruments → length g2 = length instruments →
  Qeq_bool w 0 = false →
  (generateSequencerPrompt g1 w = generateSequencerPrompt g2 w ↔
   map hasNotes g1 = map hasNotes g2) ∧
  (map hasNotes g1 = map hasNotes g2 →
   ∀ ps F, promptsToSend ps F g1 w = promptsToSend ps F g2 w).
Proof.
  intros H1 H2 Hw.
  assert (Htext : ∀ g, generateSequencerPrompt g w =
                       patternText (map hasNotes g)).
  { intros g. rewrite generateSequencerPrompt_spec, Hw.
    unfold activeTracks, patternText. rewrite activeTracksFrom_flagged.
    now destruct (flagged 0 (map hasNotes g)). }
  assert (Hfwd : map hasNotes g1 = map hasNotes g2 →
                 generateSequencerPrompt g1 w = generateSequencerPrompt g2 w).
  { intros Heq. now rewrite !Htext, Heq. }
  split; [split; [| exact Hfwd] |].
  - rewrite !Htext. intros Heq.
    assert (Hin1 : In (map hasNotes g1) (allFlags (length instruments))).
    { apply allFlags_complete. now rewrite length_map. }
    assert (Hin2 : In (map hasNotes g2) (allFlags (length instruments))).
    { apply allFlags_complete. now rewrite length_map. }
    pose proof patternText_injective as Hinj.
    rewrite forallb_forall in Hinj. specialize (Hinj _ Hin1).
    rewrite forallb_forall in Hinj. specialize (Hinj _ Hin2).
    apply String.eqb_eq in Heq. rewrite Heq in Hinj.
    now apply bool_decide_eq_true in Hinj.
  - intros Heq ps F. unfold promptsToSend. now rewrite (Hfwd Heq).
Qed.

(** ** The settings panel *)

Lemma SettingsController_get_insert_eq k v (c : gmap string SettingsController.Value) :
  SettingsController.get k (<[k := v]> c) = v.
Proof. unfold SettingsController.get. now rewrite lookup_insert_eq. Qed.

Lemma SettingsController_get_insert_ne k k' v
  (c : gmap string SettingsController.Value) :
  k' ≠ k →
  SettingsController.get k (<[k' := v]> c) = SettingsController.get k c.
Proof.
  intros H. unfold SettingsController.get. now rewrite lookup_insert_ne.
Qed.

Lemma SettingsController_isDefined_false v :
  SettingsController.isDefined v = false → v = SettingsController.VUndefined.
Proof. now destruct v. Qed.

Ltac settings_get :=
  repeat first
    [ rewrite SettingsController_get_insert_eq
    | rewrite SettingsController_get_insert_ne by congruence ].

(** Unfolds the handler and splits on the key of the input. *)
Ltac settings_input key :=
  unfold SettingsController.handleInputChange; cbv zeta;
  destruct (String.eqb_spec key "auto-density");
  [| destruct (String.eqb_spec key "auto-brightness")];
  try subst key;
  cbn [SettingsController.dispatchSettingsChange SettingsController.config
       SettingsController.lastDefinedDensity
       SettingsController.lastDefinedBrightness
       SettingsController.autoDensity SettingsController.autoBrightness
       SettingsController.dispatched SettingsController.showAdvanced].

Ltac settings_cases :=
  settings_get;
  repeat match goal with
    | |- context [SettingsController.isDefined ?v] =>
        let E := fresh "E" in
        destruct (SettingsController.isDefined v) eqn:E;
        [| apply SettingsController_isDefined_false in E]
    | |- context [SettingsController.toBoolean ?v] =>
        destruct (SettingsController.toBoolean v)
    end.

Lemma SettingsController_step_remembered s ev :
  SettingsController.remembered s →
  SettingsController.remembered (SettingsController.step s ev).
Proof.
  unfold SettingsController.remembered. intros [Hd Hb].
  destruct ev as [key target | |]; cbn [SettingsController.step].
  - settings_input key.
    + settings_cases; split; first [now left | now right | assumption].
    + settings_cases; split; first [now left | now right | assumption].
    + destruct (decide (key = "density")) as [-> | Hkd];
        [| destruct (decide (key = "brightness")) as [-> | Hkb]];
        settings_cases; split; first [now left | now right | assumption].
  - cbn. split; now left.
  - cbn. split; assumption.
Qed.

Lemma SettingsController_step_last s ev :
  List.last (SettingsController.dispatched s) SettingsController.defaultConfig =
    SettingsController.config s →
  List.last (SettingsController.dispatched (SettingsController.step s ev))
    SettingsController.defaultConfig =
    SettingsController.config (SettingsController.step s ev).
Proof.
  intros H. destruct ev as [key target | |]; cbn [SettingsController.step].
  - settings_input key; apply last_last.
  - cbn. apply last_last.
  - exact H.
Qed.

(** X26. The panel and its parent agree: the density and the brightness
    of the configuration, when defined, are the values the sliders show,
    and the configuration is the one sent last (the default one when none
    was sent). *)
Theorem SettingsController_panel_agrees (evs : list SettingsController.Event) :
  let s := SettingsController.run SettingsController.initial evs in
  SettingsController.remembered s ∧
  List.last (SettingsController.dispatched s) SettingsController.defaultConfig =
    SettingsController.config s.
Proof.
  cbv zeta.
  assert (H : ∀ s,
            SettingsController.remembered s →
            List.last (SettingsController.dispatched s)
              SettingsController.defaultConfig = SettingsController.config s →
            SettingsController.remembered (SettingsController.run s evs) ∧
            List.last (SettingsController.dispatched
                         (SettingsController.run s evs))
              SettingsController.defaultConfig =
              SettingsController.config (SettingsController.run s evs)).
  { induction evs as [|ev evs IH]; intros s H1 H2; [now split |].
    cbn [SettingsController.run fold_left]. apply IH.
    - now apply SettingsController_step_remembered.
    - now apply SettingsController_step_last. }
  apply H; [split; now left | reflexivity].
Qed.

Lemma SettingsController_leaves_cons k ks ev :
  SettingsController.leaves (k :: ks) ev = true →
  SettingsController.leaves ks ev = true ∧
  ∀ key target, ev = SettingsController.InputChange key target → key ≠ k.
Proof.
  destruct ev as [key target | |]; cbn; try (intros; split; congruence).
  intros H. apply negb_true_iff, orb_false_iff in H as [Hk Hks].
  split; [now rewrite Hks |].
  intros ? ? [= <- <-] ->. now rewrite String.eqb_refl in Hk.
Qed.

Lemma SettingsController_step_auto a d s ev :
  SettingsController.leaves
    [SettingsController.fieldKey a; SettingsController.autoKey a] ev = true →
  SettingsController.autoFlag a s = true →
  SettingsController.get (SettingsController.fieldKey a)
    (SettingsController.config s) = SettingsController.VUndefined →
  SettingsController.lastDefined a s = d →
  let s' := SettingsController.step s ev in
  SettingsController.autoFlag a s' = true ∧
  SettingsController.get (SettingsController.fieldKey a)
    (SettingsController.config s') = SettingsController.VUndefined ∧
  SettingsController.lastDefined a s' = d ∧
  ∃ sent,
    SettingsController.dispatched s' = SettingsController.dispatched s ++ sent ∧
    List.Forall
      (λ c, SettingsController.get (SettingsController.fieldKey a) c =
            SettingsController.VUndefined) sent.
Proof.
  intros Hev Hflag Hget Hlast.
  destruct ev as [key target | |]; cbv zeta; cbn [SettingsController.step].
  - apply SettingsController_leaves_cons in Hev as [Hev Hfield].
    apply SettingsController_leaves_cons in Hev as [_ Hauto].
    specialize (Hfield key target eq_refl).
    specialize (Hauto key target eq_refl).
    destruct a;
      cbn [SettingsController.fieldKey SettingsController.autoKey
           SettingsController.autoFlag SettingsController.lastDefined] in *;
      settings_input key; try congruence; settings_get; rewrite ?Hget;
      cbn [SettingsController.isDefined].
      all: split; [assumption |]; split; [reflexivity |];
        split; [assumption |];
        eexists; (split; [reflexivity |]);
        (apply List.Forall_cons; [| apply List.Forall_nil]);
        settings_get; assumption.
  - discriminate.
  - cbn. repeat split; try (destruct a; assumption).
    exists []. split; [now rewrite app_nil_r | constructor].
Qed.

Lemma SettingsController_run_auto a d evs : ∀ s,
  forallb (SettingsController.leaves
             [SettingsController.fieldKey a; SettingsController.autoKey a])
    evs = true →
  SettingsController.autoFlag a s = true →
  SettingsController.get (SettingsController.fieldKey a)
    (SettingsController.config s) = SettingsController.VUndefined →
  SettingsController.lastDefined a s = d →
  let s' := SettingsController.run s evs in
  SettingsController.autoFlag a s' = true ∧
  SettingsController.get (SettingsController.fieldKey a)
    (SettingsController.config s') = SettingsController.VUndefined ∧
  SettingsController.lastDefined a s' = d ∧
  ∃ sent,
    SettingsController.dispatched s' = SettingsController.dispatched s ++ sent ∧
    List.Forall
      (λ c, SettingsController.get (SettingsController.fieldKey a) c =
            SettingsController.VUndefined) sent.
Proof.
  induction evs as [|ev evs IH]; intros s Hevs Hflag Hget Hlast; cbv zeta.
  - cbn. repeat split; try assumption.
    exists []. split; [now rewrite app_nil_r | constructor].
  - cbn [forallb] in Hevs. apply andb_true_iff in Hevs as [Hev Hevs].
    destruct (SettingsController_step_auto a d s ev Hev Hflag Hget Hlast)
      as (Hflag' & Hget' & Hlast' & sent1 & Hsent1 & Hall1).
    destruct (IH _ Hevs Hflag' Hget' Hlast')
      as (Hflag'' & Hget'' & Hlast'' & sent2 & Hsent2 & Hall2).
    cbn [SettingsController.run fold_left].
    repeat (split; [assumption |]).
    exists (sent1 ++ sent2). split.
    + unfold SettingsController.run in Hsent2.
      now rewrite Hsent2, Hsent1, <- app_assoc.
    + apply List.Forall_app. now split.
Qed.

(** X27. Auto is a round trip for density and for brightness: with the
    field defined, ticking Auto takes it out of the configuration, it
    stays out while neither the slider nor the box is touched and nothing
    is reset, and clearing Auto puts the same value back. *)
Theorem auto_round_trip (a : SettingsController.AutoField)
  (s : SettingsController.State) (d : SettingsController.Value)
  (others : list SettingsController.Event) :
  SettingsController.get (SettingsController.fieldKey a)
    (SettingsController.config s) = d →
  SettingsController.isDefined d = true →
  forallb (SettingsController.leaves
             [SettingsController.fieldKey a; SettingsController.autoKey a])
    others = true →
  let s1 :=
    SettingsController.run
      (SettingsController.handleInputChange (SettingsController.autoKey a)
         (SettingsController.CheckboxInput true) s) others in
  let s2 :=
    SettingsController.handleInputChange (SettingsController.autoKey a)
      (SettingsController.CheckboxInput false) s1 in
  SettingsController.autoFlag a s1 = true ∧
  (∃ sent,
     SettingsController.dispatched s1 =
       SettingsController.dispatched s ++ sent ∧
     sent ≠ [] ∧
     List.Forall
       (λ c, SettingsController.get (SettingsController.fieldKey a) c =
             SettingsController.VUndefined) sent) ∧
  SettingsController.autoFlag a s2 = false ∧
  SettingsController.get (SettingsController.fieldKey a)
    (SettingsController.config s2) = d ∧
  SettingsController.dispatched s2 =
    SettingsController.dispatched s1 ++ [SettingsController.config s2].
Proof.
  intros Hd Hdef Hothers s1 s2.
  set (s0 := SettingsController.handleInputChange (SettingsController.autoKey a)
               (SettingsController.CheckboxInput true) s) in *.
  assert (H0 : SettingsController.autoFlag a s0 = true ∧
               SettingsController.get (SettingsController.fieldKey a)
                 (SettingsController.config s0) =
                 SettingsController.VUndefined ∧
               SettingsController.lastDefined a s0 = d ∧
               SettingsController.dispatched s0 =
                 SettingsController.dispatched s ++
                   [SettingsController.config s0]).
  { subst s0. destruct a;
      cbn [SettingsController.fieldKey SettingsController.autoKey
           SettingsController.autoFlag SettingsController.lastDefined] in *;
      unfold SettingsController.handleInputChange; cbn;
      settings_get; rewrite Hd, Hdef; repeat split. }
  destruct H0 as (Hflag & Hget & Hlast & Hsent0).
  destruct (SettingsController_run_auto a d others s0 Hothers Hflag Hget Hlast)
    as (Hflag1 & Hget1 & Hlast1 & sent & Hsent & Hall).
  fold s1 in Hflag1, Hget1, Hlast1, Hsent.
  split; [exact Hflag1 |]. split.
  { exists (SettingsController.config s0 :: sent). split; [| split].
    - rewrite Hsent, Hsent0, <- app_assoc. reflexivity.
    - discriminate.
    - apply List.Forall_cons; assumption. }
  subst s2. destruct a;
    cbn [SettingsController.fieldKey SettingsController.autoKey
         SettingsController.autoFlag SettingsController.lastDefined] in *;
    unfold SettingsController.handleInputChange; cbn;
    settings_get; rewrite Hget1; cbn; settings_get; rewrite Hlast1;
    repeat split.
Qed.

Lemma SettingsController_step_keeps key s ev :
  SettingsController.leaves [] ev = true →
  is_Some (SettingsController.config s !! key) →
  let s' := SettingsController.step s ev in
  is_Some (SettingsController.config s' !! key) ∧
  ∃ sent,
    SettingsController.dispatched s' = SettingsController.dispatched s ++ sent ∧
    List.Forall (λ c : gmap string SettingsController.Value,
                   is_Some (c !! key)) sent.
Proof.
  intros Hev Hkey. cbv zeta.
  assert (Hins : ∀ k v (c : gmap string SettingsController.Value),
            is_Some (c !! key) → is_Some (<[k := v]> c !! key)).
  { intros k v c Hc. apply lookup_insert_is_Some.
    destruct (decide (k = key)); [now left | now right]. }
  destruct ev as [k target | |]; cbn [SettingsController.step];
    [| discriminate |].
  - settings_input k;
      (split; [now repeat apply Hins |]);
      (eexists; split; [reflexivity |]);
      (apply List.Forall_cons; [| apply List.Forall_nil]);
      now repeat apply Hins.
  - cbn. split; [assumption |].
    exists []. split; [now rewrite app_nil_r | constructor].
Qed.

(** X28. A property once written stays in the configuration until a
    reset: every configuration sent from the input on has it, whatever the
    key, so also [auto-density] and [auto-brightness], and a cleared
    field is sent as a property holding [undefined]. *)
Theorem input_key_stays (s : SettingsController.State) (key : string)
  (target : SettingsController.Target) (evs : list SettingsController.Event) :
  forallb (SettingsController.leaves []) evs = true →
  let s' :=
    SettingsController.run
      (SettingsController.handleInputChange key target s) evs in
  ∃ first sent,
    SettingsController.dispatched s' =
      SettingsController.dispatched s ++ first :: sent ∧
    first !! key = Some (SettingsController.targetValue target) ∧
    List.Forall (λ c : gmap string SettingsController.Value,
                   is_Some (c !! key)) (first :: sent).
Proof.
  intros Hevs. cbv zeta.
  set (s0 := SettingsController.handleInputChange key target s).
  assert (H0 : ∃ first,
            SettingsController.config s0 = first ∧
            SettingsController.dispatched s0 =
              SettingsController.dispatched s ++ [first] ∧
            first !! key = Some (SettingsController.targetValue target) ∧
            is_Some (first !! key)).
  { subst s0. eexists. split; [reflexivity |].
    settings_input key.
    - split; [reflexivity |]. split.
      + rewrite lookup_insert_ne by discriminate.
        apply lookup_insert_eq.
      + apply lookup_insert_is_Some. right. split; [discriminate |].
        rewrite lookup_insert_eq. eauto.
    - split; [reflexivity |]. split.
      + rewrite lookup_insert_ne by discriminate.
        apply lookup_insert_eq.
      + apply lookup_insert_is_Some. right. split; [discriminate |].
        rewrite lookup_insert_eq. eauto.
    - split; [reflexivity |]. split.
      + apply lookup_insert_eq.
      + rewrite lookup_insert_eq. eauto. }
  destruct H0 as (first & Hcfg & Hsent0 & Hval & Hsome).
  assert (Hrun : ∀ s1,
            is_Some (SettingsController.config s1 !! key) →
            ∃ sent,
              SettingsController.dispatched (SettingsController.run s1 evs) =
                SettingsController.dispatched s1 ++ sent ∧
              List.Forall (λ c : gmap string SettingsController.Value,
                             is_Some (c !! key)) sent).
  { clear -Hevs. induction evs as [|ev evs IH]; intros s1 Hs1.
    - exists []. split; [cbn; now rewrite app_nil_r | constructor].
    - cbn [forallb] in Hevs. apply andb_true_iff in Hevs as [Hev Hevs].
      destruct (SettingsController_step_keeps key s1 ev Hev Hs1)
        as (Hs1' & sent1 & Hsent1 & Hall1).
      destruct (IH Hevs _ Hs1') as (sent2 & Hsent2 & Hall2).
      exists (sent1 ++ sent2). split.
      + cbn [SettingsController.run fold_left].
        unfold SettingsController.run in Hsent2.
        now rewrite Hsent2, Hsent1, <- app_assoc.
      + apply List.Forall_app. now split. }
  destruct (Hrun s0) as (sent & Hsent & Hall); [now rewrite Hcfg |].
  exists first, sent. split; [| split].
  - rewrite Hsent, Hsent0, <- app_assoc. reflexivity.
  - exact Hval.
  - apply List.Forall_cons; assumption.
Qed.

Lemma SettingsController_step_undefined a s ev :
  SettingsController.leaves [SettingsController.fieldKey a] ev = true →
  SettingsController.get (SettingsController.fieldKey a)
    (SettingsController.config s) = SettingsController.VUndefined →
  SettingsController.lastDefined a s = SettingsController.VUndefined →
  let s' := SettingsController.step s ev in
  SettingsController.get (SettingsController.fieldKey a)
    (SettingsController.config s') = SettingsController.VUndefined ∧
  SettingsController.lastDefined a s' = SettingsController.VUndefined ∧
  ∃ sent,
    SettingsController.dispatched s' = SettingsController.dispatched s ++ sent ∧
    List.Forall
      (λ c, SettingsController.get (SettingsController.fieldKey a) c =
            SettingsController.VUndefined) sent.
Proof.
  intros Hev Hget Hlast.
  destruct ev as [key target | |]; cbv zeta; cbn [SettingsController.step].
  - apply SettingsController_leaves_cons in Hev as [_ Hfield].
    specialize (Hfield key target eq_refl).
    destruct a;
      cbn [SettingsController.fieldKey SettingsController.lastDefined] in *;
      settings_input key; try congruence; settings_get; rewrite ?Hget;
      cbn [SettingsController.isDefined]; rewrite ?Hlast.
    all: repeat match goal with
           | |- context [if ?c then _ else _] => destruct c
           end.
    all: split; [reflexivity |]; split; [first [assumption | reflexivity] |];
      eexists; (split; [reflexivity |]);
      (apply List.Forall_cons; [| apply List.Forall_nil]);
      settings_get; first [assumption | reflexivity].
  - discriminate.
  - cbn. repeat split; try (destruct a; assumption).
    exists []. split; [now rewrite app_nil_r | constructor].
Qed.

(** X29. A reset sends the default configuration, which has no [bpm],
    and forgets the remembered density and brightness: until the slider
    itself is moved the field is [undefined] in every configuration
    sent, whether Auto is ticked or cleared. *)
Theorem reset_forgets (a : SettingsController.AutoField)
  (s : SettingsController.State) (others : list SettingsController.Event) :
  forallb (SettingsController.leaves [SettingsController.fieldKey a])
    others = true →
  let s0 := SettingsController.resetToDefaults s in
  let s' := SettingsController.run s0 others in
  SettingsController.config s0 = SettingsController.defaultConfig ∧
  SettingsController.bpmOf (SettingsController.config s0) = None ∧
  SettingsController.autoFlag a s0 = true ∧
  SettingsController.get (SettingsController.fieldKey a)
    (SettingsController.config s') = SettingsController.VUndefined ∧
  ∃ sent,
    SettingsController.dispatched s' =
      SettingsController.dispatched s ++
        SettingsController.defaultConfig :: sent ∧
    List.Forall
      (λ c, SettingsController.get (SettingsController.fieldKey a) c =
            SettingsController.VUndefined) sent.
Proof.
  intros Hothers s0 s'.
  split; [reflexivity |]. split; [reflexivity |].
  split; [now destruct a |].
  assert (Hrun : ∀ s1,
            SettingsController.get (SettingsController.fieldKey a)
              (SettingsController.config s1) = SettingsController.VUndefined →
            SettingsController.lastDefined a s1 =
              SettingsController.VUndefined →
            SettingsController.get (SettingsController.fieldKey a)
              (SettingsController.config (SettingsController.run s1 others)) =
              SettingsController.VUndefined ∧
            ∃ sent,
              SettingsController.dispatched (SettingsController.run s1 others) =
                SettingsController.dispatched s1 ++ sent ∧
              List.Forall
                (λ c, SettingsController.get (SettingsController.fieldKey a) c =
                      SettingsController.VUndefined) sent).
  { clear -Hothers. induction others as [|ev evs IH]; intros s1 Hget Hlast.
    - split; [exact Hget |].
      exists []. split; [cbn; now rewrite app_nil_r | constructor].
    - cbn [forallb] in Hothers.
      apply andb_true_iff in Hothers as [Hev Hevs].
      destruct (SettingsController_step_undefined a s1 ev Hev Hget Hlast)
        as (Hget' & Hlast' & sent1 & Hsent1 & Hall1).
      destruct (IH Hevs _ Hget' Hlast') as (Hget'' & sent2 & Hsent2 & Hall2).
      cbn [SettingsController.run fold_left]. split; [exact Hget'' |].
      exists (sent1 ++ sent2). split.
      + unfold SettingsController.run in Hsent2.
        now rewrite Hsent2, Hsent1, <- app_assoc.
      + apply List.Forall_app. now split. }
  destruct (Hrun s0) as (Hget & sent & Hsent & Hall);
    [now destruct a | now destruct a |].
  split; [exact Hget |].
  exists sent. split; [| exact Hall].
  subst s'. rewrite Hsent. subst s0. cbn. now rewrite <- app_assoc.
Qed.

(** ** Instances of the further properties *)

Lemma edits_within_window_not_pushed_witness :
  let s' := run exampleDecode examplePlaying exampleDrag in
  sent (effects s') =
    sent (effects examplePlaying) ++
      [promptsToSend (prompts examplePlaying)
         (filteredPrompts examplePlaying) kickOnly 0.5] ∧
  sequencerWeight s' = 1%Q.
Proof.
  split; [| reflexivity].
  apply (edits_within_window_not_pushed exampleDecode examplePlaying
           kickOnly 0.5 1700000005000 (tl exampleDrag)).
  - discriminate.
  - vm_compute. intros H. discriminate H.
  - intros ev t [<- | [<- | []]] Heq; injection Heq as <-; lia.
Defined.

Lemma play_click_effects_witness :
  let s := exec (pauseAudio 4) examplePlaying in
  let s' := step exampleDecode s (PlayPauseClick 6 1700000006000) in
  playbackState s = paused ∧
  playbackState s' = loading ∧
  added s s' =
    [ContextResume; SessionPlay 1; GainSetValueAtTime 1 0 6;
     GainLinearRampToValueAtTime 1 1 (6 + 0.1)].
Proof.
  split; [reflexivity |].
  destruct (play_click_effects exampleDecode
              (exec (pauseAudio 4) examplePlaying) 6 1700000006000)
    as (Hst & _ & _ & _ & _ & _ & Hadded).
  - right. reflexivity.
  - discriminate.
  - reflexivity.
  - split; [exact Hst | exact Hadded].
Defined.

Lemma rebuffer_after_underrun_witness :
  let late := audioMessage [{| data := "CCCC" |}] in
  let next := audioMessage [{| data := "DDDD" |}] in
  let s' := run exampleDecode examplePlaying
              [ServerMessage late 10; ServerMessage next 10.5] in
  (nextStartTime examplePlaying < 10)%Q ∧
  playbackState s' = loading ∧
  scheduled (added examplePlaying s') =
    [(exampleBuffer "DDDD", (10.5 + bufferTime)%Q)].
Proof.
  split; [reflexivity |].
  destruct (rebuffer_after_underrun exampleDecode
              (audioMessage [{| data := "CCCC" |}])
              (audioMessage [{| data := "DDDD" |}])
              (exampleBuffer "CCCC") (exampleBuffer "DDDD") 10 10.5
              examplePlaying) as (Hst & Hsched & _).
  - intros [H | H]; discriminate H.
  - eexists _, _. split; reflexivity.
  - eexists _, _. split; reflexivity.
  - vm_compute. discriminate.
  - reflexivity.
  - split; [exact Hst | exact Hsched].
Defined.

Lemma handlePromptRemoved_spec_witness :
  let s' := step exampleDecode examplePlaying
              (PromptRemoved "prompt-1" 1700000005000) in
  map_get "prompt-1" (prompts s') = None ∧
  map fst (prompts s') = ["prompt-0"; "prompt-2"].
Proof.
  split; [| reflexivity].
  pose proof (handlePromptRemoved_spec exampleDecode examplePlaying
                "prompt-1" 1700000005000) as H.
  cbv zeta in H.
  change (map_get "prompt-1" (prompts examplePlaying))
    with (Some (mkPrompt "prompt-1" "#5200ff" "Punchy Kick" 1.2)) in H.
  apply H.
  repeat constructor; cbn; intuition discriminate.
Defined.

Lemma add_never_overwrites_witness :
  let s := run exampleDecode (initial examplePrompts)
             [FirstUpdated 1700000000000;
              PromptRemoved "prompt-1" 1700000001000] in
  let s' := step exampleDecode s (AddPromptClick "#2af6de" 1700000002000) in
  map fst (prompts s') = ["prompt-0"; "prompt-2"; "prompt-3"] ∧
  map_get (promptIdOf (nextPromptId s)) (prompts s) = None.
Proof.
  split; [reflexivity |].
  apply (add_never_overwrites exampleDecode examplePrompts 1700000000000
           [PromptRemoved "prompt-1" 1700000001000] "#2af6de"
           1700000002000).
  - reflexivity.
  - reflexivity.
Defined.

Lemma pause_leaves_sources_behind_witness :
  let s' := exec (pauseAudio 4) examplePlaying in
  connectedNodes (effects s') = [0; 0]%nat ∧
  outputNode s' = 1%nat ∧
  List.Forall (λ n, n < outputNode s')%nat (connectedNodes (effects s')).
Proof.
  split; [reflexivity |].
  destruct (pause_leaves_sources_behind exampleDecode examplePrompts
              exampleStartup 4) as (Hnode & Hall & _).
  - discriminate.
  - split; [exact Hnode | exact Hall].
Defined.

Lemma handlePromptChanged_spec_witness :
  let s' := step exampleDecode examplePlaying
              (PromptChanged "prompt-0" "Bossa Nova" 0.7 1700000005000) in
  map_get "prompt-0" (prompts s') =
    Some (mkPrompt "prompt-0" "#9900ff" "Bossa Nova" 0.7) ∧
  map fst (prompts s') = ["prompt-0"; "prompt-1"; "prompt-2"].
Proof.
  split; [| reflexivity].
  pose proof (handlePromptChanged_spec exampleDecode examplePlaying
                "prompt-0" "Bossa Nova" 0.7 1700000005000) as H.
  cbv zeta in H.
  change (map_get "prompt-0" (prompts examplePlaying))
    with (Some (mkPrompt "prompt-0" "#9900ff" "Lush Strings" 0)) in H.
  apply H. discriminate.
Defined.

Lemma getUnusedRandomColor_spec_witness :
  ∃ c, getUnusedRandomColor ["#9900ff"; "#ff25f6"] 0.5 = Some c ∧
       In c COLORS ∧ ¬ In c ["#9900ff"; "#ff25f6"].
Proof.
  destruct (getUnusedRandomColor_spec ["#9900ff"; "#ff25f6"] 0.5)
    as (c & Hc & Hin & Hunused).
  - split; [discriminate | reflexivity].
  - exists c. split; [exact Hc |]. split; [exact Hin |].
    apply Hunused. exists "#5200ff". split.
    + right. left. reflexivity.
    + intros [H | [H | []]]; discriminate H.
Defined.

Lemma initial_prompts_spec_witness :
  let ps := appPrompts (λ _, 0.5%Q) in
  map text (map_values ps) = initialPrompts ∧
  List.NoDup (map color (map_values ps)) ∧
  promptsToSend ps ∅ initialGrid 0 = [].
Proof.
  destruct (initial_prompts_spec (λ _, 0.5%Q) initialPrompts ∅)
    as (_ & _ & Htext & _ & Hcolors & _ & Hsend).
  - intros _. split; [discriminate | reflexivity].
  - cbn. lia.
  - split; [exact Htext |]. split; [exact Hcolors | exact Hsend].
Defined.

Lemma slider_value_in_range_witness :
  inRange
    (value
       (sliderRun newSlider
          [PointerDown 150 (mkDOMRect 100 200); WindowPointerMove 120;
           Wheel 50; WindowPointerUp; Wheel (-3000)])).
Proof.
  apply (slider_value_in_range newSlider
           [PointerDown 150 (mkDOMRect 100 200); WindowPointerMove 120;
            Wheel 50; WindowPointerUp; Wheel (-3000)]).
  - split; discriminate.
  - exact I.
  - apply List.Forall_cons; [reflexivity |].
    apply List.Forall_cons; [exact I |].
    apply List.Forall_cons; [exact I |].
    apply List.Forall_cons; [exact I |].
    apply List.Forall_cons; [exact I |].
    apply List.Forall_nil.
Defined.

Lemma moves_after_release_witness :
  let w := sliderStep newSlider (PointerDown 150 (mkDOMRect 100 200)) in
  let released := sliderStep w WindowPointerUp in
  pointerupListener w = true ∧
  sliderRun released [WindowPointerMove 120; WindowTouchMove 130] = released.
Proof.
  split; [reflexivity |].
  apply (moves_after_release
           (sliderStep newSlider (PointerDown 150 (mkDOMRect 100 200)))
           [WindowPointerMove 120; WindowTouchMove 130]).
  - reflexivity.
  - reflexivity.
Defined.

Lemma value_follows_pointer_witness :
  let bounds := mkDOMRect 100 200 in
  let w := sliderStep newSlider (PointerDown 150 bounds) in
  value (updateValueFromPosition 250 w) = Some (positionValue bounds 250) ∧
  (positionValue bounds 100 == 2)%Q.
Proof.
  destruct (value_follows_pointer
              (sliderStep newSlider (PointerDown 150 (mkDOMRect 100 200)))
              (mkDOMRect 100 200) 250) as (Hvalue & _).
  - reflexivity.
  - reflexivity.
  - split; [exact Hvalue | reflexivity].
Defined.

Lemma handleStepClick_toggles_witness :
  let s := BeatSequencer.connected initialGrid 0 stopped 120 in
  ∃ s', BeatSequencer.handleStepClick 2 5 s = Some s' ∧
        cellAt (BeatSequencer.grid s') 2 5 = Some 1%Z ∧
        cellAt (BeatSequencer.grid s') 2 6 = Some 0%Z.
Proof.
  destruct (handleStepClick_toggles
              (BeatSequencer.connected initialGrid 0 stopped 120) 2 5 0)
    as (s' & Hclick & Hcell & Hothers & _).
  - reflexivity.
  - exists s'. split; [exact Hclick |]. split; [exact Hcell |].
    rewrite Hothers; [reflexivity | discriminate].
Defined.

Lemma BeatSequencer_grid_shape_witness :
  BeatSequencer.wellShaped
    (BeatSequencer.grid
       (BeatSequencer.run
          (BeatSequencer.connected initialGrid 0 stopped 120)
          [BeatSequencer.StepClick 2 5;
           BeatSequencer.Randomize (λ t i, if Nat.even (t + i) then 0.1%Q else 0.9%Q);
           BeatSequencer.PresetChange "House";
           BeatSequencer.StepClick 5 15])).
Proof.
  apply (BeatSequencer_grid_shape initialGrid 0 stopped 120
           [BeatSequencer.StepClick 2 5;
            BeatSequencer.Randomize (λ t i, if Nat.even (t + i) then 0.1%Q else 0.9%Q);
            BeatSequencer.PresetChange "House";
            BeatSequencer.StepClick 5 15]).
  - split; [reflexivity |].
    repeat first
      [ apply List.Forall_nil
      | apply List.Forall_cons
      | split
      | reflexivity
      | (left; reflexivity) ].
  - apply List.Forall_cons; [cbn; lia |].
    apply List.Forall_cons; [exact I |].
    apply List.Forall_cons; [exact I |].
    apply List.Forall_cons; [cbn; lia |].
    apply List.Forall_nil.
Defined.

Lemma auto_round_trip_witness :
  let s :=
    SettingsController.handleInputChange "density"
      (SettingsController.NumericInput true (Some 0.35%Q))
      SettingsController.initial in
  let s1 :=
    SettingsController.run
      (SettingsController.handleInputChange "auto-density"
         (SettingsController.CheckboxInput true) s)
      [SettingsController.InputChange "temperature"
         (SettingsController.NumericInput true (Some 1.5%Q));
       SettingsController.ToggleAdvanced;
       SettingsController.InputChange "auto-brightness"
         (SettingsController.CheckboxInput false)] in
  let s2 :=
    SettingsController.handleInputChange "auto-density"
      (SettingsController.CheckboxInput false) s1 in
  SettingsController.get "density" (SettingsController.config s1) =
    SettingsController.VUndefined ∧
  SettingsController.get "density" (SettingsController.config s2) =
    SettingsController.VNumber 0.35.
Proof.
  destruct (auto_round_trip SettingsController.Density
              (SettingsController.handleInputChange "density"
                 (SettingsController.NumericInput true (Some 0.35%Q))
                 SettingsController.initial)
              (SettingsController.VNumber 0.35)
              [SettingsController.InputChange "temperature"
                 (SettingsController.NumericInput true (Some 1.5%Q));
               SettingsController.ToggleAdvanced;
               SettingsController.InputChange "auto-brightness"
                 (SettingsController.CheckboxInput false)])
    as (_ & _ & _ & Hback & _).
  - reflexivity.
  - reflexivity.
  - reflexivity.
  - split; [reflexivity | exact Hback].
Defined.

Lemma input_key_stays_witness :
  let s' :=
    SettingsController.run
      (SettingsController.handleInputChange "auto-density"
         (SettingsController.CheckboxInput false) SettingsController.initial)
      [SettingsController.InputChange "bpm"
         (SettingsController.NumericInput false (Some 140%Q));
       SettingsController.InputChange "bpm"
         (SettingsController.NumericInput false None)] in
  List.Forall (λ c : gmap string SettingsController.Value,
                 is_Some (c !! "auto-density"))
    (SettingsController.dispatched s').
Proof.
  destruct (input_key_stays SettingsController.initial "auto-density"
              (SettingsController.CheckboxInput false)
              [SettingsController.InputChange "bpm"
                 (SettingsController.NumericInput false (Some 140%Q));
               SettingsController.InputChange "bpm"
                 (SettingsController.NumericInput false None)])
    as (first & sent & Hsent & _ & Hall).
  - reflexivity.
  - cbv zeta. rewrite Hsent. exact Hall.
Defined.

Lemma reset_forgets_witness :
  let s :=
    SettingsController.handleInputChange "density"
      (SettingsController.NumericInput true (Some 0.35%Q))
      SettingsController.initial in
  let s' :=
    SettingsController.run (SettingsController.resetToDefaults s)
      [SettingsController.InputChange "auto-density"
         (SettingsController.CheckboxInput false)] in
  SettingsController.autoDensity s' = false ∧
  SettingsController.get "density" (SettingsController.config s') =
    SettingsController.VUndefined.
Proof.
  split; [reflexivity |].
  destruct (reset_forgets SettingsController.Density
              (SettingsController.handleInputChange "density"
                 (SettingsController.NumericInput true (Some 0.35%Q))
                 SettingsController.initial)
              [SettingsController.InputChange "auto-density"
                 (SettingsController.CheckboxInput false)])
    as (_ & _ & _ & Hget & _).
  - reflexivity.
  - exact Hget.
Defined.

Lemma tempo_changes_only_by_bpm_witness :
  let evs := [ResetClick; SettingsChanged None; SettingsChanged (Some 0%Q);
              PlayPauseClick 6 1700000006000] in
  currentBpm (run exampleDecode examplePlaying evs) =
    currentBpm examplePlaying ∧
  currentBpm
    (run exampleDecode examplePlaying (SettingsChanged (Some 140%Q) :: evs)) =
    140%Q.
Proof.
  destruct (tempo_changes_only_by_bpm exampleDecode examplePlaying
              [ResetClick; SettingsChanged None; SettingsChanged (Some 0%Q);
               PlayPauseClick 6 1700000006000]) as (Hsame & Hset).
  - reflexivity.
  - split; [exact Hsame |]. apply Hset; [discriminate | reflexivity].
Defined.

Lemma decode_settles_after_pause_or_stop_witness :
  let begun :=
    exec (emit (DecodeAudioData "CCCC")) examplePlaying in
  let s' :=
    exec (afterDecode (exampleBuffer "CCCC") 5)
      (exec (pauseAudio 4.5) begun) in
  playbackState s' = paused ∧
  nextStartTime s' = (5 + bufferTime + 1)%Q ∧
  playbackState (exec playbackTimer s') = playing.
Proof.
  destruct (decode_settles_after_pause_or_stop examplePlaying
              {| data := "CCCC" |} (exampleBuffer "CCCC") false 4.5 5)
    as (Hpaused & Hstate & Hcursor & _ & _ & Htimer).
  - right. reflexivity.
  - discriminate.
  - discriminate.
  - discriminate.
  - split; [| split; [exact Hcursor | exact Htimer]].
    exact (eq_trans Hstate Hpaused).
Defined.

Lemma sequencer_prompt_ignores_pattern_witness :
  map hasNotes kickOnly = map hasNotes kickOffbeat ∧
  kickOnly ≠ kickOffbeat ∧
  generateSequencerPrompt kickOnly 0.5 =
    generateSequencerPrompt kickOffbeat 0.5.
Proof.
  split; [reflexivity |]. split; [discriminate |].
  destruct (sequencer_prompt_ignores_pattern kickOnly kickOffbeat 0.5)
    as [Hiff _].
  - reflexivity.
  - reflexivity.
  - reflexivity.
  - apply Hiff. reflexivity.
Defined.

Lemma only_first_chunk_used_witness :
  let e := audioMessage [{| data := "AAAA" |}; {| data := "BBBB" |}] in
  let s' := exec (onmessage exampleDecode e 1.5) exampleLoading in
  playbackState exampleLoading = loading ∧
  decoded (added exampleLoading s') = ["AAAA"] ∧
  scheduled (added exampleLoading s') =
    [(exampleBuffer "AAAA", (1.5 + bufferTime)%Q)].
Proof.
  split; [reflexivity |].
  destruct (only_first_chunk_used exampleDecode false None
              {| data := "AAAA" |} {| data := "BBBB" |} [] 1.5
              exampleLoading) as (_ & _ & _ & Hfirst).
  destruct (Hfirst (or_introl eq_refl)) as [Hdecoded Hstart].
  split; [exact Hdecoded |].
  apply (Hstart (exampleBuffer "AAAA") eq_refl).
  vm_compute. discriminate.
Defined.

Lemma double_schedule_back_to_back_witness :
  let half := Double.ratio 1 2 in
  let quarter := Double.ratio 1 4 in
  let now := Double.ratio 3 2 in
  let c := mkCursor loading Double.zero 0 [] in
  let c' := Double.scheduleAll [(now, half); (now, quarter); (now, half)] c in
  map fst (started c') =
    [Double.ratio 7 2; Double.ratio 4 1; Double.ratio 17 4] ∧
  (Double.toQ (cursorTime c') - Double.toQ (Double.ratio 7 2) == 5 # 4)%Q.
Proof.
  destruct (double_schedule_back_to_back
              (mkCursor loading Double.zero 0 [])
              (Double.ratio 3 2) (Double.ratio 1 2)
              [(Double.ratio 3 2, Double.ratio 1 4);
               (Double.ratio 3 2, Double.ratio 1 2)])
    as (Hstarted & _ & _ & _ & Hexact).
  - left. reflexivity.
  - reflexivity.
  - reflexivity.
  - vm_compute. tauto.
  - destruct Hexact as [Hsum _].
    + vm_compute. tauto.
    + split.
      * cbv zeta. rewrite Hstarted. reflexivity.
      * cbv zeta. rewrite Hsum. reflexivity.
Defined.
